(** * speedlog: an asynchronous buffered logger, and its two earlier variants

    The repository holds three versions of the logger:
    - package [speedlog] (the Go file printed after README.md): bounded
      channel, blocking producers, cached timestamp, [sync.Once] shutdown;
      modelled in [Module Speedlog] as a transition system whose actions are
      the atomic steps of the goroutines;
    - the channel-based [package main] (src/unnamed/part_000): non-blocking
      send that drops on a full channel, [time.Now] on every call, guarded
      [SetLevel], unguarded [Close]; modelled in [Module Part000];
    - the mutex-based [package main] (src/main.go): synchronous write and
      flush on every call; modelled in [Module MainGo].

    Go's [int] is taken to be 64 bits wide and is modelled by [Z]; [[]byte]
    and [string] are [list byte]; the underlying writers are external and are
    observed through the list of calls they receive. *)

From Stdlib Require Import ZArith Lia List String Strings.Byte.
From stdpp Require Import base list numbers gmap.

Open Scope Z_scope.

(** ** Bytes, levels, time *)

Abbreviation bytes := (list byte).

Definition B (s : string) : bytes := list_byte_of_string s.

(** The conversion [int32(x)] of a Go [int]: two's complement truncation. *)
Definition int32 (x : Z) : Z := (x + 2 ^ 31) mod 2 ^ 32 - 2 ^ 31.

Definition is_int (x : Z) : Prop := - 2 ^ 63 <= x < 2 ^ 63.
Definition is_int32 (x : Z) : Prop := - 2 ^ 31 <= x < 2 ^ 31.

Definition DEBUG : Z := 0.
Definition INFO : Z := 1.
Definition WARN : Z := 2.
Definition ERROR : Z := 3.

Definition levelNames : list bytes := [B "DEBUG"; B "INFO"; B "WARN"; B "ERROR"].

(** A [time.Time] value: its instant in milliseconds and what [Format]
    prints for a layout.  The formatter belongs to Go's library, so a time
    value carries its own rendering. *)
Record Time := mkTime { unix_ms : Z; Format : string -> bytes }.

Definition AppendFormat (t : Time) (b : bytes) (layout : string) : bytes :=
  b ++ Format t layout.

(** A [time.Ticker]: fires when the clock has reached [tk_next]. *)
Record Ticker := mkTicker { tk_period : Z; tk_next : Z }.

Definition NewTicker (d : Z) (now : Time) : Ticker :=
  {| tk_period := d; tk_next := unix_ms now + d |}.
Definition tick_ready (tk : Ticker) (now : Time) : bool := tk_next tk <=? unix_ms now.
Definition tick_fire (tk : Ticker) : Ticker :=
  {| tk_period := tk_period tk; tk_next := tk_next tk + tk_period tk |}.

(** Outcome of an atomic step: it happens, the thread has to wait, or the
    Go runtime panics. *)
Inductive Result (A : Type) : Type :=
| Ok (a : A)
| Blocked
| Panic.
Arguments Ok {A} a.
Arguments Blocked {A}.
Arguments Panic {A}.

(** Library calls a producer makes inside [log]/[logf]. *)
Inductive Call :=
| CLoadLevel        (* atomic load of the threshold *)
| CPoolGet
| CPoolPut
| CLoadTs           (* atomic.Value.Load of the cached timestamp *)
| CTimeNow          (* time.Now() *)
| CTimeFormat       (* Time.Format / Time.AppendFormat *)
| CSprintf
| CLock
| CUnlock.

Definition is_clock_call (c : Call) : bool :=
  match c with CTimeNow | CTimeFormat => true | _ => false end.
Definition is_ts_load (c : Call) : bool :=
  match c with CLoadTs => true | _ => false end.

(** ** Underlying writers, seen through the calls they receive *)

(** An [io.Writer] handed to the logger; [w_closer] tells whether it also
    implements [io.Closer].  Each entry of the writer list is one sink,
    named by its position. *)
Record Writer := mkWriter { w_closer : bool }.

Definition Stdout : Writer := {| w_closer := true |}.

Inductive SinkOp :=
| OpWrite (i : nat) (p : bytes)
| OpClose (i : nat).

Definition is_close (o : SinkOp) : bool :=
  match o with OpClose _ => true | OpWrite _ _ => false end.
Definition is_close_of (i : nat) (o : SinkOp) : bool :=
  match o with OpClose j => bool_decide (j = i) | OpWrite _ _ => false end.
Definition payload_of (i : nat) (o : SinkOp) : bytes :=
  match o with OpWrite j p => if bool_decide (j = i) then p else [] | OpClose _ => [] end.

(** All bytes sink [i] has received, in order. *)
Definition sink_out (i : nat) (ops : list SinkOp) : bytes := ops ≫= payload_of i.
(** Number of [Close] calls sink [i] has received. *)
Definition sink_closes (i : nat) (ops : list SinkOp) : nat :=
  length (filter (λ o, is_close_of i o) ops).

(** No sink is closed in [o]. *)
Definition no_close (o : list SinkOp) : Prop := Forall (λ x, is_close x = false) o.

(** [r] occurs in [l] as a block of consecutive bytes. *)
Definition occurs_in (r l : bytes) : Prop := ∃ pre post, l = pre ++ r ++ post.

(** ** bufio.Writer over a writer that accepts every write *)

Record bufioWriter := mkBufio { bw_buf : bytes; bw_size : Z }.

Definition NewWriterSize (size : Z) : bufioWriter := {| bw_buf := []; bw_size := size |}.
Definition Buffered (bw : bufioWriter) : Z := Z.of_nat (length (bw_buf bw)).
Definition Available (bw : bufioWriter) : Z := bw_size bw - Buffered bw.
Definition with_buf (b : bytes) (bw : bufioWriter) : bufioWriter :=
  {| bw_buf := b; bw_size := bw_size bw |}.

(** [Flush]: hands the buffered bytes to the underlying writer, in one
    call, unless nothing is buffered.  The result is the writer afterwards
    and the chunks passed down. *)
Definition bufio_Flush (bw : bufioWriter) : bufioWriter * list bytes :=
  match bw_buf bw with
  | [] => (bw, [])
  | _ :: _ => (with_buf [] bw, [bw_buf bw])
  end.

(** [Write]: the loop of bufio.Writer.Write unrolled.  While [p] does not
    fit: with an empty buffer [p] goes straight down; otherwise the buffer
    is filled and flushed.  What remains is copied into the buffer. *)
Definition bufio_Write (p : bytes) (bw : bufioWriter) : bufioWriter * list bytes :=
  if Z.of_nat (length p) <=? Available bw then (with_buf (bw_buf bw ++ p) bw, [])
  else if Buffered bw =? 0 then (bw, [p])
  else
    let n := Z.to_nat (Available bw) in
    let full := bw_buf bw ++ take n p in
    let rest := drop n p in
    if Z.of_nat (length rest) <=? bw_size bw then (with_buf rest bw, [full])
    else (with_buf [] bw, [full; rest]).

(** [for _, bw := range bufs { f(bw) }], where [bufs[i]] wraps writer [i]. *)
Definition range_bufs (f : bufioWriter -> bufioWriter * list bytes)
    (bufs : list bufioWriter) : list bufioWriter * list SinkOp :=
  ((λ bw, (f bw).1) <$> bufs,
   concat (imap (λ i bw, OpWrite i <$> (f bw).2) bufs)).

(** [for _, w := range writers { if c, ok := w.(io.Closer); ok { c.Close() } }] *)
Definition close_writers (ws : list Writer) : list SinkOp :=
  concat (imap (λ i w, if w_closer w then [OpClose i] else []) ws).

(** ** A buffered channel *)

Record Chan (A : Type) := mkChan { c_items : list A; c_cap : Z }.
Arguments mkChan {A} _ _.
Arguments c_items {A} _.
Arguments c_cap {A} _.

Definition make_chan {A} (n : Z) : Chan A := mkChan [] n.
Definition can_send {A} (c : Chan A) : bool := Z.of_nat (length (c_items c)) <? c_cap c.
Definition chan_send {A} (x : A) (c : Chan A) : Chan A := mkChan (c_items c ++ [x]) (c_cap c).
Definition chan_recv {A} (c : Chan A) : option (A * Chan A) :=
  match c_items c with
  | [] => None
  | x :: rest => Some (x, mkChan rest (c_cap c))
  end.

(** ** Package speedlog (README.md) *)

Module Speedlog.

Definition layout : string := "2006-01-02 15:04:05.000".
Definition flushInterval : Z := 500.
Definition timestampInterval : Z := 100.

Inductive OnceState := OnceFresh | OnceRunning | OnceDone.

(** The struct.  [ch] and [bufPool] hold buffers by address: a [[]byte]
    shares its backing array with whoever else holds the slice, so buffer
    contents live in the system's [heap]. *)
Record Logger := mkLogger {
  level : Z;
  writers : list Writer;
  bufs : list bufioWriter;
  ch : Chan nat;
  bufPool : list nat;
  done : bool;
  wg : nat;
  closeOnce : OnceState;
  ts : bytes
}.

Definition set_level v l := mkLogger v (writers l) (bufs l) (ch l) (bufPool l) (done l) (wg l) (closeOnce l) (ts l).
Definition set_writers v l := mkLogger (level l) v (bufs l) (ch l) (bufPool l) (done l) (wg l) (closeOnce l) (ts l).
Definition set_bufs v l := mkLogger (level l) (writers l) v (ch l) (bufPool l) (done l) (wg l) (closeOnce l) (ts l).
Definition set_ch v l := mkLogger (level l) (writers l) (bufs l) v (bufPool l) (done l) (wg l) (closeOnce l) (ts l).
Definition set_bufPool v l := mkLogger (level l) (writers l) (bufs l) (ch l) v (done l) (wg l) (closeOnce l) (ts l).
Definition set_done v l := mkLogger (level l) (writers l) (bufs l) (ch l) (bufPool l) v (wg l) (closeOnce l) (ts l).
Definition set_wg v l := mkLogger (level l) (writers l) (bufs l) (ch l) (bufPool l) (done l) v (closeOnce l) (ts l).
Definition set_closeOnce v l := mkLogger (level l) (writers l) (bufs l) (ch l) (bufPool l) (done l) (wg l) v (ts l).
Definition set_ts v l := mkLogger (level l) (writers l) (bufs l) (ch l) (bufPool l) (done l) (wg l) (closeOnce l) v.

(** *** Options and the level accessors *)

Inductive Option :=
| WithWriter (w : option Writer)       (* [None] is a nil writer *)
| WithChannelSize (n : Z)
| WithLevel (lvl : Z).

Definition apply_option (o : Option) (l : Logger) : Logger :=
  match o with
  | WithWriter (Some w) => set_writers (writers l ++ [w]) l
  | WithWriter None => l
  | WithChannelSize n => if 0 <? n then set_ch (make_chan n) l else l
  | WithLevel lvl => set_level (int32 lvl) l
  end.

Definition IsLevelEnabled (lvl : Z) (l : Logger) : bool := lvl >=? level l.
Definition SetLevel (lvl : Z) (l : Logger) : Logger := set_level (int32 lvl) l.
Definition GetLevel (l : Logger) : Z := level l.

(** *** The record built by [log] *)

(** The guarded lookup in [levelNames]; [None] would be an index out of
    range, which panics. *)
Definition levelTag (lvl : Z) : option bytes :=
  if (0 <=? lvl) && (lvl <? Z.of_nat (length levelNames))
  then levelNames !! Z.to_nat lvl
  else Some (B "UNK").

Definition log_record (stamp : bytes) (lvl : Z) (msg : bytes) : option bytes :=
  tag ← levelTag lvl;
  Some (((((([] ++ stamp) ++ B " ") ++ tag) ++ B " ") ++ msg) ++ [x0a]).

(** *** The running system *)

Inductive WorkerPC := WLoop | WDrain | WExit.
Inductive TsPC := TLoop | TExit.
Inductive ClosePC := InBody | InWait.

(** Which ready case a [select] takes. *)
Inductive WCase := WRecv | WTick | WDone.
Inductive TCase := TTick | TDone.

Record System := mkSystem {
  lg : Logger;
  heap : list bytes;                 (* contents of the byte buffers, by address *)
  now : Time;                        (* the wall clock *)
  ops : list SinkOp;                 (* calls received by the writers, oldest first *)
  senders : gmap nat (nat * bytes);  (* producers at the select of [log]: buffer, record built *)
  closers : gmap nat ClosePC;        (* threads inside [Close] *)
  wpc : WorkerPC;  wtick : Ticker;   (* writerLoop *)
  tpc : TsPC;  ttick : Ticker;       (* timestampLoop *)
  (* history *)
  h_calls : list (nat * Call);       (* library calls made by producers *)
  h_issued : list (nat * bytes);     (* records built by calls that passed the level check *)
  h_enq : list (nat * bytes);        (* records sent into the channel *)
  h_discarded : list (nat * bytes);  (* records given up at the select *)
  h_written : list bytes;            (* records the writer wrote to the bufio writers *)
  h_mark : option nat;               (* records sent when the writer took [<-l.done] *)
  h_returned : list nat;             (* calls of [Close] that returned *)
  h_published : list Time            (* instants whose rendering was stored in [ts] *)
}.

Definition on_lg (f : Logger -> Logger) (s : System) : System :=
  mkSystem (f (lg s)) (heap s) (now s) (ops s) (senders s) (closers s) (wpc s) (wtick s)
    (tpc s) (ttick s) (h_calls s) (h_issued s) (h_enq s) (h_discarded s) (h_written s)
    (h_mark s) (h_returned s) (h_published s).
Definition set_heap v (s : System) : System :=
  mkSystem (lg s) v (now s) (ops s) (senders s) (closers s) (wpc s) (wtick s)
    (tpc s) (ttick s) (h_calls s) (h_issued s) (h_enq s) (h_discarded s) (h_written s)
    (h_mark s) (h_returned s) (h_published s).
Definition set_now v (s : System) : System :=
  mkSystem (lg s) (heap s) v (ops s) (senders s) (closers s) (wpc s) (wtick s)
    (tpc s) (ttick s) (h_calls s) (h_issued s) (h_enq s) (h_discarded s) (h_written s)
    (h_mark s) (h_returned s) (h_published s).
Definition add_ops v (s : System) : System :=
  mkSystem (lg s) (heap s) (now s) (ops s ++ v) (senders s) (closers s) (wpc s) (wtick s)
    (tpc s) (ttick s) (h_calls s) (h_issued s) (h_enq s) (h_discarded s) (h_written s)
    (h_mark s) (h_returned s) (h_published s).
Definition set_senders v (s : System) : System :=
  mkSystem (lg s) (heap s) (now s) (ops s) v (closers s) (wpc s) (wtick s)
    (tpc s) (ttick s) (h_calls s) (h_issued s) (h_enq s) (h_discarded s) (h_written s)
    (h_mark s) (h_returned s) (h_published s).
Definition set_closers v (s : System) : System :=
  mkSystem (lg s) (heap s) (now s) (ops s) (senders s) v (wpc s) (wtick s)
    (tpc s) (ttick s) (h_calls s) (h_issued s) (h_enq s) (h_discarded s) (h_written s)
    (h_mark s) (h_returned s) (h_published s).
Definition set_wpc v (s : System) : System :=
  mkSystem (lg s) (heap s) (now s) (ops s) (senders s) (closers s) v (wtick s)
    (tpc s) (ttick s) (h_calls s) (h_issued s) (h_enq s) (h_discarded s) (h_written s)
    (h_mark s) (h_returned s) (h_published s).
Definition set_wtick v (s : System) : System :=
  mkSystem (lg s) (heap s) (now s) (ops s) (senders s) (closers s) (wpc s) v
    (tpc s) (ttick s) (h_calls s) (h_issued s) (h_enq s) (h_discarded s) (h_written s)
    (h_mark s) (h_returned s) (h_published s).
Definition set_tpc v (s : System) : System :=
  mkSystem (lg s) (heap s) (now s) (ops s) (senders s) (closers s) (wpc s) (wtick s)
    v (ttick s) (h_calls s) (h_issued s) (h_enq s) (h_discarded s) (h_written s)
    (h_mark s) (h_returned s) (h_published s).
Definition set_ttick v (s : System) : System :=
  mkSystem (lg s) (heap s) (now s) (ops s) (senders s) (closers s) (wpc s) (wtick s)
    (tpc s) v (h_calls s) (h_issued s) (h_enq s) (h_discarded s) (h_written s)
    (h_mark s) (h_returned s) (h_published s).
Definition note (tid : nat) (c : Call) (s : System) : System :=
  mkSystem (lg s) (heap s) (now s) (ops s) (senders s) (closers s) (wpc s) (wtick s)
    (tpc s) (ttick s) (h_calls s ++ [(tid, c)]) (h_issued s) (h_enq s) (h_discarded s)
    (h_written s) (h_mark s) (h_returned s) (h_published s).
Definition note_issued v (s : System) : System :=
  mkSystem (lg s) (heap s) (now s) (ops s) (senders s) (closers s) (wpc s) (wtick s)
    (tpc s) (ttick s) (h_calls s) (h_issued s ++ [v]) (h_enq s) (h_discarded s) (h_written s)
    (h_mark s) (h_returned s) (h_published s).
Definition note_enq v (s : System) : System :=
  mkSystem (lg s) (heap s) (now s) (ops s) (senders s) (closers s) (wpc s) (wtick s)
    (tpc s) (ttick s) (h_calls s) (h_issued s) (h_enq s ++ [v]) (h_discarded s) (h_written s)
    (h_mark s) (h_returned s) (h_published s).
Definition note_discarded v (s : System) : System :=
  mkSystem (lg s) (heap s) (now s) (ops s) (senders s) (closers s) (wpc s) (wtick s)
    (tpc s) (ttick s) (h_calls s) (h_issued s) (h_enq s) (h_discarded s ++ [v]) (h_written s)
    (h_mark s) (h_returned s) (h_published s).
Definition note_written v (s : System) : System :=
  mkSystem (lg s) (heap s) (now s) (ops s) (senders s) (closers s) (wpc s) (wtick s)
    (tpc s) (ttick s) (h_calls s) (h_issued s) (h_enq s) (h_discarded s) (h_written s ++ [v])
    (h_mark s) (h_returned s) (h_published s).
Definition set_mark v (s : System) : System :=
  mkSystem (lg s) (heap s) (now s) (ops s) (senders s) (closers s) (wpc s) (wtick s)
    (tpc s) (ttick s) (h_calls s) (h_issued s) (h_enq s) (h_discarded s) (h_written s)
    v (h_returned s) (h_published s).
Definition note_returned (tid : nat) (s : System) : System :=
  mkSystem (lg s) (heap s) (now s) (ops s) (senders s) (closers s) (wpc s) (wtick s)
    (tpc s) (ttick s) (h_calls s) (h_issued s) (h_enq s) (h_discarded s) (h_written s)
    (h_mark s) (h_returned s ++ [tid]) (h_published s).
Definition note_published v (s : System) : System :=
  mkSystem (lg s) (heap s) (now s) (ops s) (senders s) (closers s) (wpc s) (wtick s)
    (tpc s) (ttick s) (h_calls s) (h_issued s) (h_enq s) (h_discarded s) (h_written s)
    (h_mark s) (h_returned s) (h_published s ++ [v]).

(** A thread that is inside [log] or [Close] cannot start another call. *)
Definition busy (tid : nat) (s : System) : bool :=
  bool_decide (is_Some (senders s !! tid)) || bool_decide (is_Some (closers s !! tid)).

(** *** New *)

(** [New(opts...)]; [t0] is the clock when it runs.  Both goroutines and
    their tickers are taken to start with it. *)
Definition New (opts : list Option) (t0 : Time) : System :=
  let l := {| level := int32 INFO; writers := []; bufs := [];
              ch := make_chan 1024; bufPool := []; done := false; wg := 0;
              closeOnce := OnceFresh; ts := [] |} in
  let l := foldl (λ l o, apply_option o l) l opts in
  let l := if bool_decide (length (writers l) = 0%nat) then set_writers [Stdout] l else l in
  let l := set_bufs ((λ _, NewWriterSize (64 * 1024)) <$> writers l) l in
  let l := set_ts (AppendFormat t0 [] layout) l in
  let l := set_wg 2 l in
  {| lg := l; heap := []; now := t0; ops := []; senders := ∅; closers := ∅;
     wpc := WLoop; wtick := NewTicker flushInterval t0;
     tpc := TLoop; ttick := NewTicker timestampInterval t0;
     h_calls := []; h_issued := []; h_enq := []; h_discarded := []; h_written := [];
     h_mark := None; h_returned := []; h_published := [t0] |}.

(** *** Producers: log and logf *)

(** [l.bufPool.Get()]: [Some k] takes the [k]-th pooled buffer, [None]
    makes the pool call [New], which allocates a fresh empty buffer. *)
Definition pool_Get (pick : option nat) (s : System) : option (nat * System) :=
  match pick with
  | None => Some (length (heap s), set_heap (heap s ++ [[]]) s)
  | Some k =>
      a ← bufPool (lg s) !! k;
      Some (a, on_lg (set_bufPool (delete k (bufPool (lg s)))) s)
  end.

Definition pool_Put (a : nat) (s : System) : System :=
  on_lg (λ l, set_bufPool (bufPool l ++ [a]) l) s.

(** [log] up to its select: level check, buffer from the pool, the cached
    timestamp, the appends.  The record is left in buffer [a] and the
    thread stands at the select. *)
Definition log (tid : nat) (lvl : Z) (msg : bytes) (pick : option nat) (s : System)
    : Result System :=
  if busy tid s then Blocked else
  let s := note tid CLoadLevel s in
  if negb (IsLevelEnabled lvl (lg s)) then Ok s else
  match pool_Get pick s with
  | None => Blocked
  | Some (a, s) =>
      let s := note tid CPoolGet s in
      let stamp := ts (lg s) in
      let s := note tid CLoadTs s in
      match log_record stamp lvl msg with
      | None => Panic
      | Some r =>
          Ok (note_issued (tid, r)
                (set_senders (<[tid := (a, r)]> (senders s))
                   (set_heap (<[a := r]> (heap s)) s)))
      end
  end.

(** The select of [log]: send into [ch], or see [done] closed and put the
    buffer back.  [first] resolves the choice when both cases are ready. *)
Definition log_select (tid : nat) (first : bool) (s : System) : Result System :=
  match senders s !! tid with
  | None => Blocked
  | Some (a, r) =>
      let s' := set_senders (delete tid (senders s)) s in
      if can_send (ch (lg s)) && (negb (done (lg s)) || first)
      then Ok (note_enq (tid, r) (on_lg (λ l, set_ch (chan_send a (ch l)) l) s'))
      else if done (lg s)
      then Ok (note_discarded (tid, r) (pool_Put a (note tid CPoolPut s')))
      else Blocked
  end.

(** [logf]: its own level check, [fmt.Sprintf] (whose result is [msg]),
    then [log]. *)
Definition logf (tid : nat) (lvl : Z) (msg : bytes) (pick : option nat) (s : System)
    : Result System :=
  if busy tid s then Blocked else
  let s := note tid CLoadLevel s in
  if negb (IsLevelEnabled lvl (lg s)) then Ok s else
  log tid lvl msg pick (note tid CSprintf s).

(** *** writerLoop *)

Definition flushAll (s : System) : System :=
  let r := range_bufs bufio_Flush (bufs (lg s)) in
  add_ops r.2 (on_lg (set_bufs r.1) s).

(** One received line: written to every bufio writer, buffer back to the
    pool.  A line is never nil here: buffers come from the pool or from
    [make]. *)
Definition write_line (a : nat) (s : System) : System :=
  let line := default [] (heap s !! a) in
  let r := range_bufs (bufio_Write line) (bufs (lg s)) in
  pool_Put a (note_written line (add_ops r.2 (on_lg (set_bufs r.1) s))).

Definition recv_line (s : System) : option System :=
  '(a, c) ← chan_recv (ch (lg s));
  Some (write_line a (on_lg (set_ch c) s)).

Definition writerLoop (c : WCase) (s : System) : Result System :=
  match wpc s with
  | WLoop =>
      match c with
      | WRecv => match recv_line s with Some s' => Ok s' | None => Blocked end
      | WTick =>
          if tick_ready (wtick s) (now s)
          then Ok (flushAll (set_wtick (tick_fire (wtick s)) s))
          else Blocked
      | WDone =>
          if done (lg s)
          then Ok (set_mark (Some (length (h_enq s))) (set_wpc WDrain s))
          else Blocked
      end
  | WDrain =>
      match recv_line s with
      | Some s' => Ok s'
      | None => Ok (on_lg (λ l, set_wg (Nat.pred (wg l)) l) (set_wpc WExit (flushAll s)))
      end
  | WExit => Blocked
  end.

(** *** timestampLoop *)

Definition timestampLoop (c : TCase) (s : System) : Result System :=
  match tpc s with
  | TLoop =>
      match c with
      | TTick =>
          if tick_ready (ttick s) (now s)
          then Ok (note_published (now s)
                     (on_lg (set_ts (AppendFormat (now s) [] layout))
                        (set_ttick (tick_fire (ttick s)) s)))
          else Blocked
      | TDone =>
          if done (lg s)
          then Ok (on_lg (λ l, set_wg (Nat.pred (wg l)) l) (set_tpc TExit s))
          else Blocked
      end
  | TExit => Blocked
  end.

(** *** Sync and Close *)

(** [Sync] flushes the bufio writers from the goroutine of its caller and
    takes no lock, while [writerLoop] writes to the same bufio writers.
    The definition is a call of [Sync] that overlaps no turn of
    [writerLoop] and no flush of [Close]; what an overlapping call does to
    a bufio writer is not modelled.  The theorems on the contents of the
    bufio writers and of the sinks are therefore stated for schedules
    without [Sync] ([no_sync]). *)
Definition Sync (s : System) : System := flushAll s.

(** Entering [Close]: [closeOnce.Do].  The first caller takes the body
    and closes [done]; closing a closed channel panics. *)
Definition Close (tid : nat) (s : System) : Result System :=
  if busy tid s then Blocked else
  match closeOnce (lg s) with
  | OnceFresh =>
      if done (lg s) then Panic
      else Ok (set_closers (<[tid := InBody]> (closers s))
                 (on_lg (λ l, set_done true (set_closeOnce OnceRunning l)) s))
  | OnceRunning => Ok (set_closers (<[tid := InWait]> (closers s)) s)
  | OnceDone => Ok (note_returned tid s)
  end.

(** The body after [close(l.done)]: [wg.Wait()], flush, close the writers;
    then [Do] returns. *)
Definition Close_body (tid : nat) (s : System) : Result System :=
  match closers s !! tid with
  | Some InBody =>
      if bool_decide (wg (lg s) = 0%nat)
      then
        let s := flushAll s in
        let s := add_ops (close_writers (writers (lg s))) s in
        Ok (note_returned tid
              (set_closers (delete tid (closers s))
                 (on_lg (set_closeOnce OnceDone) s)))
      else Blocked
  | _ => Blocked
  end.

(** A caller that found [Do] running returns once the body is over. *)
Definition Close_return (tid : nat) (s : System) : Result System :=
  match closers s !! tid, closeOnce (lg s) with
  | Some InWait, OnceDone => Ok (note_returned tid (set_closers (delete tid (closers s)) s))
  | _, _ => Blocked
  end.

(** *** Interleavings *)

(** An action is one atomic step of one goroutine.  Statements that touch
    only the goroutine's own data are merged with its next access to shared
    state: [ALog] and [ALogf] are [log] and [logf] up to the select (the
    threshold and the timestamp are loaded there), [ASelect] is the select;
    [AWriter] and [ATimestamp] are one turn of the loops, with the case the
    select takes; [AClose] enters [closeOnce.Do] and closes [done];
    [ACloseBody] is the body from the return of [wg.Wait()] on, when no
    other goroutine writes to the bufio writers; [ACloseReturn] ends a call
    that waited in [Do]; [ASync] is a call of [Sync] that overlaps no turn
    of [writerLoop]; [AClock] lets time pass. *)

Inductive Action :=
| ALog (tid : nat) (lvl : Z) (msg : bytes) (pick : option nat)
| ALogf (tid : nat) (lvl : Z) (msg : bytes) (pick : option nat)
| ASelect (tid : nat) (first : bool)
| AWriter (c : WCase)
| ATimestamp (c : TCase)
| ASetLevel (lvl : Z)
| ASync
| AClose (tid : nat)
| ACloseBody (tid : nat)
| ACloseReturn (tid : nat)
| AClock (t : Time).

Definition step (a : Action) (s : System) : Result System :=
  match a with
  | ALog tid lvl msg pick => log tid lvl msg pick s
  | ALogf tid lvl msg pick => logf tid lvl msg pick s
  | ASelect tid first => log_select tid first s
  | AWriter c => writerLoop c s
  | ATimestamp c => timestampLoop c s
  | ASetLevel lvl => Ok (on_lg (SetLevel lvl) s)
  | ASync => Ok (Sync s)
  | AClose tid => Close tid s
  | ACloseBody tid => Close_body tid s
  | ACloseReturn tid => Close_return tid s
  | AClock t => if unix_ms (now s) <=? unix_ms t then Ok (set_now t s) else Blocked
  end.

(** A schedule: the actions are tried in turn, one that cannot happen in
    the current state is skipped. *)
Definition step_or_stay (s : System) (a : Action) : System :=
  match step a s with Ok s' => s' | _ => s end.

Definition run (acts : list Action) (s : System) : System := foldl step_or_stay s acts.

(** Records held by producers standing at the select. *)
Definition pending (s : System) : list (nat * bytes) :=
  (λ x, (x.1, x.2.2)) <$> map_to_list (senders s).
Definition pending_bufs (s : System) : list nat :=
  (λ x, x.2.1) <$> map_to_list (senders s).

(** *** Invariants of the reachable states *)

(** Buffer [a] of the channel holds the bytes of the record sent in it. *)
Definition queued_ok (s : System) (qd : list (nat * bytes)) : Prop :=
  Forall2 (λ a (x : nat * bytes), heap s !! a = Some x.2) (c_items (ch (lg s))) qd.

(** The buffers in use: in the channel, in the pool, or in the hands of
    a producer. *)
Definition owned (s : System) : list nat :=
  c_items (ch (lg s)) ++ bufPool (lg s) ++ pending_bufs s.

(** Ownership of buffers: no buffer is held twice; the channel delivers
    what was sent. *)
Record heap_inv (s : System) : Prop := {
  hi_nodup : NoDup (owned s);
  hi_bound : Forall (λ a, (a < length (heap s))%nat) (owned s);
  hi_sender : ∀ tid a r, senders s !! tid = Some (a, r) → heap s !! a = Some r;
  hi_fifo : ∃ wr qd, h_enq s = wr ++ qd ∧ h_written s = wr.*2 ∧ queued_ok s qd
}.

(** Sink [i] has received, or its bufio writer still holds, exactly the
    records written so far. *)
Definition stream_inv (s : System) : Prop :=
  ∀ i bw, bufs (lg s) !! i = Some bw →
          sink_out i (ops s) ++ bw_buf bw = concat (h_written s).

(** Every record built is in the channel history, given up, or pending. *)
Record loss_inv (s : System) : Prop := {
  li_perm : h_issued s ≡ₚ h_enq s ++ h_discarded s ++ pending s;
  li_running : done (lg s) = false → h_discarded s = []
}.

(** The shutdown protocol. *)
Record shut_inv (s : System) : Prop := {
  si_cap : 0 < c_cap (ch (lg s));
  si_len : length (bufs (lg s)) = length (writers (lg s));
  si_wg : wg (lg s) =
          ((if wpc s is WExit then 0 else 1) + (if tpc s is TExit then 0 else 1))%nat;
  si_fresh : done (lg s) = false ↔ closeOnce (lg s) = OnceFresh;
  si_wloop : wpc s = WLoop → h_mark s = None;
  si_wdone : wpc s ≠ WLoop → done (lg s) = true ∧ ∃ k, h_mark s = Some k;
  si_tdone : tpc s = TExit → done (lg s) = true;
  si_mark : ∀ k, h_mark s = Some k → (k ≤ length (h_enq s))%nat;
  si_wexit : wpc s = WExit →
             Forall (λ bw, bw_buf bw = []) (bufs (lg s)) ∧
             ∀ k, h_mark s = Some k → (k ≤ length (h_written s))%nat;
  si_body : ∀ tid, closers s !! tid = Some InBody → closeOnce (lg s) = OnceRunning;
  si_unique : ∀ t1 t2, closers s !! t1 = Some InBody → closers s !! t2 = Some InBody →
              t1 = t2;
  si_open : closeOnce (lg s) ≠ OnceDone → no_close (ops s) ∧ h_returned s = [];
  si_closed : closeOnce (lg s) = OnceDone →
              wpc s = WExit ∧ tpc s = TExit ∧
              ∃ w, ops s = w ++ close_writers (writers (lg s)) ∧ no_close w
}.

(** The cached timestamp is the rendering of an instant at which [New] or
    [timestampLoop] read the clock; the tickers keep their periods. *)
Record ts_inv (t0 : Time) (s : System) : Prop := {
  ti_ts : ∃ t, t ∈ h_published s ∧ ts (lg s) = Format t layout;
  ti_period : tk_period (ttick s) = timestampInterval ∧ tk_period (wtick s) = flushInterval;
  ti_next : tk_next (ttick s) =
            unix_ms t0 + timestampInterval * Z.of_nat (length (h_published s));
  ti_clock : Forall (λ t, unix_ms t ≤ unix_ms (now s)) (h_published s);
  ti_sched : ∀ i t, h_published s !! i = Some t →
             unix_ms t0 + timestampInterval * Z.of_nat i ≤ unix_ms t
}.

(** Every record built has the shape [log] gives it. *)
Definition shape_inv (s : System) : Prop :=
  Forall (λ x : nat * bytes, ∃ stamp lvl msg, log_record stamp lvl msg = Some x.2)
         (h_issued s).

(** [s2] is later than [s1]: histories only grow. *)
Record later (s1 s2 : System) : Prop := {
  lt_enq : h_enq s1 `prefix_of` h_enq s2;
  lt_written : h_written s1 `prefix_of` h_written s2;
  lt_ops : ops s1 `prefix_of` ops s2;
  lt_mark_some : ∀ k, h_mark s1 = Some k → h_mark s2 = Some k;
  lt_mark_none : h_mark s1 = None → ∀ k, h_mark s2 = Some k → (length (h_enq s1) ≤ k)%nat;
  lt_writers : writers (lg s2) = writers (lg s1)
}.

(** All the invariants that do not mention the starting instant. *)
Record inv (s : System) : Prop := {
  inv_heap : heap_inv s;
  inv_shut : shut_inv s;
  inv_stream : stream_inv s;
  inv_loss : loss_inv s;
  inv_shape : shape_inv s
}.

(** The pool can serve the choice [pick]. *)
Definition pick_ok (pick : option nat) (s : System) : Prop :=
  match pick with
  | None => True
  | Some k => is_Some (bufPool (lg s) !! k)
  end.

(** No producer has called the clock or the time formatter. *)
Definition no_clock_calls (s : System) : Prop :=
  Forall (λ c : nat * Call, is_clock_call c.2 = false) (h_calls s).

(** Schedules in which [Sync] is not called, and schedules in which
    [SetLevel] is not called. *)
Definition is_sync (a : Action) : bool := match a with ASync => true | _ => false end.
Definition no_sync (acts : list Action) : Prop :=
  forallb (λ a, negb (is_sync a)) acts = true.

Definition is_set_level (a : Action) : bool :=
  match a with ASetLevel _ => true | _ => false end.
Definition no_set_level (acts : list Action) : Prop :=
  forallb (λ a, negb (is_set_level a)) acts = true.

(** A shutdown by thread [c] with [n] records in the channel: [Close] is
    entered, [timestampLoop] and [writerLoop] see [done], the writer takes
    a turn for each record and one more, then the body of [Close] runs. *)
Definition drain_shutdown (c n : nat) : list Action :=
  [AClose c; ATimestamp TDone; AWriter WDone] ++ replicate (S n) (AWriter WRecv) ++
  [ACloseBody c].

End Speedlog.

(** ** The two [package main] variants *)

(** [levelNames[level]] on the array: an index outside it panics
    ([None]). *)
Definition index_levelNames (lvl : Z) : option bytes :=
  if (0 <=? lvl) && (lvl <? Z.of_nat (length levelNames))
  then levelNames !! Z.to_nat lvl
  else None.

(** The record both variants build: the level name goes between square
    brackets. *)
Definition bracket_record (stamp : bytes) (lvl : Z) (msg : bytes) : option bytes :=
  name ← index_levelNames lvl;
  Some (((((stamp ++ B " [") ++ name) ++ B "] ") ++ msg) ++ [x0a]).

(** How a call of [log] ended. *)
Inductive Outcome :=
| Filtered          (* below the threshold *)
| Enqueued          (* sent into the channel *)
| DroppedClosing    (* the select took [<-l.done] *)
| DroppedFull       (* the select took [default]: channel full *)
| Written.          (* written and flushed by the caller (main.go) *)

(** *** src/unnamed/part_000: channel with a non-blocking send *)

Module Part000.

Definition layout : string := "2006-01-02 15:04:05".

Record Logger := mkLogger {
  level : Z;
  writers : list Writer;
  bufs : list bufioWriter;
  ch : Chan bytes;
  done : bool;
  wg : nat;
  bufPool : list bytes
}.

Definition set_level v l := mkLogger v (writers l) (bufs l) (ch l) (done l) (wg l) (bufPool l).
Definition set_bufs v l := mkLogger (level l) (writers l) v (ch l) (done l) (wg l) (bufPool l).
Definition set_ch v l := mkLogger (level l) (writers l) (bufs l) v (done l) (wg l) (bufPool l).
Definition set_done v l := mkLogger (level l) (writers l) (bufs l) (ch l) v (wg l) (bufPool l).
Definition set_wg v l := mkLogger (level l) (writers l) (bufs l) (ch l) (done l) v (bufPool l).
Definition set_bufPool v l := mkLogger (level l) (writers l) (bufs l) (ch l) (done l) (wg l) v.

(** [New(filePath)]; [opened] is what [os.OpenFile] gives ([None]: an
    error).  The result is [None] when [New] returns the error. *)
Definition New (filePath : string) (opened : option Writer) : option Logger :=
  let l := {| level := int32 INFO; writers := []; bufs := [];
              ch := make_chan 4096; done := false; wg := 2; bufPool := [] |} in
  if bool_decide (filePath = ""%string)
  then Some (mkLogger (level l) [Stdout] [NewWriterSize 4096] (ch l) (done l) (wg l) (bufPool l))
  else
    file ← opened;
    Some (mkLogger (level l) [Stdout; file] [NewWriterSize 4096; NewWriterSize 4096]
            (ch l) (done l) (wg l) (bufPool l)).

Definition SetLevel (lvl : Z) (l : Logger) : Logger :=
  if (lvl <? DEBUG) || (lvl >? ERROR) then l else set_level (int32 lvl) l.
Definition GetLevel (l : Logger) : Z := level l.
Definition IsLevelEnabled (lvl : Z) (l : Logger) : bool := lvl >=? level l.

(** [l.bufPool.Get()]: a pooled buffer ([Some k]) or a fresh one. *)
Definition pool_Get (pick : option nat) (l : Logger) : option (bytes * Logger) :=
  match pick with
  | None => Some ([], l)
  | Some k => b ← bufPool l !! k; Some (b, set_bufPool (delete k (bufPool l)) l)
  end.

(** [log]; [t] is what [time.Now()] returns, [first] resolves the select
    when both the send and [<-l.done] are ready.  The result carries the
    logger afterwards, how the call ended, and the library calls made. *)
Definition log (lvl : Z) (msg : bytes) (t : Time) (pick : option nat) (first : bool)
    (l : Logger) : Result (Logger * Outcome * list Call) :=
  if lvl <? level l then Ok (l, Filtered, [CLoadLevel]) else
  match pool_Get pick l with
  | None => Blocked
  | Some (_, l) =>
      match bracket_record (AppendFormat t [] layout) lvl msg with
      | None => Panic
      | Some buf =>
          let bufCopy := buf in
          let l := set_bufPool (bufPool l ++ [buf]) l in
          let calls := [CLoadLevel; CTimeNow; CPoolGet; CTimeFormat; CPoolPut] in
          if can_send (ch l) && (negb (done l) || first)
          then Ok (set_ch (chan_send bufCopy (ch l)) l, Enqueued, calls)
          else if done l then Ok (l, DroppedClosing, calls)
          else Ok (l, DroppedFull, calls)
      end
  end.

(** What [runWriter] does from [<-l.done] on: every queued line is
    written to every bufio writer, then all are flushed. *)
Fixpoint drain (lines : list bytes) (bs : list bufioWriter) : list bufioWriter * list SinkOp :=
  match lines with
  | [] => range_bufs bufio_Flush bs
  | line :: rest =>
      let '(bs1, o1) := range_bufs (bufio_Write line) bs in
      let '(bs2, o2) := drain rest bs1 in
      (bs2, o1 ++ o2)
  end.

(** [Close]: [close(l.done)] panics on a closed channel; [wg.Wait()]
    lets [runWriter] drain and both goroutines return; then flush and
    close the writers. *)
Definition Close (l : Logger) (ops : list SinkOp) : Result (Logger * list SinkOp) :=
  if done l then Panic else
  let l := set_done true l in
  let '(bs, o1) := drain (c_items (ch l)) (bufs l) in
  let l := set_wg 0 (set_ch (mkChan [] (c_cap (ch l))) (set_bufs bs l)) in
  let '(bs, o2) := range_bufs bufio_Flush (bufs l) in
  let l := set_bufs bs l in
  Ok (l, ops ++ o1 ++ o2 ++ close_writers (writers l)).

End Part000.

(** *** src/main.go: write and flush under a mutex *)

Module MainGo.

Definition layout : string := "2006-01-02 15:04:05".

Record Logger := mkLogger {
  level : Z;
  writers : list Writer;
  bufPool : list bytes;
  bufs : list bufioWriter
}.

Definition New (filePath : string) (opened : option Writer) : option Logger :=
  if bool_decide (filePath = ""%string)
  then Some {| level := INFO; writers := [Stdout]; bufPool := [];
               bufs := [NewWriterSize 4096] |}
  else
    file ← opened;
    Some {| level := INFO; writers := [Stdout; file]; bufPool := [];
            bufs := [NewWriterSize 4096; NewWriterSize 4096] |}.

Definition SetLevel (lvl : Z) (l : Logger) : Logger :=
  mkLogger lvl (writers l) (bufPool l) (bufs l).

(** [l.bufPool.Get()]: a pooled buffer ([Some k]) or a fresh one. *)
Definition pool_Get (pick : option nat) (l : Logger) : option (bytes * Logger) :=
  match pick with
  | None => Some ([], l)
  | Some k =>
      b ← bufPool l !! k;
      Some (b, mkLogger (level l) (writers l) (delete k (bufPool l)) (bufs l))
  end.

(** [log]: the record is written to every bufio writer and flushed before
    the call returns; [t] is what [time.Now()] returns. *)
Definition log (lvl : Z) (msg : bytes) (t : Time) (pick : option nat) (l : Logger)
    (ops : list SinkOp) : Result (Logger * list SinkOp * Outcome * list Call) :=
  if lvl <? level l then Ok (l, ops, Filtered, []) else
  match pool_Get pick l with
  | None => Blocked
  | Some (_, l) =>
      match bracket_record ([] ++ Format t layout) lvl msg with
      | None => Panic
      | Some buf =>
          let '(bs1, o1) := range_bufs (bufio_Write buf) (bufs l) in
          let '(bs2, o2) := range_bufs bufio_Flush bs1 in
          Ok (mkLogger (level l) (writers l) (bufPool l ++ [buf]) bs2, ops ++ o1 ++ o2,
              Written, [CPoolGet; CTimeNow; CTimeFormat; CLock; CUnlock; CPoolPut])
      end
  end.

(** [Close]: flush, then close the writers; the writers of the model never
    fail, so the result is always [nil]. *)
Definition Close (l : Logger) (ops : list SinkOp) : Logger * list SinkOp :=
  let '(bs, o) := range_bufs bufio_Flush (bufs l) in
  (mkLogger (level l) (writers l) (bufPool l) bs, ops ++ o ++ close_writers (writers l)).

End MainGo.

(** ** More of the three files *)

(** *** Package speedlog: the default instance, the level methods, and
    further invariants *)

Module SpeedlogAPI.

Import Speedlog.

(** [std = New(WithWriter(os.Stdout))], made by [init]. *)
Definition std (t0 : Time) : System := New [WithWriter (Some Stdout)] t0.

(** The level methods; the package functions of the same names are the
    same calls on [std]. *)
Definition Debug (tid : nat) (msg : bytes) (pick : option nat) (s : System) :=
  log tid DEBUG msg pick s.
Definition Debugf (tid : nat) (msg : bytes) (pick : option nat) (s : System) :=
  logf tid DEBUG msg pick s.
Definition Print (tid : nat) (msg : bytes) (pick : option nat) (s : System) :=
  log tid INFO msg pick s.
Definition Printf (tid : nat) (msg : bytes) (pick : option nat) (s : System) :=
  logf tid INFO msg pick s.
Definition Warn (tid : nat) (msg : bytes) (pick : option nat) (s : System) :=
  log tid WARN msg pick s.
Definition Warnf (tid : nat) (msg : bytes) (pick : option nat) (s : System) :=
  logf tid WARN msg pick s.
Definition Error (tid : nat) (msg : bytes) (pick : option nat) (s : System) :=
  log tid ERROR msg pick s.
Definition Errorf (tid : nat) (msg : bytes) (pick : option nat) (s : System) :=
  logf tid ERROR msg pick s.

(** What a level method [f] and its formatting twin [ff] do for the
    level [lvl] named [name]: below the threshold only the threshold is
    loaded; otherwise both leave the same record with the producer. *)
Definition method_spec (f ff : nat → bytes → option nat → System → Result System)
    (lvl : Z) (name : string) (tid : nat) (msg : bytes) (pick : option nat)
    (s : System) : Prop :=
  let r := ts (lg s) ++ B " " ++ B name ++ B " " ++ msg ++ [x0a] in
  if bool_decide (level (lg s) ≤ lvl)
  then ∃ s1 s2 a, f tid msg pick s = Ok s1 ∧ ff tid msg pick s = Ok s2 ∧
                  senders s1 !! tid = Some (a, r) ∧ senders s2 !! tid = Some (a, r) ∧
                  h_issued s1 = h_issued s ++ [(tid, r)] ∧
                  h_issued s2 = h_issued s ++ [(tid, r)]
  else f tid msg pick s = Ok (note tid CLoadLevel s) ∧
       ff tid msg pick s = Ok (note tid CLoadLevel s).

(** The capacity and the threshold the options ask for: the last
    [WithChannelSize] with a positive size and the last [WithLevel] count;
    without one the capacity is 1024 and the threshold INFO. *)
Definition chosen_size (opts : list Option) : Z :=
  default 1024
    (last (omap (λ o, match o with
                      | WithChannelSize n => if 0 <? n then Some n else None
                      | _ => None
                      end) opts)).
Definition chosen_level (opts : list Option) : Z :=
  default INFO (last (omap (λ o, match o with WithLevel lvl => Some lvl | _ => None end) opts)).

(** The writers the options name, nil writers left out. *)
Definition given_writers (opts : list Option) : list Writer :=
  omap (λ o, match o with WithWriter w => w | _ => None end) opts.

(** What [New] fixed stays fixed. *)
Record config_inv (s0 s : System) : Prop := {
  ci_writers : writers (lg s) = writers (lg s0);
  ci_cap : c_cap (ch (lg s)) = c_cap (ch (lg s0));
  ci_len : length (bufs (lg s)) = length (writers (lg s));
  ci_size : Forall (λ bw, bw_size bw = 64 * 1024) (bufs (lg s));
  ci_fill : Forall (λ bw, Buffered bw ≤ bw_size bw) (bufs (lg s))
}.

(** The channel never holds more than its capacity. *)
Definition bounded (s : System) : Prop :=
  Z.of_nat (length (c_items (ch (lg s)))) ≤ c_cap (ch (lg s)).

(** The cached timestamp renders the last instant published; the instants
    published are in time order and not after the clock. *)
Record ts_latest (s : System) : Prop := {
  tl_last : ∃ pre t, h_published s = pre ++ [t] ∧ ts (lg s) = Format t layout;
  tl_sorted : ∀ i j ti tj, (i ≤ j)%nat → h_published s !! i = Some ti →
              h_published s !! j = Some tj → unix_ms ti ≤ unix_ms tj;
  tl_clock : Forall (λ t, unix_ms t ≤ unix_ms (now s)) (h_published s)
}.

End SpeedlogAPI.

(** *** part_000: the level methods and the logger at work *)

Module Part000API.

Import Part000.

Definition Debug (msg : bytes) (t : Time) (pick : option nat) (first : bool) (l : Logger) :=
  log DEBUG msg t pick first l.
Definition Print (msg : bytes) (t : Time) (pick : option nat) (first : bool) (l : Logger) :=
  log INFO msg t pick first l.
Definition Warn (msg : bytes) (t : Time) (pick : option nat) (first : bool) (l : Logger) :=
  log WARN msg t pick first l.
Definition Error (msg : bytes) (t : Time) (pick : option nat) (first : bool) (l : Logger) :=
  log ERROR msg t pick first l.

(** One turn of [runWriter] while [done] is open: a line is received and
    written to every bufio writer.  [None]: nothing to receive. *)
Definition runWriter_recv (l : Logger) (ops : list SinkOp) : option (Logger * list SinkOp) :=
  '(buf, c) ← chan_recv (ch l);
  let r := range_bufs (bufio_Write buf) (bufs l) in
  Some (set_bufs r.1 (set_ch c l), ops ++ r.2).

(** The logger at work, before [Close], before the first tick of
    [autoFlush] (two seconds after [New]) and with no call of [Sync]: the
    calls of [log] and of [SetLevel] and the turns of [runWriter], one at
    a time.  [autoFlush] and [Sync] flush the bufio writers that
    [runWriter] writes, from another goroutine and with no lock; what such
    an overlap does is not modelled, so neither is an action here.
    [sent] lists the records that entered the channel. *)
Inductive Action :=
| ALog (lvl : Z) (msg : bytes) (t : Time) (pick : option nat) (first : bool)
| ARecv
| ASetLevel (lvl : Z).

Record System := mkSystem { lg : Logger; ops : list SinkOp; sent : list bytes }.

Definition start (l : Logger) : System := {| lg := l; ops := []; sent := [] |}.

(** A step that cannot happen (nothing to receive, no such pooled
    buffer) leaves the state as it is; a panic ends the run. *)
Definition step (a : Action) (s : System) : Result System :=
  match a with
  | ALog lvl msg t pick first =>
      match log lvl msg t pick first (lg s) with
      | Ok (l, o, _) =>
          Ok {| lg := l; ops := ops s;
                sent := if o is Enqueued
                        then sent s ++ [default [] (last (c_items (ch l)))]
                        else sent s |}
      | Blocked => Ok s
      | Panic => Panic
      end
  | ARecv =>
      match runWriter_recv (lg s) (ops s) with
      | Some (l, o) => Ok {| lg := l; ops := o; sent := sent s |}
      | None => Ok s
      end
  | ASetLevel lvl => Ok {| lg := SetLevel lvl (lg s); ops := ops s; sent := sent s |}
  end.

Fixpoint run (acts : list Action) (s : System) : Result System :=
  match acts with
  | [] => Ok s
  | a :: rest => match step a s with Ok s' => run rest s' | r => r end
  end.

(** The levels of the level methods. *)
Definition method_level (a : Action) : Prop :=
  match a with ALog lvl _ _ _ _ => DEBUG ≤ lvl ≤ ERROR | _ => True end.

(** Schedules in which [SetLevel] is not called. *)
Definition is_set_level (a : Action) : bool :=
  match a with ASetLevel _ => true | _ => false end.
Definition no_set_level (acts : list Action) : Prop :=
  forallb (λ a, negb (is_set_level a)) acts = true.

(** What holds of the logger at work. *)
Record work_inv (s : System) : Prop := {
  wi_stream : ∀ i bw, bufs (lg s) !! i = Some bw →
              sink_out i (ops s) ++ bw_buf bw ++ concat (c_items (ch (lg s))) =
              concat (sent s);
  wi_no_close : no_close (ops s);
  wi_bound : Z.of_nat (length (c_items (ch (lg s)))) ≤ c_cap (ch (lg s));
  wi_cap : c_cap (ch (lg s)) = 4096;
  wi_open : done (lg s) = false;
  wi_level : DEBUG ≤ level (lg s) ≤ ERROR;
  wi_bufs : length (bufs (lg s)) = length (writers (lg s))
}.

(** The threshold is one of the four levels. *)
Definition level_ok (l : Logger) : Prop := DEBUG ≤ level l ≤ ERROR.

(** The pool can serve the choice [pick]. *)
Definition pick_ok (pick : option nat) (l : Logger) : Prop :=
  match pick with
  | None => True
  | Some k => is_Some (bufPool l !! k)
  end.

End Part000API.

(** *** main.go: the level methods *)

Module MainGoAPI.

Import MainGo.

Definition Debug (msg : bytes) (t : Time) (pick : option nat) (l : Logger)
    (ops : list SinkOp) := log DEBUG msg t pick l ops.
Definition Print (msg : bytes) (t : Time) (pick : option nat) (l : Logger)
    (ops : list SinkOp) := log INFO msg t pick l ops.
Definition Warn (msg : bytes) (t : Time) (pick : option nat) (l : Logger)
    (ops : list SinkOp) := log WARN msg t pick l ops.
Definition Error (msg : bytes) (t : Time) (pick : option nat) (l : Logger)
    (ops : list SinkOp) := log ERROR msg t pick l ops.

Definition pick_ok (pick : option nat) (l : Logger) : Prop :=
  match pick with
  | None => True
  | Some k => is_Some (bufPool l !! k)
  end.

End MainGoAPI.

(** ** Sample values *)

Definition clock_at (ms : Z) (long short : string) : Time :=
  {| unix_ms := ms;
     Format := λ l, if String.eqb l Speedlog.layout then B long else B short |}.

Definition T0 : Time := clock_at 0 "2024-05-01 10:00:00.000" "2024-05-01 10:00:00".
Definition T1 : Time := clock_at 100 "2024-05-01 10:00:00.100" "2024-05-01 10:00:00".

Definition T5 : Time := clock_at 500 "2024-05-01 10:00:00.500" "2024-05-01 10:00:00".

(** Two records from one producer, both received by the writer, then the
    flush tick of [writerLoop] after 500 ms. *)
Definition two_records_flushed : list Speedlog.Action :=
  [Speedlog.ALog 1 INFO (B "a") None; Speedlog.ASelect 1 true;
   Speedlog.ALog 1 INFO (B "b") None; Speedlog.ASelect 1 true;
   Speedlog.AWriter Speedlog.WRecv; Speedlog.AWriter Speedlog.WRecv;
   Speedlog.AClock T5; Speedlog.AWriter Speedlog.WTick].

(** A graceful shutdown by thread [c] of a system with nothing queued:
    [Close] is entered, both goroutines see [done] and return, the body
    runs. *)
Definition shutdown (c : nat) : list Speedlog.Action :=
  [Speedlog.AClose c; Speedlog.AWriter Speedlog.WDone; Speedlog.AWriter Speedlog.WRecv;
   Speedlog.ATimestamp Speedlog.TDone; Speedlog.ACloseBody c].

(** Two in-memory sinks, the second one closable; capacity 8. *)
Definition two_sinks : list Speedlog.Option :=
  [Speedlog.WithWriter (Some (mkWriter false)); Speedlog.WithWriter (Some (mkWriter true));
   Speedlog.WithChannelSize 8].

(** [n] calls of [log] at level INFO on the channel variant, nobody
    receiving. *)
Definition part000_log_times (n : nat) (l : Part000.Logger) : Part000.Logger :=
  Nat.iter n (λ l, match Part000.log INFO (B "x") T0 None true l with
                   | Ok (l', _, _) => l'
                   | _ => l
                   end) l.

(** On the channel variant: a call below the threshold WARN, a call above
    it, and a turn of [runWriter]. *)
Definition part000_two_calls : list Part000API.Action :=
  [Part000API.ALog INFO (B "i") T0 None true; Part000API.ALog ERROR (B "e") T0 None true;
   Part000API.ARecv].

(** What [New("")] gives in the two [package main] variants. *)
Definition part000_default : Part000.Logger :=
  {| Part000.level := 1; Part000.writers := [Stdout];
     Part000.bufs := [NewWriterSize 4096]; Part000.ch := make_chan 4096;
     Part000.done := false; Part000.wg := 2; Part000.bufPool := [] |}.

Definition maingo_default : MainGo.Logger :=
  {| MainGo.level := 1; MainGo.writers := [Stdout]; MainGo.bufPool := [];
     MainGo.bufs := [NewWriterSize 4096] |}.

(** The end-to-end run of the specification: two sinks, capacity 8, five
    INFO records from one producer, then a graceful shutdown. *)
Definition five_records : list Speedlog.Action :=
  [Speedlog.ALog 1 INFO (B "m1") None; Speedlog.ASelect 1 true;
   Speedlog.ALog 1 INFO (B "m2") None; Speedlog.ASelect 1 true;
   Speedlog.AWriter Speedlog.WRecv;
   Speedlog.ALog 1 INFO (B "m3") (Some 0%nat); Speedlog.ASelect 1 true;
   Speedlog.ALog 1 INFO (B "m4") None; Speedlog.ASelect 1 true;
   Speedlog.ALog 1 INFO (B "m5") None; Speedlog.ASelect 1 true;
   Speedlog.AClose 9; Speedlog.AWriter Speedlog.WDone;
   Speedlog.AWriter Speedlog.WRecv; Speedlog.AWriter Speedlog.WRecv;
   Speedlog.AWriter Speedlog.WRecv; Speedlog.AWriter Speedlog.WRecv;
   Speedlog.AWriter Speedlog.WRecv;
   Speedlog.ATimestamp Speedlog.TDone; Speedlog.ACloseBody 9].

(** [set_level(WARN)], [log(INFO, "x")], [log(ERROR, "y")], shutdown. *)
Definition warn_scenario : list Speedlog.Action :=
  [Speedlog.ASetLevel WARN;
   Speedlog.ALog 1 INFO (B "x") None; Speedlog.ASelect 1 true;
   Speedlog.ALog 1 ERROR (B "y") None; Speedlog.ASelect 1 true;
   Speedlog.AClose 9; Speedlog.AWriter Speedlog.WDone;
   Speedlog.AWriter Speedlog.WRecv; Speedlog.AWriter Speedlog.WRecv;
   Speedlog.ATimestamp Speedlog.TDone; Speedlog.ACloseBody 9].

(** * Facts *)

(** ** bufio writers and the calls reaching the sinks *)

Section Bufio.

Implicit Types (bw : bufioWriter) (p : bytes) (o : list SinkOp).

Lemma bufio_Write_stream p bw :
  concat (bufio_Write p bw).2 ++ bw_buf (bufio_Write p bw).1 = bw_buf bw ++ p.
Proof.
  unfold bufio_Write.
  destruct (Z.of_nat (length p) <=? Available bw); [done|].
  destruct (Buffered bw =? 0) eqn:Hb.
  - apply Z.eqb_eq in Hb. unfold Buffered in Hb.
    simpl. destruct (bw_buf bw); [by rewrite !app_nil_r | simpl in Hb; lia].
  - destruct (_ <=? bw_size bw); simpl;
      rewrite ?app_nil_r, <- ?app_assoc, ?take_drop; done.
Qed.

Lemma bufio_Flush_stream bw :
  concat (bufio_Flush bw).2 ++ bw_buf (bufio_Flush bw).1 = bw_buf bw.
Proof. unfold bufio_Flush. destruct (bw_buf bw) eqn:E; simpl; [done|]. by rewrite !app_nil_r. Qed.

Lemma bufio_Flush_empty bw : bw_buf (bufio_Flush bw).1 = [].
Proof. unfold bufio_Flush. by destruct (bw_buf bw) eqn:E. Qed.

Lemma bufio_Flush_idle bw : bw_buf bw = [] → bufio_Flush bw = (bw, []).
Proof. unfold bufio_Flush. by intros ->. Qed.

Lemma sink_out_app i o1 o2 : sink_out i (o1 ++ o2) = sink_out i o1 ++ sink_out i o2.
Proof. apply bind_app. Qed.

Lemma sink_closes_app i o1 o2 :
  sink_closes i (o1 ++ o2) = (sink_closes i o1 + sink_closes i o2)%nat.
Proof. unfold sink_closes. by rewrite filter_app, length_app. Qed.

Lemma no_close_app o1 o2 : no_close (o1 ++ o2) ↔ no_close o1 ∧ no_close o2.
Proof. apply Forall_app. Qed.

Lemma no_close_closes i o : no_close o → sink_closes i o = 0%nat.
Proof.
  unfold sink_closes. induction 1 as [|x o Hx _ IH]; [done|].
  rewrite filter_cons. destruct (decide _) as [Hd|Hd]; [|done].
  destruct x; simpl in *; done.
Qed.

Lemma sink_closes_one i k (b : bool) :
  sink_closes i (if b then [OpClose k] else []) =
  if bool_decide (k = i) then (if b then 1 else 0)%nat else 0%nat.
Proof.
  unfold sink_closes. destruct b; [|by destruct (bool_decide _)].
  rewrite filter_cons. destruct (decide _) as [Hd|Hd]; simpl in Hd.
  - by rewrite bool_decide_eq_true_2 by (by apply bool_decide_unpack in Hd).
  - case_bool_decide; [|done]. exfalso. by apply Hd.
Qed.

Lemma sink_out_writes i j (chunks : list bytes) :
  sink_out i (OpWrite j <$> chunks) = if bool_decide (j = i) then concat chunks else [].
Proof.
  induction chunks as [|c cs IH].
  - by destruct (bool_decide _).
  - rewrite fmap_cons. change (sink_out i (OpWrite j c :: (OpWrite j <$> cs)))
      with (payload_of i (OpWrite j c) ++ sink_out i (OpWrite j <$> cs)).
    rewrite IH. simpl. destruct (bool_decide _); [done | by rewrite app_nil_r].
Qed.

(** What the loop over the bufio writers sends to sink [i], the loop
    starting at position [k]. *)
Lemma sink_out_range_from (g : bufioWriter → list bytes) bs k i :
  sink_out i (concat (imap (λ j bw, OpWrite (k + j) <$> g bw) bs)) =
  if bool_decide (k ≤ i)%nat
  then match bs !! (i - k)%nat with Some bw => concat (g bw) | None => [] end
  else [].
Proof.
  revert k. induction bs as [|b bs IH]; intros k.
  - simpl. by destruct (bool_decide _).
  - rewrite imap_cons. simpl. rewrite sink_out_app, sink_out_writes.
    rewrite (imap_ext _ (λ j bw, OpWrite (S k + j) <$> g bw)); last first.
    { intros j x _. simpl. by rewrite Nat.add_succ_r. }
    rewrite IH, Nat.add_0_r.
    repeat case_bool_decide; try lia.
    + replace (i - k)%nat with 0%nat by lia. simpl. by rewrite app_nil_r.
    + replace (i - k)%nat with (S (i - S k)) by lia. done.
    + done.
Qed.

Lemma sink_out_range f bs i :
  sink_out i (range_bufs f bs).2 =
  match bs !! i with Some bw => concat (f bw).2 | None => [] end.
Proof.
  unfold range_bufs. simpl.
  etrans; [apply (sink_out_range_from (λ bw, (f bw).2) bs 0 i)|].
  rewrite bool_decide_eq_true_2 by lia. by rewrite Nat.sub_0_r.
Qed.

Lemma range_bufs_lookup f bs i :
  (range_bufs f bs).1 !! i = (λ bw, (f bw).1) <$> bs !! i.
Proof. unfold range_bufs. simpl. apply list_lookup_fmap. Qed.

Lemma range_bufs_length f bs : length (range_bufs f bs).1 = length bs.
Proof. unfold range_bufs. simpl. apply length_fmap. Qed.

Lemma range_bufs_no_close f bs : no_close (range_bufs f bs).2.
Proof.
  unfold range_bufs, no_close. simpl. apply Forall_concat, Forall_forall.
  intros l [j [bw [-> _]]]%elem_of_lookup_imap.
  apply Forall_fmap, Forall_forall. done.
Qed.

Lemma concat_imap_nil {A C} (f : nat → A → list C) (l : list A) :
  (∀ i x, l !! i = Some x → f i x = []) → concat (imap f l) = [].
Proof.
  revert f. induction l as [|a l IH]; intros f H; [done|].
  rewrite imap_cons. simpl. rewrite (H 0%nat a) by done.
  apply IH. intros i x Hi. apply (H (S i)). done.
Qed.

(** Flushing writers that hold nothing changes nothing and reaches no sink. *)
Lemma range_bufs_Flush_idle bs :
  Forall (λ bw, bw_buf bw = []) bs → range_bufs bufio_Flush bs = (bs, []).
Proof.
  intros H. unfold range_bufs. f_equal.
  - rewrite <- (list_fmap_id bs) at 2. apply Forall_fmap_ext_1.
    eapply Forall_impl; [exact H|]. intros bw Hb. simpl. by rewrite bufio_Flush_idle.
  - apply concat_imap_nil. intros i bw Hi.
    rewrite bufio_Flush_idle; [done|].
    rewrite Forall_forall in H. apply H. by eapply list_elem_of_lookup_2.
Qed.

Lemma range_bufs_Flush_empty bs :
  Forall (λ bw, bw_buf bw = []) (range_bufs bufio_Flush bs).1.
Proof.
  unfold range_bufs. simpl. apply Forall_fmap, Forall_forall.
  intros bw _. apply bufio_Flush_empty.
Qed.

(** The closing loop: one [Close] for each position that has a closer. *)
Lemma sink_closes_close_from ws k i :
  sink_closes i (concat (imap (λ j w, if w_closer w then [OpClose (k + j)] else []) ws)) =
  if bool_decide (k ≤ i)%nat
  then match ws !! (i - k)%nat with
       | Some w => if w_closer w then 1%nat else 0%nat
       | None => 0%nat
       end
  else 0%nat.
Proof.
  revert k. induction ws as [|w ws IH]; intros k.
  - simpl. by destruct (bool_decide _).
  - rewrite imap_cons. simpl. rewrite sink_closes_app.
    rewrite (imap_ext _ (λ j w, if w_closer w then [OpClose (S k + j)] else [])); last first.
    { intros j x _. simpl. by rewrite Nat.add_succ_r. }
    rewrite IH, Nat.add_0_r.
    rewrite sink_closes_one.
    repeat case_bool_decide; try lia.
    + replace (i - k)%nat with 0%nat by lia. simpl. lia.
    + replace (i - k)%nat with (S (i - S k)) by lia. done.
Qed.

Lemma sink_closes_close_writers ws i :
  sink_closes i (close_writers ws) =
  match ws !! i with
  | Some w => if w_closer w then 1%nat else 0%nat
  | None => 0%nat
  end.
Proof.
  unfold close_writers.
  etrans; [apply (sink_closes_close_from ws 0 i)|].
  rewrite bool_decide_eq_true_2 by lia. by rewrite Nat.sub_0_r.
Qed.

Lemma sink_out_no_write o i :
  Forall (λ x, is_close x = true) o → sink_out i o = [].
Proof.
  induction 1 as [|x o Hx _ IH]; [done|].
  change (sink_out i (x :: o)) with (payload_of i x ++ sink_out i o).
  rewrite IH. by destruct x.
Qed.

Lemma sink_out_close_writers ws i : sink_out i (close_writers ws) = [].
Proof.
  apply sink_out_no_write. unfold close_writers.
  apply Forall_concat, Forall_forall.
  intros l [j [w [-> _]]]%elem_of_lookup_imap.
  destruct (w_closer w); by repeat constructor.
Qed.

End Bufio.

(** ** Package speedlog: the steps of the system *)

Section SpeedlogFacts.

Import Speedlog SpeedlogAPI.

(** Projections of an updated state, computed without unfolding more. *)
Ltac sys_eval :=
  unfold owned, pending_bufs, pending, queued_ok, write_line, flushAll in *;
  cbn beta iota zeta delta
    [lg heap now ops senders closers wpc wtick tpc ttick h_calls h_issued h_enq h_discarded
     h_written h_mark h_returned h_published level writers bufs ch bufPool done wg closeOnce ts
     c_items c_cap
     note note_issued note_enq note_discarded note_written note_returned
     note_published set_mark set_heap set_now add_ops set_senders set_closers
     set_wpc set_wtick set_tpc set_ttick pool_Put on_lg
     set_level set_writers set_bufs set_ch set_bufPool set_done set_wg
     set_closeOnce set_ts SetLevel chan_send IsLevelEnabled] in *.

Lemma pool_Get_Some pick s a s1 :
  pool_Get pick s = Some (a, s1) →
  (pick = None ∧ a = length (heap s) ∧ s1 = set_heap (heap s ++ [[]]) s) ∨
  (∃ k, pick = Some k ∧ bufPool (lg s) !! k = Some a ∧
        s1 = on_lg (set_bufPool (delete k (bufPool (lg s)))) s).
Proof.
  unfold pool_Get. destruct pick as [k|]; intros H.
  - right. exists k. destruct (bufPool (lg s) !! k) eqn:E; simplify_eq/=. done.
  - left. by simplify_eq.
Qed.

Lemma recv_line_Some s s' :
  recv_line s = Some s' →
  ∃ a rest, c_items (ch (lg s)) = a :: rest ∧
            s' = write_line a (on_lg (set_ch (mkChan rest (c_cap (ch (lg s))))) s).
Proof.
  unfold recv_line, chan_recv. destruct (c_items (ch (lg s))) as [|a rest]; intros H;
    simplify_eq/=. eauto.
Qed.

Lemma recv_line_None s : recv_line s = None → c_items (ch (lg s)) = [].
Proof.
  unfold recv_line, chan_recv. by destruct (c_items (ch (lg s))).
Qed.

Lemma not_busy tid s :
  busy tid s = false → senders s !! tid = None ∧ closers s !! tid = None.
Proof.
  unfold busy. intros [H1 H2]%orb_false_iff.
  apply bool_decide_eq_false in H1, H2.
  split; apply eq_None_not_Some; done.
Qed.

(** Splits [step a s = Ok s'] into the ways the step can happen. *)
Ltac step_cases H :=
  unfold step, logf, log, log_select, writerLoop, timestampLoop, Close, Close_body,
    Close_return, Sync in H;
  repeat (first [ progress simplify_eq | case_match ]);
  repeat match goal with
  | H : pool_Get _ _ = Some _ |- _ =>
      apply pool_Get_Some in H; destruct H as [(-> & -> & ->)|(? & -> & ? & ->)]
  | H : recv_line _ = Some _ |- _ =>
      apply recv_line_Some in H; destruct H as (? & ? & ? & ->)
  | H : busy _ _ = false |- _ => apply not_busy in H; destruct H as [? ?]
  end.

(** ** Ownership of buffers *)

Lemma bufs_of_insert (m : gmap nat (nat * bytes)) tid a r :
  m !! tid = None →
  (λ x, x.2.1) <$> map_to_list (<[tid:=(a, r)]> m) ≡ₚ a :: ((λ x, x.2.1) <$> map_to_list m).
Proof. intros H. by rewrite map_to_list_insert. Qed.

Lemma bufs_of_delete (m : gmap nat (nat * bytes)) tid a r :
  m !! tid = Some (a, r) →
  a :: ((λ x, x.2.1) <$> map_to_list (delete tid m)) ≡ₚ (λ x, x.2.1) <$> map_to_list m.
Proof. intros H. by rewrite <- (map_to_list_delete m tid (a, r)). Qed.

(** Closes a goal on a list with a hypothesis on a permutation of it. *)
Ltac perm_from H :=
  match goal with
  | |- ?F ?L' =>
      match type of H with
      | ?G ?L =>
          let Hp := fresh in
          assert (Hp : L' ≡ₚ L) by solve_Permutation; rewrite Hp; exact H
      end
  end.

Lemma sender_owned s tid a r :
  senders s !! tid = Some (a, r) → a ∈ pending_bufs s.
Proof.
  intros H. unfold pending_bufs. apply list_elem_of_fmap.
  exists (tid, (a, r)). split; [done|]. by apply elem_of_map_to_list.
Qed.

(** A state that differs from [s] only outside the heap, the channel, the
    pool and the senders. *)
Lemma heap_inv_frame s s' :
  heap s' = heap s → c_items (ch (lg s')) = c_items (ch (lg s)) →
  bufPool (lg s') = bufPool (lg s) → senders s' = senders s →
  h_enq s' = h_enq s → h_written s' = h_written s →
  heap_inv s → heap_inv s'.
Proof.
  intros Hh Hc Hp Hs He Hw [Hnd Hbd Hsn Hff].
  split; unfold owned, pending_bufs, queued_ok in *; rewrite ?Hh, ?Hc, ?Hp, ?Hs, ?He, ?Hw; done.
Qed.

(** [log] takes a buffer [a] that nobody holds and writes the record. *)
Lemma heap_inv_issue s s' tid a r hp pool :
  heap s' = <[a:=r]> hp → c_items (ch (lg s')) = c_items (ch (lg s)) →
  bufPool (lg s') = pool → senders s' = <[tid:=(a, r)]> (senders s) →
  h_enq s' = h_enq s → h_written s' = h_written s →
  senders s !! tid = None →
  (hp = heap s ++ [[]] ∧ a = length (heap s) ∧ pool = bufPool (lg s) ∨
   hp = heap s ∧ ∃ k, bufPool (lg s) !! k = Some a ∧ pool = delete k (bufPool (lg s))) →
  heap_inv s → heap_inv s'.
Proof.
  intros Hh Hc Hp Hs He Hw Hfree Hcase [Hnd Hbd Hsn Hff].
  unfold owned, pending_bufs, queued_ok in *.
  assert (Hlen : (length (heap s) ≤ length hp)%nat ∧ (a < length hp)%nat ∧
                 ∀ b, (b < length (heap s))%nat → b ≠ a → hp !! b = heap s !! b).
  { destruct Hcase as [(-> & -> & _)|(-> & k & Hk & _)].
    - rewrite length_app. simpl. split_and!; [lia..|].
      intros b Hb _. by rewrite lookup_app_l.
    - split_and!; [lia| |done].
      rewrite Forall_forall in Hbd. apply Hbd.
      apply elem_of_app. right. apply elem_of_app. left.
      by eapply list_elem_of_lookup_2. }
  destruct Hlen as (Hlen & Ha & Hsame).
  assert (Hperm : c_items (ch (lg s)) ++ pool ++
                  ((λ x, x.2.1) <$> map_to_list (<[tid:=(a, r)]> (senders s)))
                  ≡ₚ (if bool_decide (a = length (heap s)) then [a] else []) ++
                     c_items (ch (lg s)) ++ bufPool (lg s) ++
                     ((λ x, x.2.1) <$> map_to_list (senders s)) ∧
                  (bool_decide (a = length (heap s)) = false →
                   a ∈ bufPool (lg s))).
  { rewrite bufs_of_insert by done.
    destruct Hcase as [(_ & -> & ->)|(_ & k & Hk & ->)].
    - rewrite bool_decide_eq_true_2 by done. split; [solve_Permutation|done].
    - assert (a ∈ bufPool (lg s)) by (by eapply list_elem_of_lookup_2).
      assert (a < length (heap s))%nat.
      { rewrite Forall_forall in Hbd. apply Hbd. rewrite !elem_of_app. auto. }
      rewrite bool_decide_eq_false_2 by lia. split; [|done]. simpl.
      rewrite (delete_Permutation (bufPool (lg s)) k a) at 2 by done.
      solve_Permutation. }
  destruct Hperm as [Hperm Hin].
  assert (Hother : ∀ b, b ∈ c_items (ch (lg s)) ++
                        ((λ x, x.2.1) <$> map_to_list (senders s)) →
                        (b < length (heap s))%nat ∧ b ≠ a).
  { intros b Hb. rewrite Forall_forall in Hbd.
    assert (b ∈ c_items (ch (lg s)) ++ bufPool (lg s) ++
                ((λ x, x.2.1) <$> map_to_list (senders s))) as Hb'.
    { revert Hb. rewrite !elem_of_app. tauto. }
    split; [by apply Hbd|].
    intros ->. case_bool_decide as Hd.
    - apply Hbd in Hb'. lia.
    - specialize (Hin eq_refl).
      apply elem_of_app in Hb as [Hb|Hb].
      + apply NoDup_app in Hnd as (_ & Hnd & _). apply (Hnd a Hb).
        apply elem_of_app. by left.
      + apply NoDup_app in Hnd as (_ & _ & Hnd).
        apply NoDup_app in Hnd as (_ & Hnd & _). by apply (Hnd a Hin). }
  split; unfold owned, pending_bufs, queued_ok; rewrite ?Hh, ?Hc, ?Hp, ?Hs, ?He, ?Hw.
  - rewrite Hperm. case_bool_decide as Hd; [|done]. simpl.
    apply NoDup_cons. split; [|done]. intros Hx.
    rewrite Forall_forall in Hbd. apply Hbd in Hx. lia.
  - rewrite Hperm, length_insert. apply Forall_app. split.
    + case_bool_decide; [|done]. by repeat constructor.
    + eapply Forall_impl; [exact Hbd|]. simpl. lia.
  - intros tid' a' r' Hl. destruct (decide (tid' = tid)) as [->|Hne].
    + rewrite lookup_insert_eq in Hl. simplify_eq.
      by apply list_lookup_insert_eq.
    + rewrite lookup_insert_ne in Hl by done.
      destruct (Hother a') as [Hb Hna].
      { apply elem_of_app. right. by eapply (sender_owned s). }
      rewrite list_lookup_insert_ne by done. rewrite Hsame by done. eauto.
  - destruct Hff as (wr & qd & E1 & E2 & Hq). exists wr, qd. split_and!; [done..|].
    apply Forall2_same_length_lookup. apply Forall2_same_length_lookup in Hq as [Hl Hq].
    split; [done|]. intros i a' x Hi Hx.
    destruct (Hother a') as [Hb Hna].
    { apply elem_of_app. left. by eapply list_elem_of_lookup_2. }
    rewrite list_lookup_insert_ne by done. rewrite Hsame by done. eauto.
Qed.

(** The select sends buffer [a]. *)
Lemma heap_inv_send s s' tid a r :
  heap s' = heap s → c_items (ch (lg s')) = c_items (ch (lg s)) ++ [a] →
  bufPool (lg s') = bufPool (lg s) → senders s' = delete tid (senders s) →
  h_enq s' = h_enq s ++ [(tid, r)] → h_written s' = h_written s →
  senders s !! tid = Some (a, r) →
  heap_inv s → heap_inv s'.
Proof.
  intros Hh Hc Hp Hs He Hw Hsnd [Hnd Hbd Hsn Hff].
  unfold owned, pending_bufs, queued_ok in *.
  pose proof (bufs_of_delete _ _ _ _ Hsnd) as Hperm.
  split; unfold owned, pending_bufs, queued_ok; rewrite ?Hh, ?Hc, ?Hp, ?Hs, ?He, ?Hw.
  - rewrite <- Hperm in Hnd. perm_from Hnd.
  - rewrite <- Hperm in Hbd. perm_from Hbd.
  - intros tid' a' r' Hl. apply lookup_delete_Some in Hl as [_ Hl]. eauto.
  - destruct Hff as (wr & qd & E1 & E2 & Hq).
    exists wr, (qd ++ [(tid, r)]). split_and!; [by rewrite E1, app_assoc|done|].
    apply Forall2_app; [done|]. repeat constructor. simpl. eauto.
Qed.

(** The select gives the record up and puts the buffer back. *)
Lemma heap_inv_discard s s' tid a r :
  heap s' = heap s → c_items (ch (lg s')) = c_items (ch (lg s)) →
  bufPool (lg s') = bufPool (lg s) ++ [a] → senders s' = delete tid (senders s) →
  h_enq s' = h_enq s → h_written s' = h_written s →
  senders s !! tid = Some (a, r) →
  heap_inv s → heap_inv s'.
Proof.
  intros Hh Hc Hp Hs He Hw Hsnd [Hnd Hbd Hsn Hff].
  unfold owned, pending_bufs, queued_ok in *.
  pose proof (bufs_of_delete _ _ _ _ Hsnd) as Hperm.
  split; unfold owned, pending_bufs, queued_ok; rewrite ?Hh, ?Hc, ?Hp, ?Hs, ?He, ?Hw.
  - rewrite <- Hperm in Hnd. perm_from Hnd.
  - rewrite <- Hperm in Hbd. perm_from Hbd.
  - intros tid' a' r' Hl. apply lookup_delete_Some in Hl as [_ Hl]. eauto.
  - done.
Qed.

(** The writer receives buffer [a], writes its contents, puts it back. *)
Lemma heap_inv_recv s s' a rest :
  heap s' = heap s → c_items (ch (lg s)) = a :: rest → c_items (ch (lg s')) = rest →
  bufPool (lg s') = bufPool (lg s) ++ [a] → senders s' = senders s →
  h_enq s' = h_enq s → h_written s' = h_written s ++ [default [] (heap s !! a)] →
  heap_inv s → heap_inv s'.
Proof.
  intros Hh Hc Hc' Hp Hs He Hw [Hnd Hbd Hsn Hff].
  unfold owned, pending_bufs, queued_ok in *. rewrite Hc in *.
  split; unfold owned, pending_bufs, queued_ok; rewrite ?Hh, ?Hc', ?Hp, ?Hs, ?He, ?Hw.
  - perm_from Hnd.
  - perm_from Hbd.
  - done.
  - destruct Hff as (wr & qd & E1 & E2 & Hq).
    apply Forall2_cons_inv_l in Hq as (x & qd' & Hx & Hq & ->).
    exists (wr ++ [x]), qd'. split_and!; [by rewrite E1, <- app_assoc| |done].
    rewrite fmap_app, E2, Hx. done.
Qed.

Lemma heap_inv_step a s s' : heap_inv s → step a s = Ok s' → heap_inv s'.
Proof.
  intros Hi H. destruct a; step_cases H.
  all: try (eapply heap_inv_frame; [..|exact Hi]; sys_eval; reflexivity).
  all: try (eapply heap_inv_issue; [..|exact Hi]; sys_eval;
            [reflexivity..|done|]; eauto 10).
  all: try (eapply heap_inv_send; [..|exact Hi]; sys_eval; [reflexivity..|done]).
  all: try (eapply heap_inv_discard; [..|exact Hi]; sys_eval; [reflexivity..|done]).
  all: eapply heap_inv_recv; [..|exact Hi]; sys_eval; [reflexivity|eassumption|reflexivity..].
Qed.


(** ** Schedules and the initial state *)

Lemma run_app acts1 acts2 s : run (acts1 ++ acts2) s = run acts2 (run acts1 s).
Proof. apply foldl_app. Qed.

Lemma run_snoc acts a s : run (acts ++ [a]) s = step_or_stay (run acts s) a.
Proof. by rewrite run_app. Qed.

(** An invariant of the steps holds along every schedule. *)
Lemma run_invariant (P : System → Prop) acts s :
  (∀ a s s', P s → step a s = Ok s' → P s') → P s → P (run acts s).
Proof.
  intros Hstep. revert s. induction acts as [|a acts IH]; intros s Hs; [done|].
  simpl. apply IH. unfold step_or_stay. destruct (step a s) eqn:E; eauto.
Qed.

(** What the options leave untouched. *)
Lemma apply_options_init opts l :
  let l' := foldl (λ l o, apply_option o l) l opts in
  (c_items (ch l) = [] → c_items (ch l') = []) ∧
  (0 < c_cap (ch l) → 0 < c_cap (ch l')) ∧
  bufPool l' = bufPool l ∧ done l' = done l ∧ closeOnce l' = closeOnce l ∧
  wg l' = wg l ∧ bufs l' = bufs l ∧ ts l' = ts l.
Proof.
  revert l. induction opts as [|o opts IH]; intros l; [done|].
  simpl. specialize (IH (apply_option o l)). simpl in IH.
  destruct IH as (H1 & H2 & -> & -> & -> & -> & -> & ->).
  destruct o as [[w|]|n|lvl]; simpl in *; try done.
  destruct (0 <? n) eqn:E; [apply Z.ltb_lt in E|]; split_and!; try done.
  - intros _. by apply H1.
  - intros _. by apply H2.
Qed.

Lemma New_init opts t0 :
  let s := New opts t0 in
  c_items (ch (lg s)) = [] ∧ 0 < c_cap (ch (lg s)) ∧ bufPool (lg s) = [] ∧
  done (lg s) = false ∧ closeOnce (lg s) = OnceFresh ∧ wg (lg s) = 2%nat ∧
  bufs (lg s) = (λ _, NewWriterSize (64 * 1024)) <$> writers (lg s) ∧
  ts (lg s) = Format t0 layout ∧ writers (lg s) ≠ [].
Proof.
  unfold New.
  set (l0 := {| level := int32 INFO; writers := []; bufs := []; ch := make_chan 1024;
                bufPool := []; done := false; wg := 0; closeOnce := OnceFresh; ts := [] |}).
  destruct (apply_options_init opts l0) as (H1 & H2 & H3 & H4 & H5 & H6 & H7 & H8).
  set (l1 := foldl (λ l o, apply_option o l) l0 opts) in *.
  cbn zeta. case_bool_decide as Hw; sys_eval; unfold AppendFormat; simpl.
  all: split_and!; try done; try (by apply H1); try (by apply H2).
  intros E. rewrite E in Hw. done.
Qed.

Lemma heap_inv_New opts t0 : heap_inv (New opts t0).
Proof.
  destruct (New_init opts t0) as (Hc & _ & Hp & _).
  split; unfold owned, pending_bufs, queued_ok; rewrite ?Hc, ?Hp.
  - simpl. unfold New. cbn [senders]. rewrite map_to_list_empty. constructor.
  - simpl. unfold New. cbn [senders]. rewrite map_to_list_empty. constructor.
  - unfold New. cbn [senders]. intros tid a r H. by rewrite lookup_empty in H.
  - exists [], []. unfold New. cbn [h_enq h_written]. split_and!; [done..|constructor].
Qed.

Lemma heap_inv_run opts t0 acts : heap_inv (run acts (New opts t0)).
Proof. apply run_invariant; [intros; by eapply heap_inv_step|apply heap_inv_New]. Qed.

(** ** What the sinks receive *)

Lemma stream_inv_frame s s' :
  bufs (lg s') = bufs (lg s) → ops s' = ops s → h_written s' = h_written s →
  stream_inv s → stream_inv s'.
Proof. unfold stream_inv. by intros -> -> ->. Qed.

Lemma stream_inv_write s s' line :
  bufs (lg s') = (range_bufs (bufio_Write line) (bufs (lg s))).1 →
  ops s' = ops s ++ (range_bufs (bufio_Write line) (bufs (lg s))).2 →
  h_written s' = h_written s ++ [line] →
  stream_inv s → stream_inv s'.
Proof.
  unfold stream_inv. intros Hb Ho Hw Hi i bw' Hl.
  rewrite Hb, range_bufs_lookup in Hl.
  destruct (bufs (lg s) !! i) as [bw|] eqn:E; [|done]. simpl in Hl. injection Hl as <-.
  rewrite Ho, Hw, sink_out_app, sink_out_range, E, concat_app. simpl.
  rewrite app_nil_r, <- (Hi i bw E), <- !app_assoc. f_equal.
  apply bufio_Write_stream.
Qed.

Lemma stream_inv_flush s s' extra :
  bufs (lg s') = (range_bufs bufio_Flush (bufs (lg s))).1 →
  ops s' = (ops s ++ (range_bufs bufio_Flush (bufs (lg s))).2) ++ extra →
  (∀ i, sink_out i extra = []) →
  h_written s' = h_written s →
  stream_inv s → stream_inv s'.
Proof.
  unfold stream_inv. intros Hb Ho Hx Hw Hi i bw' Hl.
  rewrite Hb, range_bufs_lookup in Hl.
  destruct (bufs (lg s) !! i) as [bw|] eqn:E; [|done]. simpl in Hl. injection Hl as <-.
  rewrite Ho, Hw, !sink_out_app, sink_out_range, E, Hx, app_nil_r.
  rewrite <- (Hi i bw E), <- !app_assoc. f_equal.
  apply bufio_Flush_stream.
Qed.

Lemma stream_inv_step a s s' : stream_inv s → step a s = Ok s' → stream_inv s'.
Proof.
  intros Hi H. destruct a; step_cases H.
  all: try (eapply stream_inv_frame; [..|exact Hi]; sys_eval; reflexivity).
  all: try (eapply stream_inv_write; [..|exact Hi]; sys_eval; reflexivity).
  all: try (eapply (stream_inv_flush _ _ []); [..|exact Hi]; sys_eval;
            rewrite ?app_nil_r; done).
  eapply stream_inv_flush; [..|exact Hi]; sys_eval; try reflexivity.
  apply sink_out_close_writers.
Qed.

Lemma stream_inv_New opts t0 : stream_inv (New opts t0).
Proof.
  destruct (New_init opts t0) as (_ & _ & _ & _ & _ & _ & Hb & _).
  intros i bw Hl. rewrite Hb, list_lookup_fmap in Hl.
  destruct (writers _ !! i); simplify_eq/=. done.
Qed.

Lemma stream_inv_run opts t0 acts : stream_inv (run acts (New opts t0)).
Proof. apply run_invariant; [intros; by eapply stream_inv_step|apply stream_inv_New]. Qed.

(** ** No record is lost while running *)

Lemma pending_insert (m : gmap nat (nat * bytes)) tid a r :
  m !! tid = None →
  (λ x, (x.1, x.2.2)) <$> map_to_list (<[tid:=(a, r)]> m)
  ≡ₚ (tid, r) :: ((λ x, (x.1, x.2.2)) <$> map_to_list m).
Proof. intros H. by rewrite map_to_list_insert. Qed.

Lemma pending_delete (m : gmap nat (nat * bytes)) tid a r :
  m !! tid = Some (a, r) →
  (tid, r) :: ((λ x, (x.1, x.2.2)) <$> map_to_list (delete tid m))
  ≡ₚ (λ x, (x.1, x.2.2)) <$> map_to_list m.
Proof. intros H. by rewrite <- (map_to_list_delete m tid (a, r)). Qed.

Lemma loss_inv_step a s s' : loss_inv s → step a s = Ok s' → loss_inv s'.
Proof.
  intros [Hp Hr] H. destruct a; step_cases H.
  all: split; sys_eval; try done.
  all: try (rewrite pending_insert by done; rewrite Hp; solve_Permutation).
  all: try (match goal with
            | Hs : senders _ !! _ = Some _ |- _ ≡ₚ _ =>
                rewrite <- (pending_delete _ _ _ _ Hs) in Hp; rewrite Hp; solve_Permutation
            end).
  all: congruence.
Qed.

Lemma loss_inv_New opts t0 : loss_inv (New opts t0).
Proof.
  split; unfold New; sys_eval; [|done].
  by rewrite map_to_list_empty.
Qed.

Lemma loss_inv_run opts t0 acts : loss_inv (run acts (New opts t0)).
Proof. apply run_invariant; [intros; by eapply loss_inv_step|apply loss_inv_New]. Qed.


(** ** The shutdown protocol *)

Lemma shut_inv_step a s s' : heap_inv s → shut_inv s → step a s = Ok s' → shut_inv s'.
Proof.
  intros Hh Hi H.
  destruct a; step_cases H.
  all: destruct Hi as [Hcap Hlen Hwg Hfr Hwl Hwd Htd Hmk Hwx Hbody Huniq Hopen Hclosed].
  all: split; sys_eval; try done.
  all: try congruence.
  all: rewrite ?range_bufs_length; try done.
  (* the counter of running goroutines *)
  all: try (repeat match goal with
                   | E : wpc _ = _ |- _ => rewrite E in *
                   | E : tpc _ = _ |- _ => rewrite E in *
                   end; simpl in *; lia).
  all: intros.
  all: try match goal with
       | E : closeOnce (lg _) = OnceDone |- _ =>
           destruct (Hclosed E) as (Ew & Et & w & Eo & Hw); try congruence
       end.
  all: repeat match goal with
       | E : <[_:=_]> _ !! _ = Some _ |- _ =>
           apply lookup_insert_Some in E as [[? ?]|[? E]]
       | E : delete _ _ !! _ = Some _ |- _ => apply lookup_delete_Some in E as [? E]
       end; simplify_eq.
  all: try done.
  all: try (match goal with
            | E1 : closers _ !! _ = Some InBody |- _ => pose proof (Hbody _ E1)
            end; congruence).
  all: try (by eapply Huniq).
  all: try (exfalso; match goal with
            | E1 : closers _ !! ?a = Some InBody, E2 : closers _ !! ?b = Some InBody,
              N : ?a ≠ ?b |- _ => apply N; by eapply Huniq
            end).
  all: try match goal with
       | N : closeOnce (lg _) ≠ OnceDone |- _ => destruct (Hopen N) as [Hnc Hret]
       end.
  all: try (split; [apply no_close_app; split; [done|apply range_bufs_no_close]|done]).
  all: try (split; [done|eauto]; fail).
  all: try lia.
  - pose proof (Hmk _ H). rewrite length_app. lia.
  - apply Hwd. congruence.
  - split; [apply range_bufs_Flush_empty|]. intros k Hk.
    destruct Hh as [_ _ _ (wr & qd & E1 & E2 & Hq)]. unfold queued_ok in Hq.
    rewrite (recv_line_None _ H1) in Hq. apply Forall2_nil_inv_l in Hq as ->.
    rewrite app_nil_r in E1. rewrite E2, length_fmap, <- E1. by apply Hmk.
  - split; [apply range_bufs_Flush_empty|]. by apply Hwx.
  - destruct (Hwx Ew) as [Hemp _]. rewrite range_bufs_Flush_idle by done.
    simpl. rewrite app_nil_r. eauto.
  - destruct (Hwd H3) as [? _]. congruence.
  - apply Hopen. congruence.
  - pose proof (Hbody _ H0) as Hr. split; [|done]. intros Hd. apply Hfr in Hd. congruence.
  - split; [apply range_bufs_Flush_empty|]. by apply Hwx.
  - apply bool_decide_eq_true in H1. rewrite H1 in Hwg.
    pose proof (Hbody _ H0) as Hr.
    destruct (Hopen ltac:(congruence)) as [Hnc _].
    destruct (wpc s), (tpc s); simpl in Hwg; try lia.
    split_and!; [done..|]. eexists. split; [done|].
    apply no_close_app. split; [done|apply range_bufs_no_close].
Qed.

Lemma shut_inv_New opts t0 : shut_inv (New opts t0).
Proof.
  destruct (New_init opts t0) as (Hc & Hcap & Hp & Hd & Ho & Hw & Hb & _).
  split; rewrite ?Hd, ?Ho, ?Hw, ?Hb, ?length_fmap; unfold New; sys_eval; try done.
  intros _. split; [constructor|done].
Qed.

Lemma shut_inv_run opts t0 acts : shut_inv (run acts (New opts t0)).
Proof.
  pose proof (run_invariant (λ s, heap_inv s ∧ shut_inv s) acts (New opts t0)) as H.
  apply H.
  - intros a s s' [Hh Hs] Hst. split; [by eapply heap_inv_step|by eapply shut_inv_step].
  - split; [apply heap_inv_New|apply shut_inv_New].
Qed.


(** ** Timestamps, record shape, no panic *)

Lemma levelTag_Some lvl : ∃ tag, levelTag lvl = Some tag.
Proof.
  unfold levelTag. destruct ((0 <=? lvl) && (lvl <? _)) eqn:E; [|eauto].
  apply andb_true_iff in E as [E1%Z.leb_le E2%Z.ltb_lt].
  apply lookup_lt_is_Some_2. simpl in *. lia.
Qed.

Lemma log_record_Some stamp lvl msg : ∃ r, log_record stamp lvl msg = Some r.
Proof.
  unfold log_record. destruct (levelTag_Some lvl) as [tag ->]. simpl. eauto.
Qed.

Lemma log_record_shape stamp lvl msg r :
  log_record stamp lvl msg = Some r →
  ∃ tag, levelTag lvl = Some tag ∧ r = stamp ++ B " " ++ tag ++ B " " ++ msg ++ [x0a].
Proof.
  unfold log_record. destruct (levelTag lvl) as [tag|]; [|done].
  simpl. intros [= <-]. exists tag. split; [done|].
  by rewrite <- !app_assoc.
Qed.

Lemma shape_inv_step a s s' : shape_inv s → step a s = Ok s' → shape_inv s'.
Proof.
  intros Hi H. destruct a; step_cases H.
  all: unfold shape_inv in *; sys_eval; try done.
  all: apply Forall_app; split; [done|]; repeat constructor; simpl; eauto.
Qed.

Lemma shape_inv_New opts t0 : shape_inv (New opts t0).
Proof. unfold shape_inv, New. sys_eval. constructor. Qed.

Lemma ts_inv_step t0 a s s' : ts_inv t0 s → step a s = Ok s' → ts_inv t0 s'.
Proof.
  intros Hi H. destruct a; step_cases H.
  all: destruct Hi as [Hts Hper Hnext Hclk Hsch].
  all: split; sys_eval; try done.
  - exists (now s). split; [apply elem_of_app; right; by apply list_elem_of_singleton|done].
  - unfold tick_fire. simpl. destruct Hper as [-> _]. rewrite Hnext, length_app. simpl. lia.
  - apply Forall_app. split; [done|]. repeat constructor. lia.
  - intros i t Hl. apply lookup_app_Some in Hl as [Hl|[Hlen Hl]]; [eauto|].
    apply list_lookup_singleton_Some in Hl as [Hi <-].
    unfold tick_ready in H1. apply Z.leb_le in H1. rewrite Hnext in H1.
    replace i with (length (h_published s)) by lia. done.
  - apply Z.leb_le in H0. eapply Forall_impl; [exact Hclk|]. simpl. lia.
Qed.

Lemma ts_inv_New opts t0 : ts_inv t0 (New opts t0).
Proof.
  destruct (New_init opts t0) as (_ & _ & _ & _ & _ & _ & _ & Hts & _).
  split; rewrite ?Hts; unfold New; sys_eval.
  - exists t0. split; [by apply list_elem_of_singleton|done].
  - done.
  - simpl. unfold timestampInterval. lia.
  - repeat constructor. reflexivity.
  - intros i t Hl. apply list_lookup_singleton_Some in Hl as [-> ->]. simpl. lia.
Qed.

Lemma ts_inv_run opts t0 acts : ts_inv t0 (run acts (New opts t0)).
Proof. apply run_invariant; [intros; by eapply ts_inv_step|apply ts_inv_New]. Qed.

Lemma no_clock_calls_step a s s' : no_clock_calls s → step a s = Ok s' → no_clock_calls s'.
Proof.
  intros Hi H. destruct a; step_cases H.
  all: unfold no_clock_calls in *; sys_eval; try done.
  all: repeat (apply Forall_app; split; [|by repeat constructor]); done.
Qed.

Lemma no_clock_calls_run opts t0 acts : no_clock_calls (run acts (New opts t0)).
Proof.
  apply run_invariant; [intros; by eapply no_clock_calls_step|].
  unfold no_clock_calls, New. sys_eval. constructor.
Qed.

(** No step of the system panics. *)
Lemma step_no_panic a s : shut_inv s → step a s ≠ Panic.
Proof.
  intros Hi H. destruct a; simpl in H.
  all: unfold logf, log, log_select, writerLoop, timestampLoop, Close, Close_body,
         Close_return in H.
  all: repeat (case_match; try done).
  all: try match goal with
       | E : log_record ?a ?b ?c = None |- _ =>
           destruct (log_record_Some a b c) as [? ?]; congruence
       end.
  all: try done.
  destruct Hi as [_ _ _ Hfr]. 
  match goal with E : closeOnce _ = OnceFresh |- _ => apply Hfr in E; congruence end.
Qed.

(** ** All invariants together, and the order of states *)

Lemma inv_step a s s' : inv s → step a s = Ok s' → inv s'.
Proof.
  intros [] H. split.
  - by eapply heap_inv_step.
  - by eapply shut_inv_step.
  - by eapply stream_inv_step.
  - by eapply loss_inv_step.
  - by eapply shape_inv_step.
Qed.

Lemma inv_New opts t0 : inv (New opts t0).
Proof.
  split; [apply heap_inv_New|apply shut_inv_New|apply stream_inv_New|apply loss_inv_New|
          apply shape_inv_New].
Qed.

Lemma inv_run_from acts s : inv s → inv (run acts s).
Proof. intros. apply run_invariant; [intros; by eapply inv_step|done]. Qed.

Lemma inv_run opts t0 acts : inv (run acts (New opts t0)).
Proof. apply inv_run_from, inv_New. Qed.

Lemma later_refl s : later s s.
Proof. split; try done. intros Hn k Hk. congruence. Qed.

Lemma later_trans s1 s2 s3 : later s1 s2 → later s2 s3 → later s1 s3.
Proof.
  intros [A1 A2 A3 A4 A5 A6] [B1 B2 B3 B4 B5 B6]. split.
  - by etrans.
  - by etrans.
  - by etrans.
  - eauto.
  - intros Hn k Hk. destruct (h_mark s2) as [k2|] eqn:E.
    + rewrite (B4 _ eq_refl) in Hk. simplify_eq. by apply A5.
    + specialize (B5 eq_refl _ Hk). apply prefix_length in A1. lia.
  - congruence.
Qed.

Lemma later_step a s s' : shut_inv s → step a s = Ok s' → later s s'.
Proof.
  intros Hi H. destruct a; step_cases H.
  all: split; sys_eval; try done.
  all: try (by apply prefix_app_r).
  all: try (intros; simplify_eq; done).
  - destruct Hi as [_ _ _ _ Hwl]. intros k Hk. rewrite (Hwl H0) in Hk. done.
  - rewrite <- app_assoc. by apply prefix_app_r.
Qed.

Lemma later_run acts s : inv s → later s (run acts s).
Proof.
  revert s. induction acts as [|a acts IH]; intros s Hi; [apply later_refl|].
  change (run (a :: acts) s) with (run acts (step_or_stay s a)).
  unfold step_or_stay. destruct (step a s) as [s'| |] eqn:E; try by apply IH.
  eapply later_trans; [eapply later_step; [apply Hi|done]|].
  apply IH. by eapply inv_step.
Qed.


(** ** The latest timestamp *)

Lemma ts_latest_frame s s' :
  h_published s' = h_published s → ts (lg s') = ts (lg s) →
  unix_ms (now s) ≤ unix_ms (now s') → ts_latest s → ts_latest s'.
Proof.
  intros Hp Ht Hn [H1 H2 H3]. split; rewrite ?Hp, ?Ht; try done.
  eapply Forall_impl; [exact H3|]. simpl. intros. lia.
Qed.

Lemma ts_latest_step a s s' : ts_latest s → step a s = Ok s' → ts_latest s'.
Proof.
  intros I H. step_cases H;
    try (by (eapply ts_latest_frame; [..|exact I]; sys_eval; (reflexivity || lia))).
  - destruct I as [_ H2 H3]. split; sys_eval.
    + eexists _, _. split; [reflexivity|]. done.
    + intros i j ti tj Hij Hi Hj.
      apply lookup_snoc_Some in Hj as [[Hlt Hj]|[Hlen <-]].
      * apply lookup_snoc_Some in Hi as [[_ Hi]|[Hlen _]]; [exact (H2 i j ti tj Hij Hi Hj)|lia].
      * apply lookup_snoc_Some in Hi as [[_ Hi]|[_ <-]]; [|lia].
        rewrite Forall_forall in H3. apply H3. by eapply list_elem_of_lookup_2.
    + apply Forall_app. split; [done|]. constructor; [lia|constructor].
Qed.

Lemma ts_latest_run opts t0 acts : ts_latest (run acts (New opts t0)).
Proof.
  apply (run_invariant ts_latest).
  - intros a s s'. apply ts_latest_step.
  - destruct (New_init opts t0) as (_ & _ & _ & _ & _ & _ & _ & Hts & _).
    split.
    + exists [], t0. split; [reflexivity|exact Hts].
    + intros i j ti tj Hij Hi Hj.
      change (h_published (New opts t0)) with [t0] in Hi, Hj.
      apply list_lookup_singleton_Some in Hi as [_ <-].
      apply list_lookup_singleton_Some in Hj as [_ <-]. lia.
    + change (h_published (New opts t0)) with [t0].
      change (now (New opts t0)) with t0. repeat constructor. lia.
Qed.

(** ** The goroutines return once [done] is closed *)

Lemma writer_drains m c : ∀ s,
  wpc s ≠ WLoop →
  (length (c_items (ch (lg s))) < m)%nat ∨ wpc s = WExit →
  let s' := run (replicate m (AWriter c)) s in
  wpc s' = WExit ∧ closers s' = closers s ∧ tpc s' = tpc s.
Proof.
  induction m as [|m IH]; intros s Hw Hlen.
  { destruct Hlen as [?|?]; [lia|done]. }
  cbn zeta. change (run (replicate (S m) (AWriter c)) s)
    with (run (replicate m (AWriter c)) (step_or_stay s (AWriter c))).
  unfold step_or_stay, step, writerLoop.
  destruct (wpc s) eqn:Ew; [done| |].
  - destruct (recv_line s) as [s1|] eqn:Er.
    + apply recv_line_Some in Er as (a & rest & Ec & ->).
      destruct (IH (write_line a (on_lg (set_ch (mkChan rest (c_cap (ch (lg s))))) s)))
        as (H1 & H2 & H3).
      * sys_eval. congruence.
      * left. sys_eval. destruct Hlen as [Hlen|?]; [|done].
        rewrite Ec in Hlen. simpl in Hlen. lia.
      * split_and!; [done|by rewrite H2|by rewrite H3].
    + destruct (IH (on_lg (λ l, set_wg (Nat.pred (wg l)) l) (set_wpc WExit (flushAll s))))
        as (H1 & H2 & H3).
      * sys_eval. done.
      * right. sys_eval. done.
      * split_and!; [done|by rewrite H2|by rewrite H3].
  - apply IH; [congruence|by right].
Qed.

Lemma timestamp_sees_done s :
  done (lg s) = true →
  let s1 := step_or_stay s (ATimestamp TDone) in
  tpc s1 = TExit ∧ wpc s1 = wpc s ∧ closers s1 = closers s ∧
  c_items (ch (lg s1)) = c_items (ch (lg s)) ∧ done (lg s1) = true.
Proof.
  intros Hd. unfold step_or_stay, step, timestampLoop.
  destruct (tpc s) eqn:Et; rewrite ?Hd; sys_eval; done.
Qed.

Lemma writer_sees_done s :
  done (lg s) = true →
  let s1 := step_or_stay s (AWriter WDone) in
  wpc s1 ≠ WLoop ∧ tpc s1 = tpc s ∧ closers s1 = closers s ∧
  (length (c_items (ch (lg s1))) ≤ length (c_items (ch (lg s))))%nat.
Proof.
  intros Hd. unfold step_or_stay, step, writerLoop.
  destruct (wpc s) eqn:Ew; rewrite ?Hd.
  - sys_eval. done.
  - destruct (recv_line s) as [s2|] eqn:Er.
    + apply recv_line_Some in Er as (a & rest & Ec & ->). sys_eval.
      rewrite Ec. simpl. split_and!; try done; [congruence|lia].
    + sys_eval. done.
  - rewrite Ew. done.
Qed.

(** From a state in which a caller is inside the body of [closeOnce.Do],
    the two loops see [done], the writer drains, and the caller
    returns. *)
Lemma Close_completes s tid :
  inv s → closers s !! tid = Some InBody →
  let n := length (c_items (ch (lg s))) in
  let s' := run ([ATimestamp TDone; AWriter WDone] ++ replicate (S n) (AWriter WRecv)
                 ++ [ACloseBody tid]) s in
  tid ∈ h_returned s' ∧ wpc s' = WExit ∧ tpc s' = TExit ∧ closers s' !! tid = None.
Proof.
  intros Hi Hc n s'.
  assert (Hd : done (lg s) = true).
  { destruct (inv_shut _ Hi) as [_ _ _ Hf _ _ _ _ _ Hbody _ _ _].
    apply Hbody in Hc. destruct (done (lg s)); [done|].
    destruct Hf as [Hf _]. rewrite Hf in Hc; done. }
  subst s'. rewrite !run_app.
  set (s1 := run [ATimestamp TDone; AWriter WDone] s).
  assert (H1 : inv s1 ∧ tpc s1 = TExit ∧ wpc s1 ≠ WLoop ∧ closers s1 = closers s ∧
               (length (c_items (ch (lg s1))) ≤ n)%nat).
  { split; [by apply inv_run_from|]. subst s1 n.
    change (run [ATimestamp TDone; AWriter WDone] s)
      with (step_or_stay (step_or_stay s (ATimestamp TDone)) (AWriter WDone)).
    destruct (timestamp_sees_done s Hd) as (Ht & Hw & Hcl & Hit & Hd1).
    destruct (writer_sees_done _ Hd1) as (Hw' & Ht' & Hcl' & Hlen').
    split_and!; [congruence|done|congruence|]. by rewrite <- Hit. }
  destruct H1 as (Hi1 & Ht1 & Hw1 & Hc1 & Hn1).
  destruct (writer_drains (S n) WRecv s1 Hw1) as (Hw2 & Hc2 & Ht2); [left; lia|].
  set (s2 := run (replicate (S n) (AWriter WRecv)) s1) in *.
  assert (Hi2 : inv s2) by (by apply inv_run_from).
  assert (Hwg : wg (lg s2) = 0%nat).
  { rewrite (si_wg _ (inv_shut _ Hi2)), Hw2, Ht2, Ht1. done. }
  unfold run. simpl. unfold step_or_stay. simpl. unfold Close_body.
  rewrite Hc2, Hc1, Hc, Hwg. simpl. sys_eval.
  split_and!; try done; try congruence.
  - rewrite elem_of_app, list_elem_of_singleton. by right.
  - by rewrite lookup_delete_eq.
Qed.


Lemma select_frees s tid first s' :
  step (ASelect tid first) s = Ok s' →
  senders s' !! tid = None ∧ closers s' = closers s ∧ done (lg s') = done (lg s).
Proof.
  intros H. step_cases H; sys_eval; by rewrite lookup_delete_eq.
Qed.

Lemma log_keeps_closers s tid lvl msg pick s' :
  step (ALog tid lvl msg pick) s = Ok s' →
  closers s' = closers s ∧ done (lg s') = done (lg s).
Proof. intros H. step_cases H; sys_eval; done. Qed.

(** A caller that enters [Close] while [done] is open takes the body, and
    the shutdown that follows lets it return. *)
Lemma entered_Close_completes s tid :
  inv s → senders s !! tid = None → closers s !! tid = None → done (lg s) = false →
  tid ∈ h_returned (run (drain_shutdown tid (length (c_items (ch (lg s))))) s).
Proof.
  intros Hi Hs Hc Hd. unfold drain_shutdown.
  change (run ([AClose tid; ATimestamp TDone; AWriter WDone] ++
               replicate (S (length (c_items (ch (lg s))))) (AWriter WRecv) ++
               [ACloseBody tid]) s)
    with (run ([ATimestamp TDone; AWriter WDone] ++
               replicate (S (length (c_items (ch (lg s))))) (AWriter WRecv) ++
               [ACloseBody tid]) (step_or_stay s (AClose tid))).
  assert (Hf : closeOnce (lg s) = OnceFresh) by (by apply (si_fresh _ (inv_shut _ Hi))).
  assert (Hst : step (AClose tid) s =
                Ok (set_closers (<[tid := InBody]> (closers s))
                      (on_lg (λ l, set_done true (set_closeOnce OnceRunning l)) s))).
  { simpl. unfold Close, busy. rewrite Hs, Hc, Hf, Hd.
    rewrite !bool_decide_eq_false_2 by (intros [? ?]; done). done. }
  unfold step_or_stay. rewrite Hst.
  set (s1 := set_closers _ _).
  assert (Hi1 : inv s1) by (by eapply inv_step).
  assert (Hc1 : closers s1 !! tid = Some InBody).
  { subst s1. sys_eval. by rewrite lookup_insert_eq. }
  pose proof (Close_completes s1 tid Hi1 Hc1) as [H _].
  exact H.
Qed.

(** ** Only [SetLevel] changes the threshold *)

Lemma level_frame_step a s s' :
  is_set_level a = false → step a s = Ok s' → level (lg s') = level (lg s).
Proof.
  intros Ha H. destruct a; try discriminate; step_cases H; sys_eval; done.
Qed.

Lemma level_frame_run acts : ∀ s,
  no_set_level acts → level (lg (run acts s)) = level (lg s).
Proof.
  unfold no_set_level. induction acts as [|a acts IH]; intros s Hn; [done|].
  simpl in Hn. apply andb_true_iff in Hn as [Ha Hn]. apply negb_true_iff in Ha.
  change (run (a :: acts) s) with (run acts (step_or_stay s a)).
  rewrite IH by done. unfold step_or_stay.
  destruct (step a s) as [s'| |] eqn:E; [|done..]. by eapply level_frame_step.
Qed.

(** ** Delivery *)

Lemma occurs_in_concat (l : list bytes) p r : l !! p = Some r → occurs_in r (concat l).
Proof.
  intros H. apply list_elem_of_split_length in H as (l1 & l2 & -> & _).
  exists (concat l1), (concat l2). by rewrite concat_app.
Qed.

Lemma occurs_in_msg stamp lvl msg r : log_record stamp lvl msg = Some r → occurs_in msg r.
Proof.
  intros (tag & _ & ->)%log_record_shape.
  exists (stamp ++ B " " ++ tag ++ B " "), [x0a]. by rewrite <- !app_assoc.
Qed.

(** Once the writer has returned, every sink has received all that was
    written, and that covers what was sent before the writer saw [done]. *)
Lemma writer_exit_delivered s :
  inv s → wpc s = WExit →
  ∃ k, h_mark s = Some k ∧ take k (h_enq s).*2 `prefix_of` h_written s ∧
       ∀ i, (i < length (writers (lg s)))%nat → sink_out i (ops s) = concat (h_written s).
Proof.
  intros [Hh Hs Hst _ _] Hx.
  destruct Hs as [_ Hlen _ _ _ Hwd _ _ Hwx _ _ _ _].
  destruct (Hwx Hx) as [Hemp Hk].
  destruct (Hwd ltac:(congruence)) as [_ [k Hm]].
  exists k. split; [done|]. split.
  - destruct Hh as [_ _ _ (wr & qd & E1 & E2 & _)].
    specialize (Hk _ Hm). rewrite E1, E2, fmap_app, take_app_le.
    + apply prefix_take.
    + by rewrite <- E2.
  - intros i Hi. rewrite <- Hlen in Hi.
    apply lookup_lt_is_Some_2 in Hi as [bw Hbw].
    rewrite <- (Hst i bw Hbw).
    rewrite Forall_forall in Hemp. rewrite (Hemp bw), app_nil_r; [done|].
    by eapply list_elem_of_lookup_2.
Qed.

(** ** C5: first in, first out *)

(** Claim C5.  In every reachable state the records the writer has written
    are, in order, the first records that were sent into the channel; the
    channel holds the rest, in order; so the records of one producer are
    written in the order it sent them.  As long as [Sync] has not been
    called, every sink has received or still buffers exactly the written
    records in that order. *)
Theorem fifo_order opts t0 acts :
  let s := run acts (New opts t0) in
  ∃ wr qd,
    h_enq s = wr ++ qd ∧
    h_written s = wr.*2 ∧
    Forall2 (λ a (x : nat * bytes), heap s !! a = Some x.2) (c_items (ch (lg s))) qd ∧
    (no_sync acts →
     ∀ i bw, bufs (lg s) !! i = Some bw →
             sink_out i (ops s) ++ bw_buf bw = concat wr.*2) ∧
    (∀ tid, filter (λ x, x.1 = tid) wr `prefix_of` filter (λ x, x.1 = tid) (h_enq s)).
Proof.
  intros s. destruct (inv_run opts t0 acts) as [Hh _ Hst _ _].
  destruct Hh as [_ _ _ (wr & qd & E1 & E2 & Hq)]. fold s in E1, E2, Hq, Hst.
  exists wr, qd. split_and!; try done.
  - intros _ i bw Hb. rewrite <- E2. by apply Hst.
  - intros tid. rewrite E1, filter_app. by apply prefix_app_r.
Qed.

Lemma fifo_order_witness :
  sink_out 0 (ops (run two_records_flushed (New two_sinks T0))) =
  concat (h_written (run two_records_flushed (New two_sinks T0))).
Proof.
  destruct (fifo_order two_sinks T0 two_records_flushed) as (wr & qd & _ & Hw & _ & Hs & _).
  pose proof (Hs ltac:(vm_compute; reflexivity) 0%nat (NewWriterSize (64 * 1024))
                ltac:(vm_compute; reflexivity)) as H.
  rewrite <- Hw in H. etrans; [|exact H]. symmetry. apply app_nil_r.
Defined.

(** ** C1: nothing is lost while running (package speedlog) *)

(** The select of a producer while [done] is open: it sends if the channel
    has room and waits otherwise. *)
Lemma select_running s tid a r first :
  done (lg s) = false → senders s !! tid = Some (a, r) →
  if can_send (ch (lg s))
  then ∃ s', step (ASelect tid first) s = Ok s' ∧
             h_enq s' = h_enq s ++ [(tid, r)] ∧
             c_items (ch (lg s')) = c_items (ch (lg s)) ++ [a] ∧
             h_discarded s' = h_discarded s ∧ h_mark s' = h_mark s
  else step (ASelect tid first) s = Blocked.
Proof.
  intros Hd Hs. simpl. unfold log_select. rewrite Hs, Hd. simpl.
  destruct (can_send (ch (lg s))); simpl; [|done].
  eexists. split; [done|]. sys_eval. done.
Qed.

(** A call that passes the level check builds its record and reaches the
    select. *)
Lemma log_enabled s tid lvl msg pick :
  busy tid s = false → IsLevelEnabled lvl (lg s) = true → pick_ok pick s →
  ∃ s' a r, step (ALog tid lvl msg pick) s = Ok s' ∧
            log_record (ts (lg s)) lvl msg = Some r ∧
            senders s' !! tid = Some (a, r) ∧
            h_issued s' = h_issued s ++ [(tid, r)] ∧
            lg s' = set_bufPool (bufPool (lg s')) (lg s) ∧
            ops s' = ops s ∧ h_enq s' = h_enq s ∧ h_mark s' = h_mark s ∧
            wpc s' = wpc s.
Proof.
  intros Hb He Hp. simpl. unfold log. rewrite Hb.
  change (lg (note tid CLoadLevel s)) with (lg s). rewrite He. simpl.
  destruct (log_record_Some (ts (lg s)) lvl msg) as [r Hr].
  destruct pick as [k|]; simpl.
  - destruct Hp as [a Ha]. sys_eval. rewrite Ha. simpl. sys_eval. rewrite Hr.
    eexists _, a, r. split; [done|]. sys_eval. rewrite lookup_insert_eq.
    split_and!; try done.
  - sys_eval. rewrite Hr.
    eexists _, _, r. split; [done|]. sys_eval. rewrite lookup_insert_eq.
    split_and!; try done. by destruct (lg s).
Qed.

(** Claim C1, for package speedlog.  While [done] has not been closed, no
    record has been given up: every record built by a call that passed the
    level check has been sent into the channel or is held by a producer
    standing at the select; such a producer sends as soon as the channel
    has room and waits while it is full; and a call that passes the level
    check always gets to the select with its record. *)
Theorem no_loss_while_running opts t0 acts :
  let s := run acts (New opts t0) in
  done (lg s) = false →
  h_discarded s = [] ∧
  h_issued s ≡ₚ h_enq s ++ pending s ∧
  (∀ tid a r first, senders s !! tid = Some (a, r) →
     if can_send (ch (lg s))
     then ∃ s', step (ASelect tid first) s = Ok s' ∧
                h_enq s' = h_enq s ++ [(tid, r)] ∧
                c_items (ch (lg s')) = c_items (ch (lg s)) ++ [a] ∧
                h_discarded s' = []
     else step (ASelect tid first) s = Blocked) ∧
  (∀ tid lvl msg pick,
     busy tid s = false → IsLevelEnabled lvl (lg s) = true → pick_ok pick s →
     ∃ s' a r, step (ALog tid lvl msg pick) s = Ok s' ∧
               senders s' !! tid = Some (a, r) ∧
               h_issued s' = h_issued s ++ [(tid, r)]).
Proof.
  intros s Hd. destruct (inv_run opts t0 acts) as [_ _ _ [Hp Hr] _]. fold s in Hp, Hr.
  specialize (Hr Hd). split_and!.
  - done.
  - by rewrite Hp, Hr.
  - intros tid a r first Hs. pose proof (select_running s tid a r first Hd Hs) as H.
    destruct (can_send (ch (lg s))); [|done].
    destruct H as (s' & ? & ? & ? & ? & _). exists s'. split_and!; congruence.
  - intros tid lvl msg pick Hb He Hk.
    destruct (log_enabled s tid lvl msg pick Hb He Hk) as (s' & a & r & ? & ? & ? & ? & _).
    eauto 10.
Qed.

Lemma no_loss_while_running_witness :
  h_discarded (run [ALog 1 INFO (B "a") None; ASelect 1 true; ALog 2 ERROR (B "b") None]
                 (New [] T0)) = [].
Proof.
  exact (proj1 (no_loss_while_running [] T0
                  [ALog 1 INFO (B "a") None; ASelect 1 true; ALog 2 ERROR (B "b") None]
                  ltac:(vm_compute; reflexivity))).
Defined.

(** ** C2: drain, flush, close *)



(** ** C3: the level check *)

(** A record sent while [done] is open is in every sink once [Close] has
    returned. *)
Lemma sent_reaches_sinks s acts p r :
  inv s → h_mark s = None → (h_enq s).*2 !! p = Some r →
  let s3 := run acts s in
  h_returned s3 ≠ [] →
  ∀ i, (i < length (writers (lg s3)))%nat → occurs_in r (sink_out i (ops s3)).
Proof.
  intros Hi Hm Hp s3 Hret i Hlt.
  pose proof (inv_run_from acts s Hi) as Hi3. fold s3 in Hi3.
  pose proof (later_run acts s Hi) as Hl. fold s3 in Hl.
  destruct (inv_shut _ Hi3) as [_ _ _ _ _ _ _ _ _ _ _ Hopen Hclosed].
  destruct (closeOnce (lg s3)) eqn:Eo;
    try (destruct Hopen as [_ ?]; [congruence|done]).
  destruct (Hclosed eq_refl) as (Ew & _).
  destruct (writer_exit_delivered s3 Hi3 Ew) as (k & Hk & Hpre & Hout).
  rewrite (Hout i Hlt). apply (occurs_in_concat _ p).
  pose proof (lt_mark_none _ _ Hl Hm k Hk) as Hlen.
  assert (p < length (h_enq s))%nat as Hplt.
  { apply lookup_lt_Some in Hp. by rewrite length_fmap in Hp. }
  eapply prefix_lookup_Some; [|exact Hpre].
  rewrite lookup_take_lt by lia.
  destruct (lt_enq _ _ Hl) as [k' ->]. rewrite fmap_app.
  by apply lookup_app_l_Some.
Qed.

(** Claim C3.  [IsLevelEnabled] compares the level with the threshold.  A
    call of [log] below the threshold only loads the threshold: no record
    is built, no buffer taken, nothing reaches a bufio writer or a sink.
    A call at or above it builds a record that contains the message; with
    [done] open and room in the channel the record is sent.  From then
    on, in an execution without calls of [Sync], the record is in every
    sink whenever a call of [Close] has returned; and a shutdown does
    deliver it: when the caller enters [Close], the two loops see [done]
    and the writer takes a turn for each queued record and one more,
    [Close] returns and the record is in every sink. *)
Theorem level_filter opts t0 acts tid lvl msg pick :
  let s := run acts (New opts t0) in
  busy tid s = false →
  IsLevelEnabled lvl (lg s) = bool_decide (level (lg s) ≤ lvl) ∧
  (lvl < level (lg s) →
     ∃ s1, step (ALog tid lvl msg pick) s = Ok s1 ∧
           lg s1 = lg s ∧ heap s1 = heap s ∧ ops s1 = ops s ∧ senders s1 = senders s ∧
           h_issued s1 = h_issued s ∧ h_enq s1 = h_enq s) ∧
  (level (lg s) ≤ lvl → pick_ok pick s →
     ∃ s1 a r, step (ALog tid lvl msg pick) s = Ok s1 ∧
               senders s1 !! tid = Some (a, r) ∧
               h_issued s1 = h_issued s ++ [(tid, r)] ∧
               occurs_in msg r ∧
               (done (lg s) = false → can_send (ch (lg s)) = true →
                ∀ first, ∃ s2, step (ASelect tid first) s1 = Ok s2 ∧
                               h_enq s2 = h_enq s ++ [(tid, r)] ∧
                               (no_sync acts →
                                ∀ acts2, no_sync acts2 →
                                         let s3 := run acts2 s2 in
                                         h_returned s3 ≠ [] →
                                         ∀ i, (i < length (writers (lg s3)))%nat →
                                              occurs_in r (sink_out i (ops s3))) ∧
                               (no_sync acts →
                                let s3 := run (drain_shutdown tid
                                                 (length (c_items (ch (lg s2))))) s2 in
                                tid ∈ h_returned s3 ∧
                                ∀ i, (i < length (writers (lg s3)))%nat →
                                     occurs_in r (sink_out i (ops s3))))).
Proof.
  intros s Hb. pose proof (inv_run opts t0 acts) as Hi. fold s in Hi.
  assert (He : IsLevelEnabled lvl (lg s) = bool_decide (level (lg s) ≤ lvl)).
  { unfold IsLevelEnabled. rewrite Z.geb_leb.
    case_bool_decide; [apply Z.leb_le|apply Z.leb_gt]; lia. }
  split_and!; [done| |].
  - intros Hlt. simpl. unfold log. rewrite Hb.
    change (lg (note tid CLoadLevel s)) with (lg s).
    rewrite He, bool_decide_eq_false_2 by lia. simpl.
    eexists. split; [done|]. sys_eval. done.
  - intros Hle Hpick. rewrite bool_decide_eq_true_2 in He by done.
    destruct (log_enabled s tid lvl msg pick Hb He Hpick)
      as (s1 & a & r & Hst & Hr & Hs1 & His & Hlg & Hops & Henq & Hmk & Hw).
    exists s1, a, r. split_and!; try done.
    { by eapply occurs_in_msg. }
    intros Hd Hroom first.
    assert (Hd1 : done (lg s1) = false) by (by rewrite Hlg).
    pose proof (select_running s1 tid a r first Hd1 Hs1) as Hsel.
    replace (can_send (ch (lg s1))) with true in Hsel by (by rewrite Hlg).
    destruct Hsel as (s2 & Hst2 & He2 & _ & _ & Hm2).
    exists s2. split_and!; [done|congruence| |].
    all: assert (Hi2 : inv s2) by (eapply inv_step; [eapply inv_step|]; eassumption).
    all: assert (Hmark : h_mark s2 = None).
    1,3: rewrite Hm2, Hmk; destruct (inv_shut _ Hi) as [_ _ _ _ Hwl Hwd _ _ _ _ _ _ _];
         apply Hwl; destruct (wpc s) eqn:E; [done| |];
         (destruct Hwd as [? _]; [congruence|congruence]).
    all: assert (Hpos : (h_enq s2).*2 !! length (h_enq s) = Some r).
    1,3: rewrite He2, Henq, fmap_app; simpl;
         rewrite lookup_app_r by (by rewrite length_fmap);
         by rewrite length_fmap, Nat.sub_diag.
    + intros _ acts2 _.
      by apply (sent_reaches_sinks s2 acts2 (length (h_enq s))).
    + intros _. cbn zeta.
      assert (Hret : tid ∈ h_returned
                (run (drain_shutdown tid (length (c_items (ch (lg s2))))) s2)).
      { destruct (select_frees _ _ _ _ Hst2) as (Hs2 & Hc2 & Hd2).
        destruct (log_keeps_closers _ _ _ _ _ _ Hst) as (Hc1 & _).
        apply not_busy in Hb as [_ Hcl].
        apply (entered_Close_completes s2 tid); [done|done|congruence|congruence]. }
      split; [done|].
      apply (sent_reaches_sinks s2 _ (length (h_enq s))); [done..|].
      intros E. rewrite E in Hret. by apply elem_of_nil in Hret.
Qed.

Lemma level_filter_witness :
  (∃ s1, step (ALog 1 INFO (B "x") None) (run [ASetLevel WARN] (New two_sinks T0)) = Ok s1 ∧
         ops s1 = []) ∧
  (∃ s1 s2 r,
     step (ALog 1 ERROR (B "y") None) (run [ASetLevel WARN] (New two_sinks T0)) = Ok s1 ∧
     step (ASelect 1 true) s1 = Ok s2 ∧ occurs_in (B "y") r ∧
     occurs_in r (sink_out 1 (ops (run (drain_shutdown 1 (length (c_items (ch (lg s2))))) s2)))).
Proof.
  split.
  - destruct (level_filter two_sinks T0 [ASetLevel WARN] 1%nat INFO (B "x") None
                ltac:(vm_compute; reflexivity)) as (_ & H & _).
    destruct (H ltac:(vm_compute; reflexivity)) as (s1 & E & _ & _ & Ho & _).
    exists s1. split; [exact E|exact Ho].
  - destruct (level_filter two_sinks T0 [ASetLevel WARN] 1%nat ERROR (B "y") None
                ltac:(vm_compute; reflexivity)) as (_ & _ & H).
    destruct (H ltac:(vm_compute; discriminate) I) as (s1 & a & r & E1 & _ & _ & Hm & Hsend).
    destruct (Hsend ltac:(vm_compute; reflexivity) ltac:(vm_compute; reflexivity) true)
      as (s2 & E2 & _ & _ & Hdel).
    destruct (Hdel ltac:(vm_compute; reflexivity)) as [_ Hsink].
    exists s1, s2, r. split; [exact E1|]. split; [exact E2|]. split; [exact Hm|].
    apply Hsink.
    assert (Hw : writers (lg (run (drain_shutdown 1 (length (c_items (ch (lg s2))))) s2)) =
                 writers (lg (run [ASetLevel WARN] (New two_sinks T0)))).
    { etrans; [apply (lt_writers _ _ (later_run _ s2 (inv_step _ _ _
                 (inv_step _ _ _ (inv_run two_sinks T0 [ASetLevel WARN]) E1) E2)))|].
      etrans; [apply (lt_writers _ _ (later_step _ _ _
                 (inv_shut _ (inv_step _ _ _ (inv_run two_sinks T0 [ASetLevel WARN]) E1)) E2))|].
      apply (lt_writers _ _ (later_step _ _ _
                 (inv_shut _ (inv_run two_sinks T0 [ASetLevel WARN])) E1)). }
    rewrite Hw. vm_compute. lia.
Defined.

(** ** C10: levels outside DEBUG..ERROR *)

Lemma levelTag_unknown lvl : ¬ (DEBUG ≤ lvl ≤ ERROR) → levelTag lvl = Some (B "UNK").
Proof.
  unfold levelTag, DEBUG, ERROR. intros H.
  destruct ((0 <=? lvl) && (lvl <? _)) eqn:E; [|done].
  apply andb_true_iff in E as [E1%Z.leb_le E2%Z.ltb_lt]. simpl in E2. lia.
Qed.

Lemma levelTag_known lvl :
  DEBUG ≤ lvl ≤ ERROR → levelTag lvl = levelNames !! Z.to_nat lvl.
Proof.
  unfold levelTag, DEBUG, ERROR. intros H.
  destruct ((0 <=? lvl) && (lvl <? _)) eqn:E; [done|].
  apply andb_false_iff in E as [E%Z.leb_gt|E%Z.ltb_ge]; simpl in *; lia.
Qed.

(** Claim C10.  For a level outside DEBUG..ERROR [log] builds the record
    with the tag UNK, the table of names is not indexed, and neither [log]
    nor [logf] panics; a call that passes the level check leaves that
    record in its buffer. *)
Theorem unknown_level_tag opts t0 acts tid lvl msg pick :
  let s := run acts (New opts t0) in
  ¬ (DEBUG ≤ lvl ≤ ERROR) →
  log_record (ts (lg s)) lvl msg =
    Some (ts (lg s) ++ B " " ++ B "UNK" ++ B " " ++ msg ++ [x0a]) ∧
  step (ALog tid lvl msg pick) s ≠ Panic ∧
  step (ALogf tid lvl msg pick) s ≠ Panic ∧
  (busy tid s = false → level (lg s) ≤ lvl → pick_ok pick s →
   ∃ s1 a, step (ALog tid lvl msg pick) s = Ok s1 ∧
           senders s1 !! tid = Some (a, ts (lg s) ++ B " " ++ B "UNK" ++ B " " ++ msg ++ [x0a]) ∧
           heap s1 !! a = Some (ts (lg s) ++ B " " ++ B "UNK" ++ B " " ++ msg ++ [x0a])).
Proof.
  intros s Hout. pose proof (inv_run opts t0 acts) as Hi. fold s in Hi.
  assert (Hr : log_record (ts (lg s)) lvl msg =
               Some (ts (lg s) ++ B " " ++ B "UNK" ++ B " " ++ msg ++ [x0a])).
  { unfold log_record. rewrite (levelTag_unknown _ Hout). simpl.
    by rewrite <- !app_assoc. }
  split_and!; [done|by apply step_no_panic, Hi|by apply step_no_panic, Hi|].
  intros Hb Hle Hp.
  assert (He : IsLevelEnabled lvl (lg s) = true).
  { unfold IsLevelEnabled. apply Z.geb_le. lia. }
  destruct (log_enabled s tid lvl msg pick Hb He Hp) as (s1 & a & r & Hst & Hr' & Hs1 & _).
  rewrite Hr in Hr'. injection Hr' as <-.
  exists s1, a. split_and!; [done..|].
  assert (Hi1 : inv s1) by (by eapply inv_step).
  by apply (hi_sender _ (inv_heap _ Hi1) tid).
Qed.

Lemma unknown_level_tag_witness :
  log_record (ts (lg (run [] (New [] T0)))) 7 (B "m") =
  Some (B "2024-05-01 10:00:00.000 UNK m" ++ [x0a]).
Proof.
  exact (proj1 (unknown_level_tag [] T0 [] 1%nat 7 (B "m") None
                  ltac:(unfold DEBUG, ERROR; lia))).
Defined.

(** ** C6: the cached timestamp (package speedlog) *)

Lemma log_calls s tid lvl msg pick s1 r :
  step (ALog tid lvl msg pick) s = Ok s1 ∨ step (ALogf tid lvl msg pick) s = Ok s1 →
  h_issued s1 = h_issued s ++ [(tid, r)] →
  ∃ cs, h_calls s1 = h_calls s ++ cs ∧
        Forall (λ c : nat * Call, is_clock_call c.2 = false) cs ∧
        length (filter (λ c : nat * Call, is_ts_load c.2) cs) = 1%nat ∧
        ∃ rest, r = ts (lg s) ++ rest.
Proof.
  intros [H|H] Hiss; step_cases H; sys_eval.
  all: try (apply (f_equal length) in Hiss; rewrite length_app in Hiss; simpl in Hiss; lia).
  all: apply app_inv_head in Hiss; injection Hiss as ->.
  all: match goal with
       | E : log_record _ _ _ = Some _ |- _ => apply log_record_shape in E as (tag & _ & ->)
       end.
  all: rewrite <- ?app_assoc; eexists; split; [reflexivity|].
  all: split; [by repeat constructor|split; [done|eauto]].
Qed.

(** Claim C6, for package speedlog.  A call of [log] or [logf] that builds
    a record loads the cached timestamp exactly once and calls neither the
    clock nor the time formatter; the record starts with the snapshot,
    which is the rendering of the instant published last.  [New]
    publishes the instant of its call; a tick of [timestampLoop] publishes
    the clock and stores its rendering as the snapshot.  The ticks follow
    the period of 100 ms: the [i]-th instant published after that of [New]
    is not before [i] periods have passed, no tick happens before it is
    due, and when [timestampLoop] is in its loop and has taken every
    earlier tick within its period, the tick is taken as soon as the
    clock reaches the time it is due.  No producer ever calls the
    clock. *)
Theorem cached_timestamp opts t0 acts tid lvl msg pick s1 r :
  let s := run acts (New opts t0) in
  step (ALog tid lvl msg pick) s = Ok s1 ∨ step (ALogf tid lvl msg pick) s = Ok s1 →
  h_issued s1 = h_issued s ++ [(tid, r)] →
  (∃ cs, h_calls s1 = h_calls s ++ cs ∧
         Forall (λ c : nat * Call, is_clock_call c.2 = false) cs ∧
         length (filter (λ c : nat * Call, is_ts_load c.2) cs) = 1%nat) ∧
  (∃ pre t rest, h_published s = pre ++ [t] ∧ ts (lg s) = Format t layout ∧
                 r = Format t layout ++ rest) ∧
  h_published s !! 0%nat = Some t0 ∧
  (∀ s', step (ATimestamp TTick) s = Ok s' →
         h_published s' = h_published s ++ [now s] ∧ ts (lg s') = Format (now s) layout) ∧
  (∀ i t, h_published s !! i = Some t → unix_ms t0 + 100 * Z.of_nat i ≤ unix_ms t) ∧
  (unix_ms (now s) < unix_ms t0 + 100 * Z.of_nat (length (h_published s)) →
   step (ATimestamp TTick) s = Blocked) ∧
  (tpc s = TLoop →
   (∀ i t, h_published s !! i = Some t → unix_ms t < unix_ms t0 + 100 * Z.of_nat (S i)) →
   unix_ms t0 + 100 * Z.of_nat (length (h_published s)) ≤ unix_ms (now s) →
   ∃ s', step (ATimestamp TTick) s = Ok s') ∧
  no_clock_calls s1.
Proof.
  intros s Hst Hiss.
  destruct (log_calls s tid lvl msg pick s1 r Hst Hiss) as (cs & Hc & Hnc & Hone & rest & ->).
  destruct (ts_inv_run opts t0 acts) as [_ [Hper _] Hnext _ Hsch].
  fold s in Hper, Hnext, Hsch.
  destruct (ts_latest_run opts t0 acts) as [(pre & t & Hpub & Hts) _ _]. fold s in Hpub, Hts.
  split_and!.
  - eauto.
  - exists pre, t, rest. by rewrite Hts.
  - clear. subst s. induction acts as [|a acts IH] using rev_ind; [done|].
    rewrite run_snoc. unfold step_or_stay.
    destruct (step a (run acts (New opts t0))) as [s'| |] eqn:E; try done.
    destruct a; step_cases E; sys_eval; try done.
    by apply lookup_app_l_Some.
  - intros s' H. clearbody s. clear -H. step_cases H; sys_eval. done.
  - exact Hsch.
  - intros Hlt. simpl. unfold timestampLoop, tick_ready. rewrite Hnext.
    unfold timestampInterval. rewrite (proj2 (Z.leb_gt _ _)) by lia.
    destruct (tpc s); done.
  - intros Hpc _ Hle. simpl. unfold timestampLoop, tick_ready. rewrite Hpc, Hnext.
    unfold timestampInterval. rewrite (proj2 (Z.leb_le _ _)) by lia. eauto.
  - unfold no_clock_calls. rewrite Hc. apply Forall_app. split; [|done].
    apply (no_clock_calls_run opts t0 acts).
Qed.

Lemma cached_timestamp_witness :
  (∃ pre t rest,
     h_published (run [AClock T1; ATimestamp TTick] (New [] T0)) = pre ++ [t] ∧
     ts (lg (run [AClock T1; ATimestamp TTick] (New [] T0))) = Format t layout ∧
     B "2024-05-01 10:00:00.100 INFO x" ++ [x0a] = Format t layout ++ rest) ∧
  step (ATimestamp TTick) (run [AClock T1; ATimestamp TTick] (New [] T0)) = Blocked ∧
  ∃ s', step (ATimestamp TTick) (run [AClock T1] (New [] T0)) = Ok s'.
Proof.
  pose proof (cached_timestamp [] T0 [AClock T1; ATimestamp TTick] 1%nat INFO
                (B "x") None
                (run [AClock T1; ATimestamp TTick; ALog 1 INFO (B "x") None] (New [] T0))
                (B "2024-05-01 10:00:00.100 INFO x" ++ [x0a])
                ltac:(left; vm_compute; reflexivity) ltac:(vm_compute; reflexivity))
    as (_ & H2 & _ & _ & _ & H6 & _).
  pose proof (cached_timestamp [] T0 [AClock T1] 1%nat INFO (B "x") None
                (run [AClock T1; ALog 1 INFO (B "x") None] (New [] T0))
                (B "2024-05-01 10:00:00.000 INFO x" ++ [x0a])
                ltac:(left; vm_compute; reflexivity) ltac:(vm_compute; reflexivity))
    as (_ & _ & _ & _ & _ & _ & H7 & _).
  split; [exact H2|]. split; [apply H6; vm_compute; reflexivity|].
  apply H7; [reflexivity| |vm_compute; discriminate].
  intros [|i] t Hl; [|discriminate]. injection Hl as <-. vm_compute. reflexivity.
Defined.

(** ** C7: logging after Close *)

(** After [Close] has returned no step reaches a sink or a bufio writer. *)
Lemma after_close_silent opts t0 acts a s' :
  let s := run acts (New opts t0) in
  h_returned s ≠ [] → step a s = Ok s' →
  ops s' = ops s ∧ bufs (lg s') = bufs (lg s) ∧ h_written s' = h_written s.
Proof.
  intros s Hret H. pose proof (inv_run opts t0 acts) as Hi. fold s in Hi.
  destruct (inv_shut _ Hi) as [_ _ _ _ _ _ _ _ Hwx Hbody _ Hopen Hclosed].
  destruct (closeOnce (lg s)) eqn:Eo;
    try (destruct Hopen as [_ ?]; [congruence|done]).
  destruct (Hclosed eq_refl) as (Ew & Et & _).
  destruct (Hwx Ew) as [Hemp _].
  clearbody s. destruct a; step_cases H; sys_eval; try done; try congruence.
  - rewrite range_bufs_Flush_idle by done. simpl. by rewrite app_nil_r.
  - match goal with E : closers _ !! _ = Some InBody |- _ => apply Hbody in E end.
    congruence.
Qed.

(** Property X15.  With [done] closed the select of [log] never waits: it
    puts the buffer back into the pool and the record is given up, or,
    when the channel has room and the send is chosen, it sends the
    record. *)
Lemma select_after_done s tid a r first :
  done (lg s) = true → senders s !! tid = Some (a, r) →
  ∃ s', step (ASelect tid first) s = Ok s' ∧
        if can_send (ch (lg s)) && first
        then c_items (ch (lg s')) = c_items (ch (lg s)) ++ [a] ∧
             bufPool (lg s') = bufPool (lg s) ∧ h_enq s' = h_enq s ++ [(tid, r)]
        else c_items (ch (lg s')) = c_items (ch (lg s)) ∧
             bufPool (lg s') = bufPool (lg s) ++ [a] ∧
             h_discarded s' = h_discarded s ++ [(tid, r)].
Proof.
  intros Hd Hs. simpl. unfold log_select. rewrite Hs, Hd. simpl.
  destruct (can_send (ch (lg s)) && first); eexists; (split; [done|]); sys_eval; done.
Qed.

(** Claim C7, at the failing execution: a logger is created and closed;
    a later call of [log] passes the level check, takes a fresh buffer,
    and its select, with [done] closed and room in the channel, takes the
    send: the record stays in the channel, the buffer does not return to
    the pool, the record is not counted as given up.  Nothing reaches a
    sink. *)
Theorem log_after_close_may_send :
  let s := run (shutdown 0) (New [] T0) in
  let s1 := run [ALog 1 INFO (B "late") None] s in
  let s2 := run [ASelect 1 true] s1 in
  h_returned s = [0%nat] ∧ wpc s = WExit ∧ done (lg s) = true ∧
  step (ALog 1 INFO (B "late") None) s = Ok s1 ∧
  senders s1 !! 1%nat = Some (0%nat, B "2024-05-01 10:00:00.000 INFO late" ++ [x0a]) ∧
  step (ASelect 1 true) s1 = Ok s2 ∧
  c_items (ch (lg s2)) = [0%nat] ∧ bufPool (lg s2) = [] ∧ h_discarded s2 = [] ∧
  ops s2 = ops s ∧ ops s = [OpClose 0].
Proof. vm_compute. repeat split; reflexivity. Qed.

(** ** C4 in package speedlog: Close is guarded by sync.Once *)

(** Property X14.  A call of [Close] made after one has returned returns
    at once and changes nothing but the list of returned calls: [done] is
    not closed again and no sink is flushed or closed again. *)
Lemma Close_again opts t0 acts tid :
  let s := run acts (New opts t0) in
  h_returned s ≠ [] → busy tid s = false →
  step (AClose tid) s = Ok (note_returned tid s).
Proof.
  intros s Hret Hb. pose proof (inv_run opts t0 acts) as Hi. fold s in Hi.
  destruct (inv_shut _ Hi) as [_ _ _ _ _ _ _ _ _ _ _ Hopen _].
  simpl. unfold Close. rewrite Hb.
  destruct (closeOnce (lg s)) eqn:Eo; try done;
    (destruct Hopen as [_ ?]; [congruence|done]).
Qed.

(** A call that finds the body running waits for it. *)
Lemma Close_waits opts t0 acts tid :
  let s := run acts (New opts t0) in
  closers s !! tid = Some InWait → closeOnce (lg s) ≠ OnceDone →
  step (ACloseReturn tid) s = Blocked.
Proof.
  intros s Hw Hn. simpl. unfold Close_return. rewrite Hw.
  by destruct (closeOnce (lg s)).
Qed.

(** ** C8: the bytes of a record *)

Lemma bracket_record_shape stamp lvl msg r :
  bracket_record stamp lvl msg = Some r →
  ∃ name, DEBUG ≤ lvl ≤ ERROR ∧ levelNames !! Z.to_nat lvl = Some name ∧
          r = stamp ++ B " [" ++ name ++ B "] " ++ msg ++ [x0a].
Proof.
  unfold bracket_record, index_levelNames, DEBUG, ERROR.
  destruct ((0 <=? lvl) && (lvl <? _)) eqn:E; [|done].
  apply andb_true_iff in E as [E1%Z.leb_le E2%Z.ltb_lt]. simpl in E2.
  destruct (levelNames !! Z.to_nat lvl) as [name|] eqn:En; [|done].
  simpl. intros [= <-]. exists name. split_and!; [lia..|done|].
  by rewrite <- !app_assoc.
Qed.

Lemma issued_by_log a s s' :
  step a s = Ok s' →
  h_issued s' = h_issued s ∨
  ∃ tid lvl msg pick r,
    (a = ALog tid lvl msg pick ∨ a = ALogf tid lvl msg pick) ∧
    h_issued s' = h_issued s ++ [(tid, r)].
Proof.
  intros H. destruct a; step_cases H; sys_eval; first [by left|right; eauto 10].
Qed.

Lemma log_builds s tid lvl msg pick s1 r :
  step (ALog tid lvl msg pick) s = Ok s1 ∨ step (ALogf tid lvl msg pick) s = Ok s1 →
  h_issued s1 = h_issued s ++ [(tid, r)] →
  log_record (ts (lg s)) lvl msg = Some r ∧ ∃ a, senders s1 !! tid = Some (a, r).
Proof.
  intros [H|H] Hiss; step_cases H; sys_eval.
  all: try (apply (f_equal length) in Hiss; rewrite length_app in Hiss; simpl in Hiss; lia).
  all: apply app_inv_head in Hiss; injection Hiss as ->.
  all: split; [done|]; eexists; by rewrite lookup_insert_eq.
Qed.

(** Claim C8, as the code has it.  In package speedlog a call of [log] or
    [logf] that builds a record builds exactly the cached timestamp, a
    space, the tag, a space, the message of the call and a newline, the
    tag being the name of the level of the call for DEBUG..ERROR and UNK
    otherwise; records are built by these calls only; the buffer of the
    producer holds the record it built, a buffer waiting in the channel
    still holds the record sent in it, and the writer writes the bytes
    sent.  In the two [package main] variants the record that [log] sends
    or writes is the rendering of the clock, a space, the name of the
    level of the call between square brackets, a space, the message and a
    newline. *)
Theorem record_shape opts t0 acts :
  let s := run acts (New opts t0) in
  (∀ tid lvl msg pick s1 r,
     step (ALog tid lvl msg pick) s = Ok s1 ∨ step (ALogf tid lvl msg pick) s = Ok s1 →
     h_issued s1 = h_issued s ++ [(tid, r)] →
     ∃ tag a,
       r = ts (lg s) ++ B " " ++ tag ++ B " " ++ msg ++ [x0a] ∧
       (DEBUG ≤ lvl ≤ ERROR → levelNames !! Z.to_nat lvl = Some tag) ∧
       (¬ (DEBUG ≤ lvl ≤ ERROR) → tag = B "UNK") ∧
       senders s1 !! tid = Some (a, r) ∧ heap s1 !! a = Some r) ∧
  (∀ a s', step a s = Ok s' →
           h_issued s' = h_issued s ∨
           ∃ tid lvl msg pick r,
             (a = ALog tid lvl msg pick ∨ a = ALogf tid lvl msg pick) ∧
             h_issued s' = h_issued s ++ [(tid, r)]) ∧
  (∀ x, x ∈ h_enq s → x ∈ h_issued s) ∧
  (∀ tid a r, senders s !! tid = Some (a, r) → heap s !! a = Some r) ∧
  (∃ wr qd, h_enq s = wr ++ qd ∧ h_written s = wr.*2 ∧
            Forall2 (λ a (x : nat * bytes), heap s !! a = Some x.2)
                    (c_items (ch (lg s))) qd) ∧
  (∀ lvl msg t pick first l l' cs,
     Part000.log lvl msg t pick first l = Ok (l', Enqueued, cs) →
     ∃ name, DEBUG ≤ lvl ≤ ERROR ∧ levelNames !! Z.to_nat lvl = Some name ∧
             c_items (Part000.ch l') =
             c_items (Part000.ch l) ++
             [Format t Part000.layout ++ B " [" ++ name ++ B "] " ++ msg ++ [x0a]]) ∧
  (∀ lvl msg t pick l o l' o' cs,
     MainGo.log lvl msg t pick l o = Ok (l', o', Written, cs) → no_close o →
     ∃ name, DEBUG ≤ lvl ≤ ERROR ∧ levelNames !! Z.to_nat lvl = Some name ∧
             let r := Format t MainGo.layout ++ B " [" ++ name ++ B "] " ++ msg ++ [x0a] in
             last (MainGo.bufPool l') = Some r ∧
             ∀ i bw, MainGo.bufs l !! i = Some bw →
                     sink_out i o' = sink_out i o ++ bw_buf bw ++ r).
Proof.
  intros s. pose proof (inv_run opts t0 acts) as Hi. fold s in Hi.
  destruct Hi as [Hh Hsh Hstr [Hp Hrun] Hshape]. split_and!.
  - intros tid lvl msg pick s1 r Hst Hiss.
    destruct (log_builds s tid lvl msg pick s1 r Hst Hiss) as (Hr & a & Hs1).
    apply log_record_shape in Hr as (tag & Ht & ->).
    exists tag, a. split_and!; [done| | |done|].
    + intros Hin. by rewrite <- levelTag_known.
    + intros Hout. rewrite levelTag_unknown in Ht by done. by injection Ht as <-.
    + assert (Hi1 : inv s1).
      { destruct Hst as [Hst|Hst]; (eapply inv_step; [|exact Hst]); by split. }
      by apply (hi_sender _ (inv_heap _ Hi1) tid).
  - intros a s'. apply issued_by_log.
  - intros x Hx. rewrite Hp. apply elem_of_app. by left.
  - by destruct Hh as [_ _ ? _].
  - by destruct Hh as [_ _ _ ?].
  - intros lvl msg t pick first l l' cs. unfold Part000.log.
    destruct (lvl <? Part000.level l); [done|].
    destruct (Part000.pool_Get pick l) as [[b l1]|] eqn:Ep; [|done].
    assert (Part000.ch l1 = Part000.ch l) as Ech.
    { destruct pick as [k|]; simpl in Ep.
      - destruct (Part000.bufPool l !! k); simplify_eq/=. done.
      - by simplify_eq. }
    change (AppendFormat t [] Part000.layout) with (Format t Part000.layout).
    destruct (bracket_record _ lvl msg) as [r|] eqn:Er; [|done].
    apply bracket_record_shape in Er as (name & Hin & Hn & ->).
    cbn [Part000.ch Part000.done Part000.set_bufPool]. rewrite Ech.
    destruct (can_send (Part000.ch l) && _); [|by destruct (Part000.done l1)].
    intros [= <- _]. exists name. done.
  - intros lvl msg t pick l o l' o' cs. unfold MainGo.log.
    destruct (lvl <? MainGo.level l); [done|].
    destruct (MainGo.pool_Get pick l) as [[b l1]|] eqn:Ep; [|done].
    assert (MainGo.bufs l1 = MainGo.bufs l) as Eb.
    { destruct pick as [k|]; simpl in Ep.
      - destruct (MainGo.bufPool l !! k); simplify_eq/=. done.
      - by simplify_eq. }
    change ([] ++ Format t MainGo.layout) with (Format t MainGo.layout).
    destruct (bracket_record _ lvl msg) as [r|] eqn:Er; [|done].
    apply bracket_record_shape in Er as (name & Hin & Hn & ->).
    rewrite Eb.
    set (r := Format t MainGo.layout ++ B " [" ++ name ++ B "] " ++ msg ++ [x0a]).
    destruct (range_bufs (bufio_Write r) (MainGo.bufs l)) as [bs1 o1] eqn:Ew.
    assert (Hb1 : bs1 = (range_bufs (bufio_Write r) (MainGo.bufs l)).1) by (by rewrite Ew).
    assert (Ho1 : o1 = (range_bufs (bufio_Write r) (MainGo.bufs l)).2) by (by rewrite Ew).
    destruct (range_bufs bufio_Flush bs1) as [bs2 o2] eqn:Ef.
    assert (Ho2 : o2 = (range_bufs bufio_Flush bs1).2) by (by rewrite Ef).
    intros H _. injection H as <- <-. exists name.
    split; [exact Hin|]. split; [exact Hn|].
    cbn zeta. cbn [MainGo.bufPool]. split; [apply last_snoc|].
    intros i bw Hbw. rewrite !sink_out_app, Ho1, Ho2, !sink_out_range, Hbw.
    rewrite Hb1, range_bufs_lookup, Hbw. cbn [fmap option_fmap option_map].
    f_equal. pose proof (bufio_Flush_stream (bufio_Write r bw).1) as Hf.
    rewrite bufio_Flush_empty, app_nil_r in Hf. rewrite Hf.
    apply bufio_Write_stream.
Qed.

Lemma record_shape_witness :
  ∃ tag, B "2024-05-01 10:00:00.000 WARN w" ++ [x0a] =
         ts (lg (run [] (New [] T0))) ++ B " " ++ tag ++ B " " ++ B "w" ++ [x0a] ∧
         levelNames !! Z.to_nat WARN = Some tag.
Proof.
  destruct (proj1 (record_shape [] T0 []) 1%nat WARN (B "w") None
              (run [ALog 1 WARN (B "w") None] (New [] T0))
              (B "2024-05-01 10:00:00.000 WARN w" ++ [x0a])
              ltac:(left; vm_compute; reflexivity) ltac:(vm_compute; reflexivity))
    as (tag & a & E & Hin & _).
  exists tag. split; [exact E|].
  apply Hin. vm_compute. split; discriminate.
Defined.

(** ** Two runs of the specification *)

Example five_records_delivered :
  let s := run five_records (New two_sinks T0) in
  let out := B "2024-05-01 10:00:00.000 INFO m1" ++ [x0a] ++
             B "2024-05-01 10:00:00.000 INFO m2" ++ [x0a] ++
             B "2024-05-01 10:00:00.000 INFO m3" ++ [x0a] ++
             B "2024-05-01 10:00:00.000 INFO m4" ++ [x0a] ++
             B "2024-05-01 10:00:00.000 INFO m5" ++ [x0a] in
  ops s = [OpWrite 0 out; OpWrite 1 out; OpClose 1] ∧ h_returned s = [9%nat].
Proof. vm_compute. split; reflexivity. Qed.

Example warn_scenario_delivered :
  let s := run warn_scenario (New two_sinks T0) in
  let out := B "2024-05-01 10:00:00.000 ERROR y" ++ [x0a] in
  ops s = [OpWrite 0 out; OpWrite 1 out; OpClose 1] ∧
  h_issued s = [(1%nat, out)].
Proof. vm_compute. split; reflexivity. Qed.

(** ** More on package speedlog *)


(** *** New and its options *)

Lemma last_cons_default {A} (d x : A) (l : list A) :
  default d (last (x :: l)) = default x (last l).
Proof. rewrite last_cons. by destruct (last l). Qed.

Lemma apply_options_config opts : ∀ l d,
  level l = int32 d →
  let l' := foldl (λ l o, apply_option o l) l opts in
  writers l' = writers l ++ given_writers opts ∧
  c_cap (ch l') =
    default (c_cap (ch l))
      (last (omap (λ o, match o with
                        | WithChannelSize n => if 0 <? n then Some n else None
                        | _ => None
                        end) opts)) ∧
  level l' =
    int32 (default d (last (omap (λ o, match o with WithLevel lvl => Some lvl | _ => None end)
                              opts))).
Proof.
  induction opts as [|o opts IH]; intros l d Hl.
  { simpl. rewrite app_nil_r. auto. }
  cbn zeta. simpl foldl. unfold given_writers.
  destruct o as [[w|]|n|lvl]; simpl omap.
  - destruct (IH (apply_option (WithWriter (Some w)) l) d Hl) as (Hw & Hc & Hv).
    rewrite Hw, Hc, Hv. simpl. by rewrite <- app_assoc.
  - destruct (IH (apply_option (WithWriter None) l) d Hl) as (Hw & Hc & Hv).
    rewrite Hw, Hc, Hv. done.
  - destruct (0 <? n) eqn:En.
    + destruct (IH (apply_option (WithChannelSize n) l) d) as (Hw & Hc & Hv).
      { simpl. by rewrite En. }
      rewrite Hw, Hc, Hv, last_cons_default. simpl. rewrite En. done.
    + destruct (IH (apply_option (WithChannelSize n) l) d) as (Hw & Hc & Hv).
      { simpl. by rewrite En. }
      rewrite Hw, Hc, Hv. simpl. rewrite En. done.
  - destruct (IH (apply_option (WithLevel lvl) l) lvl eq_refl) as (Hw & Hc & Hv).
    rewrite Hw, Hc, Hv, last_cons_default. done.
Qed.

(** Property X1.  [New] keeps the writers of the options in order, nil
    writers left out, and falls back to standard output when there is
    none; it makes one empty bufio writer of 64 KiB per writer; the
    capacity of the channel is the size of the last [WithChannelSize]
    with a positive size, and 1024 without one; the threshold is the
    level of the last [WithLevel], stored as an int32, and INFO without
    one; the channel and the pool are empty, [done] is open and the
    cached timestamp renders the instant of the call. *)
Theorem New_config opts t0 :
  let l := lg (New opts t0) in
  writers l = (if given_writers opts is [] then [Stdout] else given_writers opts) ∧
  bufs l = (λ _, NewWriterSize (64 * 1024)) <$> writers l ∧
  c_cap (ch l) = chosen_size opts ∧ 0 < c_cap (ch l) ∧
  level l = int32 (chosen_level opts) ∧
  c_items (ch l) = [] ∧ bufPool l = [] ∧ done l = false ∧
  ts l = Format t0 layout.
Proof.
  intros l. destruct (New_init opts t0) as (Hc & Hcap & Hp & Hd & _ & _ & Hb & Hts & _).
  fold l in Hc, Hcap, Hp, Hd, Hb, Hts.
  assert (Hcfg : writers l =
                   (if given_writers opts is [] then [Stdout] else given_writers opts) ∧
                 c_cap (ch l) = chosen_size opts ∧ level l = int32 (chosen_level opts)).
  { subst l. unfold New.
    set (l0 := {| level := int32 INFO; writers := []; bufs := []; ch := make_chan 1024;
                  bufPool := []; done := false; wg := 0; closeOnce := OnceFresh; ts := [] |}).
    destruct (apply_options_config opts l0 INFO eq_refl) as (Hw & Hcc & Hl).
    cbn zeta in *. simpl in Hw.
    change (c_cap (ch l0)) with 1024 in Hcc.
    set (l1 := foldl (λ l o, apply_option o l) l0 opts) in *.
    unfold chosen_size, chosen_level.
    case_bool_decide as Hn; sys_eval; simpl; rewrite Hw in Hn; rewrite ?Hw;
      (split_and!; [by destruct (given_writers opts)|exact Hcc|exact Hl]). }
  destruct Hcfg as (Hw & Hcc & Hl).
  split_and!; done.
Qed.

(** *** What New fixed stays fixed *)

Lemma bufio_Write_size p bw : bw_size (bufio_Write p bw).1 = bw_size bw.
Proof. unfold bufio_Write. by repeat case_match. Qed.

Lemma bufio_Flush_size bw : bw_size (bufio_Flush bw).1 = bw_size bw.
Proof. unfold bufio_Flush. by case_match. Qed.

Lemma bufio_Write_fill p bw :
  0 ≤ bw_size bw → Buffered bw ≤ bw_size bw →
  Buffered (bufio_Write p bw).1 ≤ bw_size bw.
Proof.
  unfold bufio_Write, Available, Buffered. intros H0 Hb.
  repeat case_match; simpl; rewrite ?length_app;
    repeat match goal with
    | H : (_ <=? _) = true |- _ => apply Z.leb_le in H
    | H : (_ <=? _) = false |- _ => apply Z.leb_gt in H
    end; lia.
Qed.

Lemma bufio_Flush_fill bw :
  0 ≤ bw_size bw → Buffered bw ≤ bw_size bw →
  Buffered (bufio_Flush bw).1 ≤ bw_size bw.
Proof.
  unfold bufio_Flush, Buffered. intros H0 Hb.
  destruct (bw_buf bw) eqn:E; simpl; [rewrite E|]; simpl in *; lia.
Qed.

Lemma range_bufs_config f bs :
  (∀ bw, bw_size (f bw).1 = bw_size bw) →
  (∀ bw, 0 ≤ bw_size bw → Buffered bw ≤ bw_size bw → Buffered (f bw).1 ≤ bw_size bw) →
  Forall (λ bw, bw_size bw = 64 * 1024) bs →
  Forall (λ bw, Buffered bw ≤ bw_size bw) bs →
  Forall (λ bw, bw_size bw = 64 * 1024) (range_bufs f bs).1 ∧
  Forall (λ bw, Buffered bw ≤ bw_size bw) (range_bufs f bs).1.
Proof.
  intros Hs Hf H1 H2. unfold range_bufs. simpl. split; apply Forall_fmap.
  - eapply Forall_impl; [exact H1|]. intros bw Hbw. simpl. by rewrite Hs.
  - rewrite Forall_forall in H1, H2. apply Forall_forall. intros bw Hbw. simpl.
    rewrite Hs. apply Hf; [rewrite H1 by done; lia|by apply H2].
Qed.

Lemma config_inv_frame s0 s s' :
  writers (lg s') = writers (lg s) → c_cap (ch (lg s')) = c_cap (ch (lg s)) →
  bufs (lg s') = bufs (lg s) → config_inv s0 s → config_inv s0 s'.
Proof. intros Hw Hc Hb [? ? ? ? ?]. split; rewrite ?Hw, ?Hc, ?Hb; done. Qed.

Lemma config_inv_range f s0 s s' :
  (∀ bw, bw_size (f bw).1 = bw_size bw) →
  (∀ bw, 0 ≤ bw_size bw → Buffered bw ≤ bw_size bw → Buffered (f bw).1 ≤ bw_size bw) →
  writers (lg s') = writers (lg s) → c_cap (ch (lg s')) = c_cap (ch (lg s)) →
  bufs (lg s') = (range_bufs f (bufs (lg s))).1 → config_inv s0 s → config_inv s0 s'.
Proof.
  intros Hs Hf Hw Hc Hb [? ? ? H1 H2].
  destruct (range_bufs_config f _ Hs Hf H1 H2).
  split; rewrite ?Hw, ?Hc, ?Hb, ?range_bufs_length; done.
Qed.

Lemma config_inv_step s0 a s s' :
  config_inv s0 s → step a s = Ok s' → config_inv s0 s'.
Proof.
  intros I H. step_cases H;
    first [ by (eapply config_inv_frame; [..|exact I]; sys_eval; reflexivity)
          | by (eapply (config_inv_range bufio_Flush); [..|exact I];
                 [apply bufio_Flush_size|apply bufio_Flush_fill|sys_eval; reflexivity..])
          | by (eapply (config_inv_range (bufio_Write _)); [..|exact I];
                 [apply bufio_Write_size|apply bufio_Write_fill|sys_eval; reflexivity..])
          | idtac ].
Qed.

(** Property X2.  In every reachable state the writers and the capacity
    of the channel are those [New] set, there is one bufio writer per
    writer, each of size 64 KiB, and none buffers more than its size. *)
Theorem config_fixed opts t0 acts :
  config_inv (New opts t0) (run acts (New opts t0)).
Proof.
  apply (run_invariant (config_inv (New opts t0))).
  - intros a s s'. apply config_inv_step.
  - destruct (New_init opts t0) as (_ & _ & _ & _ & _ & _ & Hb & _).
    split; try done.
    + by rewrite Hb, length_fmap.
    + rewrite Hb. apply Forall_fmap, Forall_forall. done.
    + rewrite Hb. apply Forall_fmap, Forall_forall. done.
Qed.

(** *** The channel is bounded *)

Lemma bounded_step a s s' : bounded s → step a s = Ok s' → bounded s'.
Proof.
  unfold bounded. intros I H. step_cases H; sys_eval; try done.
  - match goal with H : can_send _ && _ = true |- _ =>
      apply andb_true_iff in H; destruct H as [H _]; unfold can_send in H;
      apply Z.ltb_lt in H end.
    rewrite length_app. simpl. lia.
  - match goal with H : c_items _ = _ :: _ |- _ => rewrite H, length_cons in I end. lia.
  - match goal with H : c_items _ = _ :: _ |- _ => rewrite H, length_cons in I end. lia.
Qed.

Lemma bounded_run opts t0 acts : bounded (run acts (New opts t0)).
Proof.
  apply (run_invariant bounded).
  - intros a s s' I H. exact (bounded_step a s s' I H).
  - destruct (New_init opts t0) as (Hc & Hcap & _). unfold bounded. rewrite Hc.
    change (0 ≤ c_cap (ch (lg (New opts t0)))). lia.
Qed.

(** Property X3.  The channel never holds more records than its
    capacity, whatever the producers, the loops and the callers of
    [Close] do; a send has to wait exactly when the channel holds as many
    records as its capacity. *)
Theorem channel_bounded opts t0 acts :
  let s := run acts (New opts t0) in
  Z.of_nat (length (c_items (ch (lg s)))) ≤ c_cap (ch (lg s)) ∧
  (can_send (ch (lg s)) = false ↔
   Z.of_nat (length (c_items (ch (lg s)))) = c_cap (ch (lg s))).
Proof.
  intros s. pose proof (bounded_run opts t0 acts) as Hb. fold s in Hb.
  unfold bounded in Hb. split; [done|]. unfold can_send.
  rewrite Z.ltb_ge. lia.
Qed.

(** *** No buffer is shared *)

(** Property X4.  In every reachable state no buffer is in two places at
    once: the buffers waiting in the channel, the buffers lying in the
    pool and the buffers in the hands of the producers standing at the
    select are pairwise different.  So the buffer of a producer is
    neither in the channel nor in the pool nor with another producer, and
    it holds the record the producer built. *)
Theorem buffers_not_shared opts t0 acts :
  let s := run acts (New opts t0) in
  NoDup (c_items (ch (lg s)) ++ bufPool (lg s) ++ pending_bufs s) ∧
  ∀ tid a r, senders s !! tid = Some (a, r) →
             ¬ a ∈ c_items (ch (lg s)) ∧ ¬ a ∈ bufPool (lg s) ∧
             heap s !! a = Some r ∧
             ∀ tid' r', senders s !! tid' = Some (a, r') → tid' = tid.
Proof.
  intros s. destruct (heap_inv_run opts t0 acts) as [Hnd _ Hsn _]. fold s in Hnd, Hsn.
  split; [exact Hnd|].
  intros tid a r Hs. unfold owned in Hnd.
  apply NoDup_app in Hnd as (_ & Hn1 & Hnd).
  apply NoDup_app in Hnd as (_ & Hn2 & Hnd).
  pose proof (sender_owned s tid a r Hs) as Hin.
  split_and!.
  - intros Hc. apply (Hn1 a Hc). rewrite elem_of_app. auto.
  - intros Hp. by apply (Hn2 a Hp).
  - by eapply Hsn.
  - intros tid' r' Hs'. unfold pending_bufs in Hnd.
    destruct (decide (tid' = tid)) as [|Hne]; [done|exfalso].
    rewrite <- (map_to_list_delete (senders s) tid (a, r) Hs) in Hnd.
    rewrite fmap_cons in Hnd. apply NoDup_cons in Hnd as [Hnot _]. apply Hnot.
    apply list_elem_of_fmap. exists (tid', (a, r')). split; [done|].
    apply elem_of_map_to_list. by rewrite lookup_delete_ne.
Qed.

(** *** Sync and the flush tick *)

(** Property X5.  In an execution in which [Sync] has not been called
    before, the flush tick of [writerLoop], and a call of [Sync] that
    overlaps no turn of [writerLoop], leave every bufio writer empty:
    every sink has then received exactly the records written so far.
    They write no record, close no sink and touch neither the channel nor
    the producers. *)
Theorem flush_hands_over opts t0 acts a s' :
  let s := run acts (New opts t0) in
  no_sync acts →
  a = ASync ∨ (a = AWriter WTick ∧ wpc s = WLoop) →
  step a s = Ok s' →
  Forall (λ bw, bw_buf bw = []) (bufs (lg s')) ∧
  (∀ i, (i < length (writers (lg s')))%nat → sink_out i (ops s') = concat (h_written s')) ∧
  h_written s' = h_written s ∧ ch (lg s') = ch (lg s) ∧ senders s' = senders s ∧
  heap s' = heap s ∧
  ∀ i, sink_closes i (ops s') = sink_closes i (ops s).
Proof.
  intros s _ Ha H. pose proof (inv_run opts t0 acts) as Hi. fold s in Hi.
  pose proof (inv_step _ _ _ Hi H) as Hi'.
  assert (Hflush : bufs (lg s') = (range_bufs bufio_Flush (bufs (lg s))).1 ∧
                   ops s' = ops s ++ (range_bufs bufio_Flush (bufs (lg s))).2 ∧
                   h_written s' = h_written s ∧ ch (lg s') = ch (lg s) ∧
                   senders s' = senders s ∧ heap s' = heap s).
  { clearbody s. destruct Ha as [->|[-> Hw]]; simpl in H.
    - simplify_eq. unfold Sync. sys_eval. done.
    - unfold writerLoop in H. rewrite Hw in H. case_match; simplify_eq. sys_eval. done. }
  destruct Hflush as (Hb & Ho & Hw & Hc & Hs & Hh).
  assert (He : Forall (λ bw, bw_buf bw = []) (bufs (lg s'))).
  { rewrite Hb. apply range_bufs_Flush_empty. }
  split_and!; try done.
  - intros i Hlt. rewrite <- (si_len _ (inv_shut _ Hi')) in Hlt.
    destruct (lookup_lt_is_Some_2 _ _ Hlt) as [bw Hbw].
    pose proof (inv_stream _ Hi' i bw Hbw) as Hst.
    rewrite Forall_forall in He. rewrite (He bw) in Hst by (by eapply list_elem_of_lookup_2).
    by rewrite app_nil_r in Hst.
  - intros i. rewrite Ho, sink_closes_app.
    rewrite (no_close_closes i (range_bufs bufio_Flush (bufs (lg s))).2).
    + lia.
    + apply range_bufs_no_close.
Qed.

Lemma flush_hands_over_witness :
  sink_out 1 (ops (Sync (run [ALog 1 INFO (B "a") None; ASelect 1 true; AWriter WRecv]
                             (New two_sinks T0)))) =
  concat (h_written (Sync (run [ALog 1 INFO (B "a") None; ASelect 1 true; AWriter WRecv]
                               (New two_sinks T0)))).
Proof.
  exact (proj1 (proj2 (flush_hands_over two_sinks T0
                  [ALog 1 INFO (B "a") None; ASelect 1 true; AWriter WRecv] ASync _
                  eq_refl (or_introl eq_refl) eq_refl)) 1%nat ltac:(vm_compute; lia)).
Defined.

(** *** No step panics *)

(** Property X6.  No step of any goroutine panics in a reachable state:
    [done] is closed at most once, whatever the number of calls of
    [Close], and no level indexes the table of names out of range. *)
Theorem never_panics opts t0 acts a : step a (run acts (New opts t0)) ≠ Panic.
Proof. apply step_no_panic, shut_inv_run. Qed.

(** *** Close *)

(** Property X7.  A call of [Close] returns only when both goroutines have
    returned: [done] is closed, [writerLoop] and [timestampLoop] have left
    their loops, the wait group is at zero and the body of [closeOnce.Do]
    is over; no caller is left inside the body. *)
Theorem Close_returns_after_goroutines opts t0 acts :
  let s := run acts (New opts t0) in
  h_returned s ≠ [] →
  done (lg s) = true ∧ wpc s = WExit ∧ tpc s = TExit ∧ wg (lg s) = 0%nat ∧
  closeOnce (lg s) = OnceDone ∧ ∀ tid, closers s !! tid ≠ Some InBody.
Proof.
  intros s Hret. pose proof (shut_inv_run opts t0 acts) as Hi. fold s in Hi.
  destruct Hi as [_ _ Hwg _ _ _ Htd _ _ Hbody _ Hopen Hclosed].
  assert (Ho : closeOnce (lg s) = OnceDone).
  { destruct (closeOnce (lg s)) eqn:Eo; [..|done]; destruct Hopen as [_ ?]; done. }
  destruct (Hclosed Ho) as (Ew & Et & _).
  split_and!; try done.
  - by apply Htd.
  - by rewrite Hwg, Ew, Et.
  - intros tid Hc. apply Hbody in Hc. congruence.
Qed.

Lemma Close_returns_after_goroutines_witness :
  wg (lg (run (shutdown 0) (New [] T0))) = 0%nat.
Proof.
  exact (proj1 (proj2 (proj2 (proj2 (Close_returns_after_goroutines [] T0 (shutdown 0)
                  ltac:(vm_compute; discriminate)))))).
Defined.

(** Property X8.  In every reachable state every sink has been closed at
    most once, and only a writer that implements [io.Closer]; until the
    body of [closeOnce.Do] is over no sink has been closed. *)
Theorem sinks_closed_at_most_once opts t0 acts i :
  let s := run acts (New opts t0) in
  (sink_closes i (ops s) ≤ 1)%nat ∧
  (sink_closes i (ops s) = 1%nat →
   closeOnce (lg s) = OnceDone ∧ ∃ w, writers (lg s) !! i = Some w ∧ w_closer w = true) ∧
  (closeOnce (lg s) ≠ OnceDone → sink_closes i (ops s) = 0%nat).
Proof.
  intros s. pose proof (shut_inv_run opts t0 acts) as Hi. fold s in Hi.
  destruct Hi as [_ _ _ _ _ _ _ _ _ _ _ Hopen Hclosed].
  assert (Hcase : closeOnce (lg s) ≠ OnceDone ∧ sink_closes i (ops s) = 0%nat ∨
                  closeOnce (lg s) = OnceDone ∧
                  sink_closes i (ops s) =
                    match writers (lg s) !! i with
                    | Some w => if w_closer w then 1%nat else 0%nat
                    | None => 0%nat
                    end).
  { destruct (closeOnce (lg s)) eqn:Eo.
    - left. split; [done|]. apply no_close_closes. by apply Hopen.
    - left. split; [done|]. apply no_close_closes. by apply Hopen.
    - right. split; [done|]. destruct (Hclosed eq_refl) as (_ & _ & w & -> & Hw).
      rewrite sink_closes_app, (no_close_closes i w Hw), sink_closes_close_writers. done. }
  destruct Hcase as [[Hn E]|[Ho E]]; rewrite E.
  - split_and!; [lia|lia|done].
  - destruct (writers (lg s) !! i) as [w|] eqn:Ew; [destruct (w_closer w) eqn:Ec|];
      split_and!; try lia; try done.
    intros _. split; [done|]. by exists w.
Qed.

(** *** After Close has returned *)

Lemma step_ts_returned a s s' :
  step a s = Ok s' →
  h_returned s `prefix_of` h_returned s' ∧
  (tpc s = TExit → ts (lg s') = ts (lg s) ∧ h_published s' = h_published s).
Proof.
  intros H. step_cases H; sys_eval; split; try done; try congruence;
    try (by apply prefix_app_r).
Qed.

(** Property X9.  Once a call of [Close] has returned, nothing that
    happens later reaches a sink or a bufio writer, no record is written,
    and the cached timestamp is no longer refreshed: records logged from
    then on are never delivered. *)
Theorem nothing_after_close opts t0 acts acts2 :
  let s := run acts (New opts t0) in
  h_returned s ≠ [] →
  let s2 := run acts2 s in
  ops s2 = ops s ∧ bufs (lg s2) = bufs (lg s) ∧ h_written s2 = h_written s ∧
  ts (lg s2) = ts (lg s) ∧ h_published s2 = h_published s ∧
  h_returned s `prefix_of` h_returned s2.
Proof.
  intros s Hret. induction acts2 as [|a acts2 IH] using rev_ind; [done|].
  intros s2. subst s2. rewrite run_snoc. cbn zeta in IH.
  destruct IH as (Eo & Eb & Ew & Et & Ep & Er).
  unfold step_or_stay. destruct (step a (run acts2 s)) as [s'| |] eqn:H; try done.
  assert (Hret2 : h_returned (run acts2 s) ≠ []).
  { destruct Er as [k Ek]. rewrite Ek. by destruct (h_returned s). }
  destruct (step_ts_returned _ _ _ H) as [Hp Hts].
  subst s. rewrite <- run_app in *.
  destruct (after_close_silent opts t0 (acts ++ acts2) a s' Hret2 H) as (Ho' & Hb' & Hw').
  assert (Htx : tpc (run (acts ++ acts2) (New opts t0)) = TExit).
  { destruct (shut_inv_run opts t0 (acts ++ acts2)) as [_ _ _ _ _ _ _ _ _ _ _ Hopen Hclosed].
    destruct (closeOnce (lg (run (acts ++ acts2) (New opts t0)))) eqn:Eonce;
      [destruct Hopen as [_ ?]; done..|].
    by destruct (Hclosed eq_refl) as (_ & ? & _). }
  destruct (Hts Htx) as [Ht' Hp'].
  split_and!; try congruence. by etrans.
Qed.

Lemma nothing_after_close_witness :
  ops (run [ALog 1 ERROR (B "late") None; ASelect 1 false; AWriter WRecv; ASync]
           (run (shutdown 0) (New [] T0))) =
  ops (run (shutdown 0) (New [] T0)).
Proof.
  exact (proj1 (nothing_after_close [] T0 (shutdown 0)
                  [ALog 1 ERROR (B "late") None; ASelect 1 false; AWriter WRecv; ASync]
                  ltac:(vm_compute; discriminate))).
Defined.

(** *** The cached timestamp *)

(** Property X10.  In every reachable state the cached timestamp is the
    rendering of the last instant [New] or [timestampLoop] published; the
    instants published are in time order and none is after the clock, so
    a record never carries a timestamp of the future nor one older than
    a timestamp published before it. *)
Theorem timestamp_is_latest opts t0 acts : ts_latest (run acts (New opts t0)).
Proof. apply ts_latest_run. Qed.

(** *** Close can always complete *)

(** Property X11.  [Close] cannot get stuck: from any reachable state in
    which a caller is inside the body of [closeOnce.Do], letting
    [timestampLoop] see [done], then [writerLoop] see [done] and take one
    turn per queued record and one more, makes the wait group reach zero,
    and the caller returns from [Close]. *)
Theorem Close_can_complete opts t0 acts tid :
  let s := run acts (New opts t0) in
  closers s !! tid = Some InBody →
  let n := length (c_items (ch (lg s))) in
  let s' := run ([ATimestamp TDone; AWriter WDone] ++ replicate (S n) (AWriter WRecv)
                 ++ [ACloseBody tid]) s in
  tid ∈ h_returned s' ∧ wpc s' = WExit ∧ tpc s' = TExit ∧ closers s' !! tid = None.
Proof.
  intros s Hc n s'. apply Close_completes; [apply inv_run|done].
Qed.

Lemma Close_can_complete_witness :
  9%nat ∈ h_returned
    (run ([ATimestamp TDone; AWriter WDone] ++ replicate 2 (AWriter WRecv) ++ [ACloseBody 9])
         (run [ALog 1 INFO (B "a") None; ASelect 1 true; AClose 9] (New two_sinks T0))).
Proof.
  exact (proj1 (Close_can_complete two_sinks T0
                  [ALog 1 INFO (B "a") None; ASelect 1 true; AClose 9] 9%nat
                  ltac:(vm_compute; reflexivity))).
Defined.

(** *** A full channel *)

(** Property X12.  A producer waits at the select only when [done] is
    open and the channel is full; [writerLoop] is then in its loop with a
    record to receive, and after one receive the producer's send goes
    through: the record enters the channel. *)
Theorem blocked_producer_unblocks opts t0 acts tid a r first :
  let s := run acts (New opts t0) in
  senders s !! tid = Some (a, r) →
  step (ASelect tid first) s = Blocked →
  done (lg s) = false ∧ can_send (ch (lg s)) = false ∧ wpc s = WLoop ∧
  ∃ s1 s2, step (AWriter WRecv) s = Ok s1 ∧ step (ASelect tid first) s1 = Ok s2 ∧
           h_enq s2 = h_enq s ++ [(tid, r)] ∧
           c_items (ch (lg s2)) = drop 1 (c_items (ch (lg s))) ++ [a].
Proof.
  intros s Hs Hb. pose proof (shut_inv_run opts t0 acts) as Hi. fold s in Hi.
  pose proof (bounded_run opts t0 acts) as Hbd. fold s in Hbd. unfold bounded in Hbd.
  clearbody s. simpl in Hb. unfold log_select in Hb. rewrite Hs in Hb.
  destruct (done (lg s)) eqn:Ed.
  { destruct (can_send (ch (lg s)) && _); done. }
  destruct (can_send (ch (lg s))) eqn:Ec; [done|]. clear Hb.
  assert (Ew : wpc s = WLoop).
  { destruct (wpc s) eqn:Ew; [done|..];
      (destruct (si_wdone _ Hi) as [? _]; [rewrite Ew; done|congruence]). }
  split_and!; try done.
  unfold can_send in Ec. apply Z.ltb_ge in Ec. pose proof (si_cap _ Hi) as Hcap.
  destruct (c_items (ch (lg s))) as [|b rest] eqn:Ei; [simpl in Ec; lia|].
  simpl. unfold writerLoop, recv_line, chan_recv. rewrite Ew, Ei. simpl.
  eexists; eexists. split; [reflexivity|].
  unfold log_select. sys_eval. rewrite Hs, Ed.
  assert (Hroom : can_send (mkChan rest (c_cap (ch (lg s)))) = true).
  { unfold can_send. apply Z.ltb_lt. simpl. rewrite length_cons in Hbd. lia. }
  rewrite Hroom. simpl. split; [reflexivity|]. sys_eval. rewrite drop_0. done.
Qed.

Lemma blocked_producer_unblocks_witness :
  wpc (run [ALog 1 INFO (B "a") None; ASelect 1 true; ALog 2 INFO (B "b") None]
           (New [WithChannelSize 1] T0)) = WLoop.
Proof.
  exact (proj1 (proj2 (proj2 (blocked_producer_unblocks [WithChannelSize 1] T0
                  [ALog 1 INFO (B "a") None; ASelect 1 true; ALog 2 INFO (B "b") None]
                  2%nat 1%nat (B "2024-05-01 10:00:00.000 INFO b" ++ [x0a]) true
                  ltac:(vm_compute; reflexivity) ltac:(vm_compute; reflexivity))))).
Defined.

(** *** The level methods *)

Lemma method_spec_holds lvl name tag tid msg pick s :
  levelTag lvl = Some tag → tag = B name →
  busy tid s = false → pick_ok pick s →
  method_spec (λ tid msg pick s, log tid lvl msg pick s)
              (λ tid msg pick s, logf tid lvl msg pick s) lvl name tid msg pick s.
Proof.
  intros Htag -> Hb Hp. unfold method_spec. cbn zeta.
  assert (Hrec : log_record (ts (lg s)) lvl msg =
                 Some (ts (lg s) ++ B " " ++ B name ++ B " " ++ msg ++ [x0a])).
  { unfold log_record. rewrite Htag. simpl. by rewrite <- !app_assoc. }
  case_bool_decide as Hl.
  - assert (He : IsLevelEnabled lvl (lg s) = true).
    { unfold IsLevelEnabled. apply Z.geb_le. lia. }
    destruct (log_enabled s tid lvl msg pick Hb He Hp) as (s1 & a & r & H1 & Hr & Hs1 & Hi1 & _).
    destruct (log_enabled (note tid CSprintf (note tid CLoadLevel s)) tid lvl msg pick
                Hb He Hp) as (s2 & a2 & r2 & H2 & Hr2 & Hs2 & Hi2 & _).
    change (ts (lg (note tid CSprintf (note tid CLoadLevel s)))) with (ts (lg s)) in Hr2.
    rewrite Hrec in Hr, Hr2. simplify_eq.
    assert (a2 = a) as ->.
    { simpl in H1, H2. unfold log in H1, H2. rewrite Hb in H1.
      change (busy tid (note tid CSprintf (note tid CLoadLevel s))) with (busy tid s) in H2.
      rewrite Hb in H2.
      change (lg (note tid CLoadLevel s)) with (lg s) in H1.
      change (lg (note tid CLoadLevel (note tid CSprintf (note tid CLoadLevel s))))
        with (lg s) in H2.
      rewrite He in H1, H2. simpl in H1, H2.
      destruct pick as [k|]; unfold pool_Get in H1, H2; sys_eval.
      - destruct (bufPool (lg s) !! k) as [b|] eqn:Ek; simpl in H1, H2; [|done].
        sys_eval. rewrite Hrec in H1, H2. simplify_eq. sys_eval.
        rewrite lookup_insert_eq in Hs1, Hs2. congruence.
      - sys_eval. rewrite Hrec in H1, H2. simplify_eq. sys_eval.
        rewrite lookup_insert_eq in Hs1, Hs2. congruence. }
    exists s1, s2, a. split_and!; try done.
    simpl in H2. unfold logf. rewrite Hb.
    change (lg (note tid CLoadLevel s)) with (lg s). rewrite He. simpl. exact H2.
  - assert (He : IsLevelEnabled lvl (lg s) = false).
    { unfold IsLevelEnabled. rewrite Z.geb_leb. apply Z.leb_gt. lia. }
    unfold logf, log. rewrite Hb.
    change (lg (note tid CLoadLevel s)) with (lg s). rewrite He. done.
Qed.

(** Property X13.  [Debug], [Print], [Warn] and [Error], and their
    formatting twins, log at DEBUG, INFO, WARN and ERROR: a call below the
    threshold only loads the threshold; any other call leaves with the
    producer the record made of the cached timestamp, a space, the name of
    the level, a space, the message and a newline.  The twin builds the
    same record from the formatted message. *)
Theorem level_methods tid msg pick s :
  busy tid s = false → pick_ok pick s →
  method_spec Debug Debugf DEBUG "DEBUG" tid msg pick s ∧
  method_spec Print Printf INFO "INFO" tid msg pick s ∧
  method_spec Warn Warnf WARN "WARN" tid msg pick s ∧
  method_spec Error Errorf ERROR "ERROR" tid msg pick s.
Proof.
  intros Hb Hp.
  split_and!; eapply method_spec_holds; try done.
Qed.

Lemma level_methods_witness :
  method_spec Debug Debugf DEBUG "DEBUG" 1 (B "x") None (std T0) ∧
  method_spec Error Errorf ERROR "ERROR" 1 (B "x") None (std T0).
Proof.
  pose proof (level_methods 1 (B "x") None (std T0) ltac:(vm_compute; reflexivity) I)
    as (Hd & _ & _ & He).
  exact (conj Hd He).
Defined.

(** *** Close twice, and the select with [done] closed, on samples *)

Lemma Close_again_witness :
  step (AClose 5) (run (shutdown 0) (New [] T0)) =
  Ok (note_returned 5 (run (shutdown 0) (New [] T0))).
Proof.
  exact (Close_again [] T0 (shutdown 0) 5%nat
           ltac:(vm_compute; discriminate) ltac:(vm_compute; reflexivity)).
Defined.

Lemma select_after_done_witness :
  ∃ s', step (ASelect 1 false)
             (run [ALog 1 INFO (B "a") None; AClose 9] (New [] T0)) = Ok s'.
Proof.
  destruct (select_after_done (run [ALog 1 INFO (B "a") None; AClose 9] (New [] T0))
              1%nat 0%nat (B "2024-05-01 10:00:00.000 INFO a" ++ [x0a]) false
              ltac:(vm_compute; reflexivity) ltac:(vm_compute; reflexivity)) as (s' & H & _).
  exists s'. exact H.
Defined.

End SpeedlogFacts.

(** ** The channel variant with the non-blocking send (part_000) *)

(** Counterexample to claim C1 as stated: after 4096 accepted records and
    no receive the channel is full; the logger is running and INFO passes
    the level check, yet the next call takes the [default] case: the
    record is gone, the channel is as before, only the pool has changed. *)
Lemma part000_drops_on_full_channel :
  Part000.New "" None = Some part000_default ∧
  let lf := part000_log_times 4096 part000_default in
  Part000.done lf = false ∧ Part000.IsLevelEnabled INFO lf = true ∧
  length (c_items (Part000.ch lf)) = 4096%nat ∧
  Part000.log INFO (B "lost") T0 None true lf =
    Ok (Part000.set_bufPool
          (Part000.bufPool lf ++ [B "2024-05-01 10:00:00 [INFO] lost" ++ [x0a]]) lf,
        DroppedFull, [CLoadLevel; CTimeNow; CPoolGet; CTimeFormat; CPoolPut]).
Proof. split; [reflexivity|]. vm_compute. repeat split; reflexivity. Qed.

(** With room in the channel and [done] open the same call sends. *)
Lemma part000_log_sends lvl msg t pick first l :
  Part000.level l ≤ lvl → DEBUG ≤ lvl ≤ ERROR → can_send (Part000.ch l) = true →
  Part000.done l = false →
  (match pick with None => True | Some k => is_Some (Part000.bufPool l !! k) end) →
  ∃ l' r cs, Part000.log lvl msg t pick first l = Ok (l', Enqueued, cs) ∧
             bracket_record (Format t Part000.layout) lvl msg = Some r ∧
             c_items (Part000.ch l') = c_items (Part000.ch l) ++ [r].
Proof.
  intros Hle Hin Hroom Hd Hp. unfold Part000.log.
  rewrite (proj2 (Z.ltb_ge lvl (Part000.level l))) by lia.
  assert (∃ r, bracket_record (Format t Part000.layout) lvl msg = Some r) as [r Hr].
  { unfold bracket_record, index_levelNames, DEBUG, ERROR in *.
    rewrite (proj2 (andb_true_iff _ _)); last first.
    { split; [apply Z.leb_le|apply Z.ltb_lt]; simpl; lia. }
    destruct (lookup_lt_is_Some_2 levelNames (Z.to_nat lvl)) as [n ->]; [simpl; lia|].
    simpl. eauto. }
  unfold AppendFormat. simpl. rewrite Hr.
  destruct pick as [k|]; simpl.
  - destruct Hp as [b ->]. simpl. rewrite Hroom, Hd. simpl. eauto 10.
  - rewrite Hroom, Hd. simpl. eauto 10.
Qed.

(** Counterexample to claim C6 as stated: [log] of this variant calls
    [time.Now] and the formatter on every call that passes the level
    check, and loads no cached timestamp; the record carries the rendering
    of the instant of the call. *)
Lemma part000_log_reads_clock :
  match Part000.log INFO (B "x") T1 None true part000_default with
  | Ok (l', o, cs) =>
      o = Enqueued ∧ existsb is_clock_call cs = true ∧ existsb is_ts_load cs = false ∧
      c_items (Part000.ch l') = [Format T1 Part000.layout ++ B " [INFO] x" ++ [x0a]]
  | _ => False
  end.
Proof. vm_compute. repeat split; reflexivity. Qed.

(** Counterexample to claim C9 as stated: [SetLevel] of this variant
    ignores a level outside DEBUG..ERROR. *)
Lemma part000_SetLevel_guard :
  is_int 7 ∧
  Part000.GetLevel (Part000.SetLevel 7 part000_default) = INFO ∧
  Part000.GetLevel (Part000.SetLevel 7 part000_default) ≠ 7.
Proof.
  split; [unfold is_int; lia|]. split; [reflexivity|]. vm_compute. discriminate.
Qed.

Lemma part000_SetLevel_out_of_range lvl l :
  ¬ (DEBUG ≤ lvl ≤ ERROR) → Part000.SetLevel lvl l = l.
Proof.
  unfold Part000.SetLevel, DEBUG, ERROR. intros H.
  destruct (lvl <? 0) eqn:E1; [done|]. destruct (lvl >? 3) eqn:E2; [done|].
  apply Z.ltb_ge in E1. rewrite Z.gtb_ltb in E2. apply Z.ltb_ge in E2. lia.
Qed.

Lemma int32_small x : is_int32 x → int32 x = x.
Proof.
  unfold is_int32, int32. intros H.
  rewrite Z.mod_small by lia. lia.
Qed.

(** In package speedlog the threshold is stored as an int32, so a level
    that does not fit in 32 bits comes back changed. *)
Lemma speedlog_SetLevel_wraps l :
  is_int (2 ^ 32) ∧ Speedlog.GetLevel (Speedlog.SetLevel (2 ^ 32) l) = 0.
Proof. split; [unfold is_int; lia|reflexivity]. Qed.

Lemma speedlog_SetLevel_int32 lvl l :
  is_int32 lvl → Speedlog.GetLevel (Speedlog.SetLevel lvl l) = lvl.
Proof. intros H. unfold Speedlog.GetLevel, Speedlog.SetLevel. simpl. by apply int32_small. Qed.

(** In the channel variant only [SetLevel] changes the threshold. *)
Lemma part000_log_keeps_level lvl msg t pick first l l' o cs :
  Part000.log lvl msg t pick first l = Ok (l', o, cs) → Part000.level l' = Part000.level l.
Proof.
  unfold Part000.log. destruct (lvl <? Part000.level l); [by intros [= <- _ _]|].
  destruct (Part000.pool_Get pick l) as [[b l1]|] eqn:Ep; [|done].
  assert (Part000.level l1 = Part000.level l) as E.
  { destruct pick as [k|]; simpl in Ep.
    - destruct (Part000.bufPool l !! k); simplify_eq/=. done.
    - by simplify_eq. }
  destruct (bracket_record _ lvl msg) as [r|]; [|done].
  repeat case_match; intros [= <- _ _]; exact E.
Qed.

Lemma part000_level_frame_step a s s' :
  Part000API.is_set_level a = false → Part000API.step a s = Ok s' →
  Part000.level (Part000API.lg s') = Part000.level (Part000API.lg s).
Proof.
  destruct a as [lvl msg t pick first| |lvl]; [| |done]; intros _; simpl.
  - destruct (Part000.log lvl msg t pick first (Part000API.lg s)) as [[[l o] cs]| |] eqn:El;
      [|by intros [= <-]|done].
    intros [= <-]. simpl. by eapply part000_log_keeps_level.
  - unfold Part000API.runWriter_recv, chan_recv.
    destruct (c_items (Part000.ch (Part000API.lg s))); simpl; by intros [= <-].
Qed.

Lemma part000_level_frame_run acts : ∀ s s',
  Part000API.no_set_level acts → Part000API.run acts s = Ok s' →
  Part000.level (Part000API.lg s') = Part000.level (Part000API.lg s).
Proof.
  unfold Part000API.no_set_level.
  induction acts as [|a acts IH]; intros s s' Hn; simpl; [by intros [= <-]|].
  simpl in Hn. apply andb_true_iff in Hn as [Ha Hn]. apply negb_true_iff in Ha.
  destruct (Part000API.step a s) as [s1| |] eqn:E; [|done..].
  intros H. rewrite (IH s1 s' Hn H). by eapply part000_level_frame_step.
Qed.

(** Claim C9, for the levels DEBUG..ERROR.  In package speedlog and in the
    channel variant [GetLevel] after [SetLevel lvl] gives [lvl], at once
    and after any steps of the logger that are not calls of [SetLevel];
    in every such state [IsLevelEnabled] answers with [lvl] as the
    threshold, and in package speedlog a call of [log] or [logf] below
    [lvl] is filtered there: it only loads the threshold. *)
Theorem set_then_get_level lvl :
  DEBUG ≤ lvl ≤ ERROR →
  (∀ l, Speedlog.GetLevel (Speedlog.SetLevel lvl l) = lvl) ∧
  (∀ l, Part000.GetLevel (Part000.SetLevel lvl l) = lvl) ∧
  (∀ s, ∃ s', Speedlog.step (Speedlog.ASetLevel lvl) s = Ok s' ∧
              ∀ acts, Speedlog.no_set_level acts →
                let s2 := Speedlog.run acts s' in
                Speedlog.GetLevel (Speedlog.lg s2) = lvl ∧
                (∀ lvl', Speedlog.IsLevelEnabled lvl' (Speedlog.lg s2) =
                         bool_decide (lvl ≤ lvl')) ∧
                (∀ tid lvl' msg pick,
                   lvl' < lvl → Speedlog.busy tid s2 = false →
                   Speedlog.step (Speedlog.ALog tid lvl' msg pick) s2 =
                     Ok (Speedlog.note tid CLoadLevel s2) ∧
                   Speedlog.step (Speedlog.ALogf tid lvl' msg pick) s2 =
                     Ok (Speedlog.note tid CLoadLevel s2))) ∧
  (∀ l o se acts s2,
     Part000API.no_set_level acts →
     Part000API.run acts (Part000API.mkSystem (Part000.SetLevel lvl l) o se) = Ok s2 →
     Part000.GetLevel (Part000API.lg s2) = lvl ∧
     ∀ lvl', Part000.IsLevelEnabled lvl' (Part000API.lg s2) = bool_decide (lvl ≤ lvl')).
Proof.
  unfold DEBUG, ERROR. intros H.
  assert (H32 : int32 lvl = lvl) by (apply int32_small; unfold is_int32; lia).
  assert (Hp : ∀ l, Part000.SetLevel lvl l = Part000.set_level lvl l).
  { intros l. unfold Part000.SetLevel, DEBUG, ERROR.
    rewrite (proj2 (Z.ltb_ge lvl 0)) by lia.
    rewrite Z.gtb_ltb, (proj2 (Z.ltb_ge 3 lvl)) by lia. simpl. by rewrite H32. }
  assert (Hge : ∀ lvl', (lvl' >=? lvl) = bool_decide (lvl ≤ lvl')).
  { intros lvl'. rewrite Z.geb_leb.
    case_bool_decide; [apply Z.leb_le|apply Z.leb_gt]; lia. }
  split_and!.
  - intros l. unfold Speedlog.GetLevel, Speedlog.SetLevel. simpl. done.
  - intros l. by rewrite Hp.
  - intros s. eexists. split; [reflexivity|].
    intros acts Hn.
    set (s2 := Speedlog.run acts (Speedlog.on_lg (Speedlog.SetLevel lvl) s)).
    assert (Hl : Speedlog.level (Speedlog.lg s2) = lvl).
    { subst s2. rewrite level_frame_run by done. simpl. exact H32. }
    split_and!.
    + exact Hl.
    + intros lvl'. unfold Speedlog.IsLevelEnabled. rewrite Hl. apply Hge.
    + intros tid lvl' msg pick Hlt Hb. simpl. unfold Speedlog.logf, Speedlog.log.
      rewrite Hb.
      change (Speedlog.lg (Speedlog.note tid CLoadLevel s2)) with (Speedlog.lg s2).
      unfold Speedlog.IsLevelEnabled. rewrite Hl, Hge, bool_decide_eq_false_2 by lia.
      done.
  - intros l o se acts s2 Hn Hr.
    assert (Hl : Part000.level (Part000API.lg s2) = lvl).
    { rewrite (part000_level_frame_run _ _ _ Hn Hr). simpl. by rewrite Hp. }
    split; [exact Hl|].
    intros lvl'. unfold Part000.IsLevelEnabled. rewrite Hl. apply Hge.
Qed.

Lemma set_then_get_level_witness :
  Part000.GetLevel (Part000.SetLevel WARN part000_default) = WARN ∧
  Speedlog.GetLevel
    (Speedlog.lg (Speedlog.run two_records_flushed
                    (Speedlog.run [Speedlog.ASetLevel WARN] (Speedlog.New [] T0)))) = WARN ∧
  ∃ s2, Part000API.run part000_two_calls
          (Part000API.mkSystem (Part000.SetLevel WARN part000_default) [] []) = Ok s2 ∧
        Part000.GetLevel (Part000API.lg s2) = WARN.
Proof.
  pose proof (set_then_get_level WARN ltac:(unfold DEBUG, WARN, ERROR; lia))
    as (_ & Hp & Hs & Hr).
  split; [exact (Hp part000_default)|]. split.
  - destruct (Hs (Speedlog.New [] T0)) as (s' & E & Hf).
    change (Ok (Speedlog.on_lg (Speedlog.SetLevel WARN) (Speedlog.New [] T0)) = Ok s') in E.
    injection E as <-.
    exact (proj1 (Hf two_records_flushed eq_refl)).
  - destruct (Part000API.run part000_two_calls
                (Part000API.mkSystem (Part000.SetLevel WARN part000_default) [] []))
      as [s2| |] eqn:E; [|exfalso; vm_compute in E; discriminate..].
    exists s2. split; [reflexivity|].
    exact (proj1 (Hr part000_default [] [] part000_two_calls s2 eq_refl E)).
Defined.

(** Claim C4 on the channel variant: its [Close] has no guard, so a second
    call closes the closed channel [done] and panics. *)
Theorem part000_Close_twice_panics l ops l1 ops1 :
  Part000.Close l ops = Ok (l1, ops1) → Part000.Close l1 ops1 = Panic.
Proof.
  unfold Part000.Close. destruct (Part000.done l) eqn:E; [done|].
  destruct (Part000.drain _ _) as [bs o1]. simpl.
  intros [= <- <-]. done.
Qed.

Lemma part000_Close_twice_panics_witness :
  Part000.Close (Part000.set_done true (Part000.set_wg 0 part000_default)) [OpClose 0] = Panic.
Proof.
  exact (part000_Close_twice_panics part000_default [] _ _ eq_refl).
Defined.

(** ** The mutex variant (main.go) *)

(** Counterexample to claim C8 as stated: the record of this variant has
    the level name between square brackets. *)
Lemma maingo_record_has_brackets :
  MainGo.New "" None = Some maingo_default ∧
  match MainGo.log INFO (B "m") T0 None maingo_default [] with
  | Ok (_, ops, o, _) =>
      o = Written ∧
      sink_out 0 ops = Format T0 MainGo.layout ++ B " [INFO] m" ++ [x0a] ∧
      sink_out 0 ops ≠
        Format T0 MainGo.layout ++ B " " ++ B "INFO" ++ B " " ++ B "m" ++ [x0a]
  | _ => False
  end.
Proof.
  split; [reflexivity|]. vm_compute. split; [reflexivity|]. split; [reflexivity|discriminate].
Qed.

(** [Close] of this variant has no guard either: a second call closes
    every closable sink again. *)
Lemma maingo_Close_twice :
  let '(l1, o1) := MainGo.Close maingo_default [] in
  let '(l2, o2) := MainGo.Close l1 o1 in
  sink_closes 0 o1 = 1%nat ∧ sink_closes 0 o2 = 2%nat.
Proof. vm_compute. split; reflexivity. Qed.

(** ** More on the channel variant (part_000) *)

Section Part000Facts.

Import Part000 Part000API.

Ltac p_eval :=
  cbn [lg ops sent fst snd level writers bufs ch done wg bufPool c_items c_cap
       set_level set_bufs set_ch set_done set_wg set_bufPool].

Lemma bracket_record_in_range stamp lvl msg :
  DEBUG ≤ lvl ≤ ERROR → ∃ r, bracket_record stamp lvl msg = Some r.
Proof.
  unfold DEBUG, ERROR. intros H.
  assert (Hc : lvl = 0 ∨ lvl = 1 ∨ lvl = 2 ∨ lvl = 3) by lia.
  destruct Hc as [Hc|[Hc|[Hc|Hc]]]; subst lvl; eexists; reflexivity.
Qed.

Lemma bracket_record_out_of_range stamp lvl msg :
  ¬ (DEBUG ≤ lvl ≤ ERROR) → bracket_record stamp lvl msg = None.
Proof.
  unfold DEBUG, ERROR, bracket_record, index_levelNames. intros H.
  destruct (0 <=? lvl) eqn:E1; [|done]. destruct (lvl <? _) eqn:E2; [|done].
  apply Z.leb_le in E1. apply Z.ltb_lt in E2. simpl in E2. lia.
Qed.

(** Property X16.  [log] of the channel variant never waits: for a level
    in DEBUG..ERROR it returns at once, having filtered the call (exactly
    when the level is below the threshold), sent the record (only with
    room in the channel), or dropped it, because [done] is closed or
    because the channel is full.  A dropped record leaves no trace: the
    channel, the bufio writers and the threshold are as before. *)
Theorem part000_log_never_waits lvl msg t pick first l :
  DEBUG ≤ lvl ≤ ERROR → pick_ok pick l →
  ∃ l' o cs r,
    log lvl msg t pick first l = Ok (l', o, cs) ∧
    bracket_record (Format t layout) lvl msg = Some r ∧
    level l' = level l ∧ bufs l' = bufs l ∧ done l' = done l ∧ writers l' = writers l ∧
    match o with
    | Filtered => lvl < level l ∧ l' = l
    | Enqueued => level l ≤ lvl ∧ can_send (ch l) = true ∧
                  (done l = false ∨ first = true) ∧ ch l' = chan_send r (ch l)
    | DroppedClosing => level l ≤ lvl ∧ done l = true ∧ ch l' = ch l
    | DroppedFull => level l ≤ lvl ∧ done l = false ∧ can_send (ch l) = false ∧
                     ch l' = ch l
    | Written => False
    end.
Proof.
  intros Hr Hp. destruct (bracket_record_in_range (Format t layout) lvl msg Hr) as [r Er].
  unfold log. destruct (lvl <? level l) eqn:El.
  { apply Z.ltb_lt in El. exists l, Filtered, [CLoadLevel], r. done. }
  apply Z.ltb_ge in El.
  assert (∃ b l1, pool_Get pick l = Some (b, l1) ∧ level l1 = level l ∧ bufs l1 = bufs l ∧
                  done l1 = done l ∧ writers l1 = writers l ∧ ch l1 = ch l)
    as (b & l1 & -> & E1 & E2 & E3 & E4 & E5).
  { destruct pick as [k|]; simpl.
    - destruct Hp as [b Hb]. rewrite Hb. simpl. by eexists _, _.
    - by eexists _, _. }
  change (AppendFormat t [] layout) with (Format t layout). rewrite Er.
  cbn [ch done set_bufPool]. rewrite E5, E3.
  destruct (can_send (ch l)) eqn:Ec; destruct (done l) eqn:Ed; destruct first; simpl;
    eexists _, _, _, r; (split; [reflexivity|]); simpl; rewrite ?E1, ?E2, ?E3, ?E4, ?E5;
    split_and!; try done; auto.
Qed.

Lemma part000_log_never_waits_witness :
  ∃ l' o cs, Warn (B "w") T0 None false part000_default = Ok (l', o, cs).
Proof.
  destruct (part000_log_never_waits WARN (B "w") T0 None false part000_default
              ltac:(vm_compute; split; discriminate) I) as (l' & o & cs & _ & H & _).
  exists l', o, cs. exact H.
Defined.

(** *** The logger at work *)

Lemma work_inv_log lvl msg t pick first s l o cs :
  work_inv s → log lvl msg t pick first (lg s) = Ok (l, o, cs) →
  work_inv {| lg := l; ops := ops s;
              sent := if o is Enqueued
                      then sent s ++ [default [] (last (c_items (ch l)))]
                      else sent s |}.
Proof.
  intros [Hst Hnc Hbd Hcap Hop Hlv Hbf]. unfold log.
  destruct (lvl <? level (lg s)); [intros [= <- <- <-]; by split|].
  destruct (pool_Get pick (lg s)) as [[b l1]|] eqn:Ep; [|done].
  assert (level l1 = level (lg s) ∧ bufs l1 = bufs (lg s) ∧ done l1 = done (lg s) ∧
          writers l1 = writers (lg s) ∧ ch l1 = ch (lg s)) as (E1 & E2 & E3 & E4 & E5).
  { destruct pick as [k|]; simpl in Ep.
    - destruct (bufPool (lg s) !! k); simplify_eq/=. done.
    - by simplify_eq. }
  destruct (bracket_record _ lvl msg) as [r|]; [|done].
  cbn [ch done set_bufPool]. rewrite E5, E3, Hop. simpl.
  destruct (can_send (ch (lg s))) eqn:Ec; simpl; intros [= <- <- <-]; simpl.
  - unfold can_send in Ec. apply Z.ltb_lt in Ec.
    split; simpl; rewrite ?E1, ?E2, ?E3, ?E4, ?E5; try done.
    + intros i bw Hbw. rewrite last_snoc. simpl.
      rewrite !concat_app, !app_assoc. f_equal.
      rewrite <- app_assoc. by apply Hst.
    + rewrite length_app. simpl. lia.
  - split; simpl; rewrite ?E1, ?E2, ?E3, ?E4, ?E5; done.
Qed.

Lemma runWriter_recv_Some l o l' o' :
  runWriter_recv l o = Some (l', o') →
  ∃ buf rest, c_items (ch l) = buf :: rest ∧
              l' = set_bufs (range_bufs (bufio_Write buf) (bufs l)).1
                     (set_ch (mkChan rest (c_cap (ch l))) l) ∧
              o' = o ++ (range_bufs (bufio_Write buf) (bufs l)).2.
Proof.
  unfold runWriter_recv, chan_recv. destruct (c_items (ch l)) as [|buf rest]; [done|].
  intros H. exists buf, rest. split; [done|]. by injection H as <- <-.
Qed.

Lemma work_inv_recv s buf rest :
  c_items (ch (lg s)) = buf :: rest → work_inv s →
  work_inv {| lg := set_bufs (range_bufs (bufio_Write buf) (bufs (lg s))).1
                      (set_ch (mkChan rest (c_cap (ch (lg s)))) (lg s));
              ops := ops s ++ (range_bufs (bufio_Write buf) (bufs (lg s))).2;
              sent := sent s |}.
Proof.
  intros Ei [Hst Hnc Hbd Hcap Hop Hlv Hbf]. split; p_eval; try done.
  - intros i bw. rewrite range_bufs_lookup.
    destruct (bufs (lg s) !! i) as [bw0|] eqn:E0; [|done]. intros Hbw.
    assert (bw = (bufio_Write buf bw0).1) as -> by (by injection Hbw). clear Hbw.
    rewrite sink_out_app, sink_out_range, E0.
    rewrite <- (Hst i bw0 E0), Ei. rewrite concat_cons, <- !app_assoc. f_equal.
    rewrite !app_assoc. f_equal. apply bufio_Write_stream.
  - apply no_close_app. split; [done|apply range_bufs_no_close].
  - rewrite Ei, length_cons in Hbd. lia.
  - by rewrite range_bufs_length.
Qed.

Lemma work_inv_step a s s' : work_inv s → step a s = Ok s' → work_inv s'.
Proof.
  intros I. destruct a as [lvl msg t pick first| |lvl]; cbn [step].
  - destruct (log lvl msg t pick first (lg s)) as [[[l o] cs]| |] eqn:El; [|congruence|done].
    intros [= <-]. by eapply work_inv_log.
  - destruct (runWriter_recv (lg s) (ops s)) as [[l o]|] eqn:Er; [|by intros [= <-]].
    apply runWriter_recv_Some in Er as (buf & rest & Ei & -> & ->).
    intros [= <-]. by apply work_inv_recv.
  - intros [= <-]. destruct I as [Hst Hnc Hbd Hcap Hop Hlv Hbf].
    assert (Hl : ∀ l, level (SetLevel lvl l) = level l ∨
                      (DEBUG ≤ lvl ≤ ERROR ∧ level (SetLevel lvl l) = lvl)).
    { intros l. unfold SetLevel, DEBUG, ERROR.
      destruct (lvl <? 0) eqn:E1; [by left|]. destruct (lvl >? 3) eqn:E2; [by left|].
      apply Z.ltb_ge in E1. rewrite Z.gtb_ltb in E2. apply Z.ltb_ge in E2.
      right. split; [lia|]. simpl. unfold int32. rewrite Z.mod_small; lia. }
    assert (He : bufs (SetLevel lvl (lg s)) = bufs (lg s) ∧
                 ch (SetLevel lvl (lg s)) = ch (lg s) ∧
                 done (SetLevel lvl (lg s)) = done (lg s) ∧
                 writers (SetLevel lvl (lg s)) = writers (lg s)).
    { unfold SetLevel. by destruct (_ || _). }
    destruct He as (E1 & E2 & E3 & E4).
    split; simpl; rewrite ?E1, ?E2, ?E3, ?E4; try done.
    destruct (Hl (lg s)) as [->|[? ->]]; done.
Qed.


Lemma work_inv_New filePath opened l : New filePath opened = Some l → work_inv (start l).
Proof.
  unfold New. case_bool_decide.
  - intros [= <-]. split; simpl; try done.
    + intros [|i] bw; simpl; [|done]. by intros [= <-].
    + constructor.
  - destruct opened as [file|]; simpl; [|done].
    intros [= <-]. split; simpl; try done.
    + intros [|[|i]] bw; simpl; [..|done]; by intros [= <-].
    + constructor.
Qed.

Lemma part000_step_no_panic a s : method_level a → step a s ≠ Panic.
Proof.
  destruct a as [lvl msg t pick first| |lvl]; simpl; try done.
  - intros Hl. unfold log. destruct (lvl <? _); [done|].
    destruct (pool_Get pick (lg s)) as [[b l1]|]; [|done].
    destruct (bracket_record_in_range (AppendFormat t [] layout) lvl msg Hl) as [r ->].
    by repeat case_match.
  - by destruct (runWriter_recv _ _) as [[? ?]|].
Qed.

(** Property X17.  Before the first tick of [autoFlush] and as long as
    [Sync] is not called: however the calls of the level methods and of
    [SetLevel] and the turns of [runWriter] follow one another, nothing
    panics, and: what a sink has received, then what its bufio writer
    holds, then the records waiting in the channel make up exactly the
    records sent, in the order they were sent; no sink has been closed;
    the channel holds at most 4096 records; and the threshold is one of
    the four levels. *)
Theorem part000_at_work filePath opened l acts :
  New filePath opened = Some l → Forall method_level acts →
  ∃ s, run acts (start l) = Ok s ∧ work_inv s.
Proof.
  intros Hn Hm. pose proof (work_inv_New _ _ _ Hn) as I.
  generalize dependent (start l). clear Hn.
  induction Hm as [|a acts Ha _ IH]; intros s I.
  - by exists s.
  - simpl. destruct (step a s) as [s1| |] eqn:E.
    + apply IH. by eapply work_inv_step.
    + destruct a; simpl in E; repeat case_match; simplify_eq.
    + by apply part000_step_no_panic in E.
Qed.

Lemma part000_at_work_witness :
  ∃ s, run [ALog INFO (B "x") T0 None true; ARecv; ASetLevel DEBUG] (start part000_default) =
       Ok s ∧
       work_inv s.
Proof.
  apply (part000_at_work "" None part000_default _ eq_refl).
  apply List.Forall_cons; [vm_compute; split; discriminate|].
  apply List.Forall_cons; [exact I|]. apply List.Forall_cons; [exact I|].
  apply List.Forall_nil.
Defined.

(** *** Close *)




End Part000Facts.

(** ** More on the mutex variant (main.go) *)

Section MainGoFacts.

Import MainGo MainGoAPI.

(** Property X19.  [log] of the mutex variant writes through, as long as
    no sink has been closed: a call at a level in DEBUG..ERROR below the
    threshold changes nothing; any other returns with the record written
    to every bufio writer and flushed, so that every sink has received
    what its bufio writer held before and then the record, and nothing
    stays buffered.  No sink is closed and the buffer goes back to the
    pool. *)
Theorem maingo_log_writes_through lvl msg t pick l ops :
  DEBUG ≤ lvl ≤ ERROR → pick_ok pick l → no_close ops →
  ∃ l' ops' o cs r,
    log lvl msg t pick l ops = Ok (l', ops', o, cs) ∧
    bracket_record (Format t layout) lvl msg = Some r ∧
    level l' = level l ∧ writers l' = writers l ∧ no_close ops' ∧
    if lvl <? level l
    then o = Filtered ∧ l' = l ∧ ops' = ops
    else o = Written ∧
         Forall (λ bw, bw_buf bw = []) (bufs l') ∧
         length (bufs l') = length (bufs l) ∧
         (∀ i bw, bufs l !! i = Some bw →
                  sink_out i ops' = sink_out i ops ++ bw_buf bw ++ r) ∧
         last (bufPool l') = Some r.
Proof.
  intros Hr Hp Hnc. unfold log.
  assert (∃ r, bracket_record (Format t layout) lvl msg = Some r) as [r Er].
  { unfold DEBUG, ERROR in Hr.
    assert (Hc : lvl = 0 ∨ lvl = 1 ∨ lvl = 2 ∨ lvl = 3) by lia.
    destruct Hc as [Hc|[Hc|[Hc|Hc]]]; subst lvl; eexists; reflexivity. }
  destruct (lvl <? level l) eqn:El.
  { exists l, ops, Filtered, [], r. done. }
  assert (∃ b l1, pool_Get pick l = Some (b, l1) ∧ level l1 = level l ∧ bufs l1 = bufs l ∧
                  writers l1 = writers l) as (b & l1 & -> & E1 & E2 & E3).
  { destruct pick as [k|]; simpl.
    - destruct Hp as [b Hb]. rewrite Hb. simpl. by eexists _, _.
    - by eexists _, _. }
  change ([] ++ Format t layout) with (Format t layout). rewrite Er, E2.
  destruct (range_bufs (bufio_Write r) (bufs l)) as [bs1 o1] eqn:Ew.
  assert (Hb1 : bs1 = (range_bufs (bufio_Write r) (bufs l)).1) by (by rewrite Ew).
  assert (Ho1 : o1 = (range_bufs (bufio_Write r) (bufs l)).2) by (by rewrite Ew).
  destruct (range_bufs bufio_Flush bs1) as [bs2 o2] eqn:Ef.
  assert (Hb2 : bs2 = (range_bufs bufio_Flush bs1).1) by (by rewrite Ef).
  assert (Ho2 : o2 = (range_bufs bufio_Flush bs1).2) by (by rewrite Ef).
  eexists _, _, _, _, r. split; [reflexivity|]. cbn [level writers bufs bufPool].
  split_and!; try done.
  - rewrite !no_close_app, Ho1, Ho2. split_and!; [done|apply range_bufs_no_close..].
  - rewrite Hb2. apply range_bufs_Flush_empty.
  - by rewrite Hb2, Hb1, !range_bufs_length.
  - intros i bw Hbw. rewrite !sink_out_app, Ho1, Ho2, !sink_out_range, Hbw.
    rewrite Hb1, range_bufs_lookup, Hbw. cbn [fmap option_fmap option_map].
    f_equal. pose proof (bufio_Flush_stream (bufio_Write r bw).1) as Hf.
    rewrite bufio_Flush_empty, app_nil_r in Hf. rewrite Hf.
    apply bufio_Write_stream.
  - apply last_snoc.
Qed.

Lemma maingo_log_writes_through_witness :
  ∃ l' ops' o cs, Error (B "e") T0 None maingo_default [] = Ok (l', ops', o, cs).
Proof.
  destruct (maingo_log_writes_through ERROR (B "e") T0 None maingo_default []
              ltac:(vm_compute; split; discriminate) I (List.Forall_nil _))
    as (l' & ops' & o & cs & _ & H & _).
  exists l', ops', o, cs. exact H.
Defined.

(** Property X20.  [Close] of the mutex variant, with writers that do not
    fail: every sink receives what its bufio writer still held, nothing
    stays buffered, and every writer that implements [io.Closer] gets one
    more [Close]; the threshold and the writers are kept. *)
Theorem maingo_Close_flushes l ops :
  let r := Close l ops in
  (∀ i bw, bufs l !! i = Some bw → sink_out i r.2 = sink_out i ops ++ bw_buf bw) ∧
  Forall (λ bw, bw_buf bw = []) (bufs r.1) ∧
  (∀ i, sink_closes i r.2 =
        (sink_closes i ops +
         match writers l !! i with
         | Some w => if w_closer w then 1 else 0
         | None => 0
         end)%nat) ∧
  level r.1 = level l ∧ writers r.1 = writers l.
Proof.
  unfold Close.
  destruct (range_bufs bufio_Flush (bufs l)) as [bs o] eqn:Ef.
  assert (Hb : bs = (range_bufs bufio_Flush (bufs l)).1) by (by rewrite Ef).
  assert (Ho : o = (range_bufs bufio_Flush (bufs l)).2) by (by rewrite Ef).
  cbn [fst snd level writers bufs]. split_and!; try done.
  - intros i bw Hbw. rewrite !sink_out_app, sink_out_close_writers, app_nil_r.
    rewrite Ho, sink_out_range, Hbw. f_equal.
    pose proof (bufio_Flush_stream bw) as Hf.
    by rewrite bufio_Flush_empty, app_nil_r in Hf.
  - rewrite Hb. apply range_bufs_Flush_empty.
  - intros i. rewrite !sink_closes_app, sink_closes_close_writers, Ho.
    rewrite (no_close_closes i _ (range_bufs_no_close _ _)). lia.
Qed.

End MainGoFacts.

(** ** A level outside DEBUG..ERROR in the two [package main] variants *)

(** Property X21.  In both [package main] variants [log] indexes the
    array of level names without a guard: a call with a level outside
    DEBUG..ERROR that passes the level check panics, where package
    speedlog writes the tag UNK. *)
Theorem variants_panic_on_unknown_level lvl msg t pick first l m ops :
  ¬ (DEBUG ≤ lvl ≤ ERROR) →
  (Part000.level l ≤ lvl → Part000API.pick_ok pick l →
   Part000.log lvl msg t pick first l = Panic) ∧
  (MainGo.level m ≤ lvl → MainGoAPI.pick_ok pick m →
   MainGo.log lvl msg t pick m ops = Panic).
Proof.
  intros Hr. split; intros Hl Hp.
  - unfold Part000.log. rewrite (proj2 (Z.ltb_ge _ _) Hl).
    assert (∃ b l1, Part000.pool_Get pick l = Some (b, l1)) as (b & l1 & ->).
    { destruct pick as [k|]; simpl; [|by eexists _, _].
      destruct Hp as [b Hb]. rewrite Hb. by eexists _, _. }
    by rewrite bracket_record_out_of_range.
  - unfold MainGo.log. rewrite (proj2 (Z.ltb_ge _ _) Hl).
    assert (∃ b l1, MainGo.pool_Get pick m = Some (b, l1)) as (b & l1 & ->).
    { destruct pick as [k|]; simpl; [|by eexists _, _].
      destruct Hp as [b Hb]. rewrite Hb. by eexists _, _. }
    by rewrite bracket_record_out_of_range.
Qed.

Lemma variants_panic_on_unknown_level_witness :
  Part000.log 4 (B "x") T0 None true part000_default = Panic ∧
  MainGo.log 4 (B "x") T0 None maingo_default [] = Panic.
Proof.
  destruct (variants_panic_on_unknown_level 4 (B "x") T0 None true part000_default
              maingo_default [] ltac:(vm_compute; intros [_ H]; by apply H))
    as [H1 H2].
  split; [apply H1|apply H2]; try exact I; vm_compute; discriminate.
Defined.

(** ** A threshold above ERROR *)

(** Property X22.  [SetLevel] with a level above ERROR: the channel
    variant ignores the call, so that [Error] still passes the level
    check of a logger whose threshold is one of the four levels; the mutex
    variant stores the level, and from then on [log] filters every call at
    DEBUG..ERROR: nothing is written and the sinks are left alone. *)
Theorem SetLevel_above_ERROR lvl msg t pick first l m ops :
  ERROR < lvl →
  (Part000API.level_ok l → Part000API.pick_ok pick l →
   ∃ l' o cs, Part000API.Error msg t pick first (Part000.SetLevel lvl l) = Ok (l', o, cs) ∧
              o ≠ Filtered ∧ Part000.level l' = Part000.level l) ∧
  (∀ k, DEBUG ≤ k ≤ ERROR →
        MainGo.log k msg t pick (MainGo.SetLevel lvl m) ops =
          Ok (MainGo.SetLevel lvl m, ops, Filtered, [])).
Proof.
  intros Hl. split.
  - intros Hok Hp. rewrite part000_SetLevel_out_of_range by lia.
    unfold Part000API.Error, Part000.log. destruct Hok as [_ Hok].
    rewrite (proj2 (Z.ltb_ge _ _) Hok).
    assert (∃ b l1, Part000.pool_Get pick l = Some (b, l1) ∧
                    Part000.level l1 = Part000.level l) as (b & l1 & -> & E).
    { destruct pick as [k|]; simpl; [|by eexists _, _].
      destruct Hp as [b Hb]. rewrite Hb. by eexists _, _. }
    destruct (bracket_record_in_range (AppendFormat t [] Part000.layout) ERROR msg)
      as [r ->]; [done|].
    repeat case_match; eexists _, _, _; split_and!; try reflexivity; try done.
  - intros k Hk. unfold MainGo.log, MainGo.SetLevel. simpl.
    rewrite (proj2 (Z.ltb_lt k lvl)) by lia. done.
Qed.

Lemma SetLevel_above_ERROR_witness :
  MainGo.log ERROR (B "e") T0 None (MainGo.SetLevel 4 maingo_default) [] =
  Ok (MainGo.SetLevel 4 maingo_default, [], Filtered, []).
Proof.
  exact (proj2 (SetLevel_above_ERROR 4 (B "e") T0 None true part000_default maingo_default []
                  ltac:(vm_compute; reflexivity))
           ERROR ltac:(vm_compute; split; discriminate)).
Defined.
